(** * Crater identification geometry engine: triad enumeration, coplanar
      invariants and camera projection.

    Shallow embedding of
      - [craterdetection/matching/utils.py],
      - [craterdetection/matching/projective_invariants.py],
      - [craterdetection/common/camera.py],
      - the scores and the losses of [craterdetection/detection/training.py].

    Python [int]s are [Z].  NumPy [float64] arithmetic is idealised as exact
    arithmetic over the real numbers [R]: rounding is not modelled, and every
    statement about a floating-point result is a statement about the exact
    computation the code performs.  Division is the total division of [R];
    where a result hinges on a division by zero (the camera's derived
    attitude) the undefined value is modelled explicitly.  A generator is the
    finite list of the values it yields, in order.  Exceptions are the
    [result] type: a function that can raise returns [Ok v] or [Raise e].

    Three helpers of the repository are not among the sources.
    [matrix_adjugate] is modelled as the classical adjugate; [scale_det],
    [crater_representation] and [ENU_system] are parameters of the
    functions that call them.  Of the libraries the code calls, NumPy's and
    astropy's functions are modelled as they are documented, and the clique
    enumeration of networkx is a parameter.  The singular values behind the
    condition number of the constructor's filter are a parameter too: which
    triads the filter excludes is stated on the values as they are
    computed. *)

From Stdlib Require Import String ZArith List Lia Bool.
From Stdlib Require Import Reals Lra.
Import ListNotations.

Set Implicit Arguments.

(* ================================================================== *)
(** ** Exceptions *)

Inductive exn : Type :=
| NameError (name : string)
| TypeError
| IndexError
| LinAlgError
| ValueError
| ExternalError.

Inductive result (A : Type) : Type :=
| Ok (a : A)
| Raise (e : exn).

Arguments Ok {A} a.
Arguments Raise {A} e.

Definition bind {A B : Type} (m : result A) (k : A -> result B) : result B :=
  match m with
  | Ok a => k a
  | Raise e => Raise e
  end.

Notation "x <- m ;; k" := (bind m (fun x => k))
  (at level 61, m at next level, right associativity).

(** Monadic map: the first failing element aborts the whole batch. *)
Fixpoint mapM {A B : Type} (f : A -> result B) (l : list A) : result (list B) :=
  match l with
  | [] => Ok []
  | a :: l' => b <- f a ;; bs <- mapM f l' ;; Ok (b :: bs)
  end.

Lemma bind_ok {A B : Type} (m : result A) (k : A -> result B) (b : B) :
  bind m k = Ok b <-> exists a, m = Ok a /\ k a = Ok b.
Proof.
  destruct m as [a|e]; simpl; split.
  - intros H. exists a. auto.
  - intros [a' [Ha Hk]]. inversion Ha. subst. exact Hk.
  - discriminate.
  - intros [a' [Ha _]]. discriminate.
Qed.

Lemma mapM_ok {A B : Type} (f : A -> result B) (l : list A) (l' : list B) :
  mapM f l = Ok l' <-> Forall2 (fun a b => f a = Ok b) l l'.
Proof.
  revert l'. induction l as [|a l IH]; intros l'; simpl.
  - split; intros H; inversion H; constructor.
  - split.
    + intros H. apply bind_ok in H. destruct H as [b [Hb H]].
      apply bind_ok in H. destruct H as [bs [Hbs H]].
      inversion H; subst. constructor; [exact Hb|]. apply IH. exact Hbs.
    + intros H. inversion H as [|? b ? bs Hb Hbs]; subst.
      rewrite Hb. simpl. apply IH in Hbs. rewrite Hbs. reflexivity.
Qed.

Lemma mapM_length {A B : Type} (f : A -> result B) (l : list A) (l' : list B) :
  mapM f l = Ok l' -> length l' = length l.
Proof.
  intros H. apply mapM_ok in H. symmetry. eapply Forall2_length. exact H.
Qed.

(* ================================================================== *)
(** ** NumPy arrays *)

(** A NumPy batch (an array whose first axis runs over the triads) is a
    list; an arithmetic expression over batches of one length is the
    expression applied entry by entry.  An [n x 3] array is the list of its
    rows, each a triple; its transpose, a [3 x n] array, is the triple of its
    three rows. *)

Module Np.

Open Scope R_scope.

Definition map2 {A B C : Type} (f : A -> B -> C) (l1 : list A) (l2 : list B)
  : list C :=
  map (fun p => f (fst p) (snd p)) (combine l1 l2).

Fixpoint lift3 {A : Type} (f : R -> R -> R -> A) (xs ys zs : list R) : list A :=
  match xs, ys, zs with
  | x :: xs', y :: ys', z :: zs' => f x y z :: lift3 f xs' ys' zs'
  | _, _, _ => []
  end.

Fixpoint lift6 {A : Type} (f : R -> R -> R -> R -> R -> R -> A)
         (x1 y1 z1 x2 y2 z2 : list R) : list A :=
  match x1, y1, z1, x2, y2, z2 with
  | a :: x1', b :: y1', c :: z1', d :: x2', e :: y2', g :: z2' =>
      f a b c d e g :: lift6 f x1' y1' z1' x2' y2' z2'
  | _, _, _, _, _, _ => []
  end.

(** Boolean-mask indexing [arr[mask]]: a new array. *)
Fixpoint select {A : Type} (mask : list bool) (l : list A) : list A :=
  match mask, l with
  | b :: mask', x :: l' => if b then x :: select mask' l' else select mask' l'
  | _, _ => []
  end.

(** Boolean-mask assignment [arr[mask] = vals]: the entries under the mask
    are replaced, in order, by the entries of [vals].  NumPy refuses a [vals]
    of another length than the mask selects; the model then leaves the
    remaining entries as they are. *)
Fixpoint mask_assign {A : Type} (mask : list bool) (arr vals : list A)
  : list A :=
  match mask, arr with
  | true :: mask', x :: arr' =>
      match vals with
      | v :: vals' => v :: mask_assign mask' arr' vals'
      | [] => x :: arr'
      end
  | false :: mask', x :: arr' => x :: mask_assign mask' arr' vals
  | _, _ => arr
  end.

(** Three aligned rows read column by column: the transpose of a [3 x n]
    array. *)
Fixpoint zip3 {A B C : Type} (l1 : list A) (l2 : list B) (l3 : list C)
  : list (A * B * C) :=
  match l1, l2, l3 with
  | a :: l1', b :: l2', c :: l3' => (a, b, c) :: zip3 l1' l2' l3'
  | _, _, _ => []
  end.

(** The transpose of an [n x 3] array: its three columns. *)
Definition unzip3 {A : Type} (l : list (A * A * A))
  : list A * list A * list A :=
  (map (fun t => fst (fst t)) l, map (fun t => snd (fst t)) l,
   map (fun t => snd t) l).

(** Integer indexing [arr[i]]: a negative index counts from the end, an index
    out of range raises [IndexError]. *)
Definition index (arr : list R) (i : Z) : result R :=
  let n := Z.of_nat (length arr) in
  if (0 <=? i)%Z && (i <? n)%Z then Ok (nth (Z.to_nat i) arr 0)
  else if (- n <=? i)%Z && (i <? 0)%Z then Ok (nth (Z.to_nat (n + i)) arr 0)
  else Raise IndexError.

(** Indexing by an [n x 3] array of indices, [arr[triads]]: an [n x 3]
    array. *)
Definition index_triads (arr : list R) (triads : list (Z * Z * Z))
  : result (list (R * R * R)) :=
  mapM (fun t : Z * Z * Z =>
          let '(i, j, k) := t in
          a <- index arr i ;; b <- index arr j ;; c <- index arr k ;;
          Ok (a, b, c))
       triads.

(** A 2-D array of floats is the list of its rows.  [T ncols a] is [a.T] for
    an array [a] with [ncols] columns: it has [ncols] rows whatever [a]
    holds. *)
Definition T (ncols : nat) (a : list (list R)) : list (list R) :=
  map (fun c => map (fun row => nth c row 0) a) (seq 0 ncols).

(** A 1-D array as [np.column_stack] reads it: one column. *)
Definition as_column (v : list R) : list (list R) := map (fun x => [x]) v.

(** [np.column_stack] of 2-D parts with [n] rows each. *)
Definition column_stack (n : nat) (parts : list (list (list R)))
  : list (list R) :=
  map (fun t => concat (map (fun p => nth t p []) parts)) (seq 0 n).

End Np.

(* ================================================================== *)
(** ** NumPy linear algebra on 3-vectors and 3x3 matrices, over [R] *)

Module LinAlg.

Open Scope R_scope.

(** A 3x1 column vector. *)
Record V3 : Type := mkV3 { vx : R; vy : R; vz : R }.

(** A 3x3 matrix, row by row. *)
Record M33 : Type := mkM33 {
  m00 : R; m01 : R; m02 : R;
  m10 : R; m11 : R; m12 : R;
  m20 : R; m21 : R; m22 : R }.

Definition madd (A B : M33) : M33 :=
  mkM33 (m00 A + m00 B) (m01 A + m01 B) (m02 A + m02 B)
        (m10 A + m10 B) (m11 A + m11 B) (m12 A + m12 B)
        (m20 A + m20 B) (m21 A + m21 B) (m22 A + m22 B).

Definition msub (A B : M33) : M33 :=
  mkM33 (m00 A - m00 B) (m01 A - m01 B) (m02 A - m02 B)
        (m10 A - m10 B) (m11 A - m11 B) (m12 A - m12 B)
        (m20 A - m20 B) (m21 A - m21 B) (m22 A - m22 B).

Definition mscale (c : R) (A : M33) : M33 :=
  mkM33 (c * m00 A) (c * m01 A) (c * m02 A)
        (c * m10 A) (c * m11 A) (c * m12 A)
        (c * m20 A) (c * m21 A) (c * m22 A).

(** [A @ B]. *)
Definition matmul (A B : M33) : M33 :=
  mkM33 (m00 A * m00 B + m01 A * m10 B + m02 A * m20 B)
        (m00 A * m01 B + m01 A * m11 B + m02 A * m21 B)
        (m00 A * m02 B + m01 A * m12 B + m02 A * m22 B)
        (m10 A * m00 B + m11 A * m10 B + m12 A * m20 B)
        (m10 A * m01 B + m11 A * m11 B + m12 A * m21 B)
        (m10 A * m02 B + m11 A * m12 B + m12 A * m22 B)
        (m20 A * m00 B + m21 A * m10 B + m22 A * m20 B)
        (m20 A * m01 B + m21 A * m11 B + m22 A * m21 B)
        (m20 A * m02 B + m21 A * m12 B + m22 A * m22 B).

(** [A @ v] for a column vector [v]. *)
Definition matvec (A : M33) (v : V3) : V3 :=
  mkV3 (m00 A * vx v + m01 A * vy v + m02 A * vz v)
       (m10 A * vx v + m11 A * vy v + m12 A * vz v)
       (m20 A * vx v + m21 A * vy v + m22 A * vz v).

Definition transpose (A : M33) : M33 :=
  mkM33 (m00 A) (m10 A) (m20 A)
        (m01 A) (m11 A) (m21 A)
        (m02 A) (m12 A) (m22 A).

(** [np.trace]. *)
Definition trace (A : M33) : R := m00 A + m11 A + m22 A.

(** [LA.det], by cofactor expansion along the first row. *)
Definition det (A : M33) : R :=
  m00 A * (m11 A * m22 A - m12 A * m21 A)
  - m01 A * (m10 A * m22 A - m12 A * m20 A)
  + m02 A * (m10 A * m21 A - m11 A * m20 A).

(** Modelled from the spec: [matrix_adjugate] of
    [craterdetection/common/conics.py], which is not among the sources; the
    spec calls it the classical adjugate, the transpose of the cofactor
    matrix, with [A @ adj(A) = det(A) I]. *)
Definition matrix_adjugate (A : M33) : M33 :=
  mkM33 (m11 A * m22 A - m12 A * m21 A)
        (m02 A * m21 A - m01 A * m22 A)
        (m01 A * m12 A - m02 A * m11 A)
        (m12 A * m20 A - m10 A * m22 A)
        (m00 A * m22 A - m02 A * m20 A)
        (m02 A * m10 A - m00 A * m12 A)
        (m10 A * m21 A - m11 A * m20 A)
        (m01 A * m20 A - m00 A * m21 A)
        (m00 A * m11 A - m01 A * m10 A).

(** The inverse of a non-singular matrix. *)
Definition minv (A : M33) : M33 := mscale (/ det A) (matrix_adjugate A).

(** [LA.inv]: raises [LinAlgError] on a singular matrix. *)
Definition inv (A : M33) : result M33 :=
  if Req_dec_T (det A) 0 then Raise LinAlgError else Ok (minv A).

(** [np.isfinite(LA.cond(A))] read in exact arithmetic.  NumPy's 2-norm
    condition number is the ratio of the largest to the smallest singular
    value, and [LA.cond] returns [inf] where that ratio is [inf] or [nan]
    (the zero matrix); with the exact singular values it is finite exactly
    for the non-singular matrices.  The statements that rest on this
    reading use no more of it than [cond(A - B) = cond(B - A)]; what the
    filter excludes is stated on [isfinite_cond] below, which takes the
    singular values as they are computed. *)
Definition cond_isfinite (A : M33) : bool :=
  if Req_dec_T (det A) 0 then false else true.

(** The least quotient that a division of [float64] numbers rounds to
    [inf]: [2^1024 - 2^970]. *)
Definition float_overflow : R := (2 ^ 54 - 1) * 2 ^ 970.

(** [LA.cond(A)] with the default norm, as NumPy computes it: from the
    singular values [s] that LAPACK returns for [A], largest first, it forms
    [s[0] / s[-1]] and returns [inf] where that quotient is [inf] or [nan].
    The computed singular values are a parameter, [svdvals]; [None] stands
    for [inf], which the quotient is when it is a quotient by zero and when
    it overflows. *)
Definition cond (svdvals : M33 -> R * R * R) (A : M33) : option R :=
  let '(s_max, _, s_min) := svdvals A in
  if Req_dec_T s_min 0 then None
  else if Rlt_dec (s_max / s_min) float_overflow then Some (s_max / s_min)
  else None.

(** [np.isfinite(LA.cond(A))]. *)
Definition isfinite_cond (svdvals : M33 -> R * R * R) (A : M33) : bool :=
  match cond svdvals A with
  | Some _ => true
  | None => false
  end.

(** The first and the last of the computed singular values. *)
Definition largest_singular_value (svdvals : M33 -> R * R * R) (A : M33) : R :=
  fst (fst (svdvals A)).

Definition smallest_singular_value (svdvals : M33 -> R * R * R) (A : M33) : R :=
  snd (svdvals A).

Definition zero3 : M33 := mkM33 0 0 0 0 0 0 0 0 0.

Definition identity3 : M33 := mkM33 1 0 0 0 1 0 0 0 1.

Definition nonsingular (A : M33) : Prop := det A <> 0.

Lemma M33_eq (A B : M33) :
  m00 A = m00 B -> m01 A = m01 B -> m02 A = m02 B ->
  m10 A = m10 B -> m11 A = m11 B -> m12 A = m12 B ->
  m20 A = m20 B -> m21 A = m21 B -> m22 A = m22 B -> A = B.
Proof. destruct A, B; simpl; intros; subst; reflexivity. Qed.

Ltac mat_ring :=
  repeat match goal with A : M33 |- _ => destruct A end;
  repeat match goal with v : V3 |- _ => destruct v end;
  cbn; try (apply M33_eq; cbn); try ring.

Lemma matmul_adjugate (A : M33) :
  matmul A (matrix_adjugate A) = mscale (det A) identity3.
Proof. unfold det. mat_ring. Qed.

Lemma matmul_minv_r (A : M33) : det A <> 0 -> matmul A (minv A) = identity3.
Proof.
  intros H. unfold minv, det in *. destruct A. apply M33_eq; cbn; field; exact H.
Qed.

Lemma matmul_minv_l (A : M33) : det A <> 0 -> matmul (minv A) A = identity3.
Proof.
  intros H. unfold minv, det in *. destruct A. apply M33_eq; cbn; field; exact H.
Qed.

Lemma det_msub_swap (A B : M33) : det (msub B A) = - det (msub A B).
Proof. unfold det. mat_ring. Qed.

Lemma det_msub_diag (A : M33) : det (msub A A) = 0.
Proof. unfold det. mat_ring. Qed.

Lemma cond_isfinite_true (A : M33) : cond_isfinite A = true <-> det A <> 0.
Proof.
  unfold cond_isfinite. destruct (Req_dec_T (det A) 0); split; intros; try easy.
Qed.

Lemma cond_isfinite_msub_swap (A B : M33) :
  cond_isfinite (msub B A) = cond_isfinite (msub A B).
Proof.
  unfold cond_isfinite. rewrite det_msub_swap.
  destruct (Req_dec_T (- det (msub A B)) 0), (Req_dec_T (det (msub A B)) 0);
    try reflexivity; exfalso; lra.
Qed.

Lemma inv_ok (A B : M33) : inv A = Ok B <-> det A <> 0 /\ B = minv A.
Proof.
  unfold inv. destruct (Req_dec_T (det A) 0); split.
  - discriminate.
  - intros [H _]. contradiction.
  - intros H. inversion H. auto.
  - intros [_ ->]. reflexivity.
Qed.

Lemma mapM_inv_ok (l l' : list M33) :
  mapM inv l = Ok l' <-> Forall nonsingular l /\ l' = map minv l.
Proof.
  rewrite mapM_ok. revert l'. induction l as [|A l IH]; intros l'; split.
  - intros H. inversion H. split; constructor.
  - intros [_ ->]. constructor.
  - intros H. inversion H as [|? B ? bs HB Hbs]; subst.
    apply inv_ok in HB. destruct HB as [HA ->].
    apply IH in Hbs. destruct Hbs as [Hl ->].
    split; [constructor; assumption|reflexivity].
  - intros [H ->]. inversion H; subst. simpl. constructor.
    + apply inv_ok. split; [assumption|reflexivity].
    + apply IH. split; [assumption|reflexivity].
Qed.

End LinAlg.

(* ================================================================== *)
(** ** [utils.py]: the triad enumerator and the orientation tests *)

Module Utils.

Open Scope Z_scope.

(** Python's [range(start, stop)]. *)
Definition range (start stop : Z) : list Z :=
  map (fun q => start + Z.of_nat q) (seq 0 (Z.to_nat (stop - start))).

(** Python's [range(start, stop, step)] for a positive [step]: it has
    [max 0 (ceil ((stop - start) / step))] elements. *)
Definition range_step (start stop step : Z) : list Z :=
  map (fun q => start + step * Z.of_nat q)
      (seq 0 (Z.to_nat ((stop - start + step - 1) / step))).

Definition triad : Type := (Z * Z * Z)%type.

(** [enhanced_pattern_shifting(n)], utils.py lines 111-117: the list of the
    triples the generator yields, in the order it yields them. *)
Definition enhanced_pattern_shifting (n : Z) : list triad :=
  flat_map (fun dj =>
    flat_map (fun dk =>
      flat_map (fun ii =>
        map (fun i => let j := i + dj in let k := j + dk in (i, j, k))
            (range_step ii (n - dj - dk) 3))
        (range 0 3))
      (range 1 (n - dj - 1)))
    (range 1 (n - 2)).

(** The number of 3-combinations of [n] elements, as the caller
    [from_detection_conics] computes it (projective_invariants.py line 137). *)
Definition n_comb (n : Z) : Z := (n * (n - 1) * (n - 2)) / 6.

(** A triple is a 3-combination of [{0..n-1}] in sorted form. *)
Definition sorted_triple (n : Z) (t : triad) : Prop :=
  let '(i, j, k) := t in 0 <= i /\ i < j /\ j < k /\ k < n.

(** *** Orientation of point triples

    [x_triads] and [y_triads] are [3 x n] arrays: row [m] holds the
    coordinate of the [m]-th member of every triad. *)

Section Orientation.

Local Open Scope R_scope.

(** What [np_swap_columns] does to one row: entries 0 and 1 change places. *)
Definition swap01 {A : Type} (row : A * A * A) : A * A * A :=
  let '(c0, c1, c2) := row in (c1, c0, c2).

(** [np_swap_columns(arr)], lines 10-12, on an [n x 3] array: columns 0 and
    1 change places.  The function writes into [arr]; its call sites pass
    the fresh array a boolean-mask indexing returns, so no other array is
    affected. *)
Definition np_swap_columns {A : Type} (arr : list (A * A * A))
  : list (A * A * A) :=
  map swap01 arr.

(** The determinant of [[x0, y0, 1], [x1, y1, 1], [x2, y2, 1]], in exact
    arithmetic.  [LA.det] computes it with rounding, and can return a small
    number that is not zero for three points on a line; the statements on
    the orientation tests rest on how the determinant changes when rows
    change places, not on which triads have the determinant zero. *)
Definition signed_area (x0 y0 x1 y1 x2 y2 : R) : R :=
  LinAlg.det (LinAlg.mkM33 x0 y0 1 x1 y1 1 x2 y2 1).

(** [cw_or_ccw], lines 15-18: that determinant for every triad. *)
Definition cw_or_ccw (x_triads y_triads : list R * list R * list R) : list R :=
  let '(x0, x1, x2) := x_triads in
  let '(y0, y1, y2) := y_triads in
  Np.lift6 signed_area x0 y0 x1 y1 x2 y2.

(** [is_colinear], lines 21-22. *)
Definition is_colinear (x_triads y_triads : list R * list R * list R)
  : list bool :=
  map (fun d => if Req_dec_T d 0 then true else false)
      (cw_or_ccw x_triads y_triads).

(** [is_clockwise], line 38: a negative determinant. *)
Definition is_clockwise (x_triads y_triads : list R * list R * list R)
  : list bool :=
  map (fun d => if Rlt_dec d 0 then true else false)
      (cw_or_ccw x_triads y_triads).

(** [all_clockwise], lines 41-42: [np.logical_and.reduce] of the clockwise
    flags. *)
Definition all_clockwise (x_triads y_triads : list R * list R * list R)
  : bool :=
  forallb (fun b => b) (is_clockwise x_triads y_triads).

End Orientation.


(** *** Gathering, rotations, cliques and coordinates *)

(** [triad_splice(arr, triads)], lines 6-7, for a 1-D array [arr] and an
    [n x 3] array of indices: [arr[triads]] is [n x 3], its transpose the
    three rows. *)
Definition triad_splice (arr : list R) (triads : list triad)
  : result (list R * list R * list R) :=
  rows <- Np.index_triads arr triads ;; Ok (Np.unzip3 rows).

(** An index NumPy accepts on an axis of length [n]. *)
Definition in_bounds (n : nat) (i : Z) : Prop :=
  - Z.of_nat n <= i < Z.of_nat n.

(** The entry an accepted index reads: a negative index counts from the
    end. *)
Definition item (arr : list R) (i : Z) : R :=
  nth (Z.to_nat (if i <? 0 then Z.of_nat (length arr) + i else i)) arr 0%R.

(** The three indices of a triad are accepted. *)
Definition triad_in_bounds (n : nat) (t : triad) : Prop :=
  let '(i, j, k) := t in in_bounds n i /\ in_bounds n j /\ in_bounds n k.

Section CyclicPermutations.

(** The elements of the sequence, compared by [==]. *)
Variable A : Type.
Variable eq_dec : forall x y : A, {x = y} + {x <> y}.

(** [it[k:] + it[:k]]. *)
Definition rotation (k : nat) (it : list A) : list A :=
  skipn k it ++ firstn k it.

(** The [for] loop of lines 59-63 over the values [ks] of [k] that are
    left: the rotations yielded until the [break]. *)
Fixpoint cyclic_permutations_loop (it : list A) (ks : list Z)
  : list (list A) :=
  match ks with
  | [] => []
  | k :: ks' =>
      let p := skipn (Z.to_nat k) it ++ firstn (Z.to_nat k) it in
      if list_eq_dec eq_dec p it then []
      else p :: cyclic_permutations_loop it ks'
  end.

(** [cyclic_permutations(it)], lines 58-63, for a list, tuple or string
    [it]. *)
Definition cyclic_permutations (it : list A) : list (list A) :=
  it :: cyclic_permutations_loop it (range 1 (Z.of_nat (length it))).

End CyclicPermutations.

Section Cliques.

(** [nx.enumerate_all_cliques] belongs to networkx: a parameter giving, for
    a graph, the cliques the generator yields, in order. *)
Variable graph : Type.
Variable node : Type.
Variable enumerate_all_cliques : graph -> list (list node).

(** The loop of lines 71-76 over the cliques that are left, [cliques] being
    the list built so far. *)
Fixpoint get_cliques_loop (cs : list (list node)) (length_clique : Z)
         (cliques : list (list node)) : list (list node) :=
  match cs with
  | [] => cliques
  | c :: cs' =>
      if Z.of_nat (length c) <=? length_clique then
        if Z.of_nat (length c) =? length_clique
        then get_cliques_loop cs' length_clique (cliques ++ [c])
        else get_cliques_loop cs' length_clique cliques
      else cliques
  end.

(** [get_cliques_by_length(G, length_clique)], lines 70-78. *)
Definition get_cliques_by_length (G : graph) (length_clique : Z)
  : list (list node) :=
  get_cliques_loop (enumerate_all_cliques G) length_clique [].

(** The enumeration never yields a smaller clique after a larger one. *)
Definition size_ordered (cs : list (list node)) : Prop :=
  forall i j, (i <= j < length cs)%nat ->
              (length (nth i cs []) <= length (nth j cs []))%nat.

End Cliques.

Section Coordinates.

Local Open Scope R_scope.

(** [latlong2cartesian(lat, long, alt, rad)], lines 85-92; the defaults are
    [alt = 0] and [rad = 1737.1]. *)
Definition latlong2cartesian (lat long alt rad : R) : R * R * R :=
  let f := 1 / 825 in
  let ls := atan ((1 - f) ^ 2 * tan lat) in
  let x := rad * cos ls * cos long + alt * cos lat * cos long in
  let y := rad * cos ls * sin long + alt * cos lat * sin long in
  let z := rad * sin ls + alt * sin lat in
  (x, y, z).

(** The angle [ls] of line 86. *)
Definition reduced_latitude (lat : R) : R :=
  atan ((1 - 1 / 825) ^ 2 * tan lat).

End Coordinates.
Example eps_3 : enhanced_pattern_shifting 3 = [].
Proof. reflexivity. Qed.

Example eps_4 : enhanced_pattern_shifting 4 = [(0, 1, 2); (1, 2, 3)].
Proof. reflexivity. Qed.

Example eps_5 :
  enhanced_pattern_shifting 5 =
  [(0, 1, 2); (1, 2, 3); (2, 3, 4); (0, 1, 3); (1, 2, 4); (0, 2, 3); (1, 3, 4)].
Proof. reflexivity. Qed.

(** *** Membership in ranges *)

Lemma range_empty (a b : Z) : b <= a -> range a b = [].
Proof.
  intros H. unfold range. replace (Z.to_nat (b - a)) with O by lia.
  reflexivity.
Qed.

Lemma in_range (a b x : Z) : In x (range a b) <-> a <= x < b.
Proof.
  unfold range. rewrite in_map_iff. split.
  - intros [q [<- Hq]]. apply in_seq in Hq. lia.
  - intros H. exists (Z.to_nat (x - a)). split; [lia|].
    apply in_seq. lia.
Qed.

Lemma in_range_step3 (a b x : Z) :
  In x (range_step a b 3) <-> a <= x < b /\ (x - a) mod 3 = 0.
Proof.
  unfold range_step. rewrite in_map_iff. split.
  - intros [q [<- Hq]]. apply in_seq in Hq.
    replace (a + 3 * Z.of_nat q - a) with (Z.of_nat q * 3) by ring.
    rewrite Z.mod_mul by lia.
    assert (Hc : Z.of_nat q < (b - a + 3 - 1) / 3).
    { destruct (Z_lt_le_dec 0 ((b - a + 3 - 1) / 3)); lia. }
    assert (Hd := Z.mul_div_le (b - a + 3 - 1) 3 ltac:(lia)).
    lia.
  - intros [Hx Hm].
    assert (Hq : x - a = 3 * ((x - a) / 3)).
    { rewrite (Z.div_mod (x - a) 3) at 1 by lia. lia. }
    exists (Z.to_nat ((x - a) / 3)). split.
    + rewrite Z2Nat.id by (apply Z.div_pos; lia). lia.
    + apply in_seq.
      assert (Hd := Z.mul_succ_div_gt (b - a + 3 - 1) 3 ltac:(lia)).
      lia.
Qed.

(** *** Which triples are yielded *)

Lemma in_enhanced_pattern_shifting (n i j k : Z) :
  In (i, j, k) (enhanced_pattern_shifting n) <->
  0 <= i /\ i < j /\ j < k /\ k < n /\ k - i <= n - 2.
Proof.
  unfold enhanced_pattern_shifting. rewrite in_flat_map. split.
  - intros [dj [Hdj H]]. apply in_flat_map in H. destruct H as [dk [Hdk H]].
    apply in_flat_map in H. destruct H as [ii [Hii H]].
    apply in_map_iff in H. destruct H as [i0 [Heq Hi0]].
    cbv zeta in Heq. inversion Heq; subst; clear Heq.
    apply in_range in Hdj, Hdk, Hii. apply in_range_step3 in Hi0. lia.
  - intros (Hi & Hij & Hjk & Hk & Hspan).
    exists (j - i). split; [apply in_range; lia|].
    apply in_flat_map. exists (k - j). split; [apply in_range; lia|].
    apply in_flat_map. exists (i mod 3).
    assert (Hm := Z.mod_pos_bound i 3 ltac:(lia)).
    split; [apply in_range; lia|].
    apply in_map_iff. exists i. split.
    + cbv zeta. f_equal; [f_equal|]; lia.
    + apply in_range_step3. split.
      * assert (Hle : i mod 3 <= i) by (apply Z.mod_le; lia). lia.
      * rewrite Zminus_mod_idemp_r. rewrite Z.sub_diag. reflexivity.
Qed.

(** Every yielded triple is a sorted 3-combination of [{0..n-1}]. *)
Lemma enhanced_pattern_shifting_sorted (n : Z) (t : triad) :
  In t (enhanced_pattern_shifting n) -> sorted_triple n t.
Proof.
  destruct t as [[i j] k]. rewrite in_enhanced_pattern_shifting.
  unfold sorted_triple. lia.
Qed.

(** *** No triple is yielded twice *)

Lemma NoDup_map_injective {A B : Type} (f : A -> B) (l : list A) :
  (forall x y, In x l -> In y l -> f x = f y -> x = y) ->
  NoDup l -> NoDup (map f l).
Proof.
  intros Hinj Hnd. induction Hnd as [|x l Hx Hnd IH]; simpl; constructor.
  - rewrite in_map_iff. intros [y [Hy Hin]].
    assert (y = x) by (apply Hinj; simpl; auto). subst. contradiction.
  - apply IH. intros; apply Hinj; simpl; auto.
Qed.

(** A concatenation of duplicate-free blocks is duplicate-free when a key
    read off an element tells which block it came from. *)
Lemma NoDup_flat_map_keyed {A B : Type} (key : B -> A) (f : A -> list B)
      (l : list A) :
  NoDup l ->
  (forall a, In a l -> NoDup (f a)) ->
  (forall a b, In a l -> In b (f a) -> key b = a) ->
  NoDup (flat_map f l).
Proof.
  intros Hnd. induction Hnd as [|a l Ha Hnd IH]; intros Hblk Hkey; simpl.
  - constructor.
  - apply NoDup_app.
    + apply Hblk; simpl; auto.
    + apply IH; intros; [apply Hblk|apply Hkey]; simpl; auto.
    + intros b Hb1 Hb2. apply in_flat_map in Hb2.
      destruct Hb2 as [a' [Ha' Hb2]].
      assert (key b = a) by (apply Hkey; simpl; auto).
      assert (key b = a') by (apply Hkey; simpl; auto).
      congruence.
Qed.

Lemma NoDup_range (a b : Z) : NoDup (range a b).
Proof.
  unfold range. apply NoDup_map_injective; [|apply seq_NoDup].
  intros; lia.
Qed.

Lemma NoDup_range_step3 (a b : Z) : NoDup (range_step a b 3).
Proof.
  unfold range_step. apply NoDup_map_injective; [|apply seq_NoDup].
  intros; lia.
Qed.

Lemma enhanced_pattern_shifting_NoDup (n : Z) :
  NoDup (enhanced_pattern_shifting n).
Proof.
  unfold enhanced_pattern_shifting.
  apply NoDup_flat_map_keyed with (key := fun t : triad => snd (fst t) - fst (fst t)).
  - apply NoDup_range.
  - intros dj _.
    apply NoDup_flat_map_keyed with (key := fun t : triad => snd t - snd (fst t)).
    + apply NoDup_range.
    + intros dk _.
      apply NoDup_flat_map_keyed with (key := fun t : triad => fst (fst t) mod 3).
      * apply NoDup_range.
      * intros ii _. apply NoDup_map_injective; [|apply NoDup_range_step3].
        intros x y _ _ H. cbv zeta in H. congruence.
      * intros ii t Hii Ht. apply in_map_iff in Ht.
        destruct Ht as [i [<- Hi]]. cbv zeta. simpl.
        apply in_range in Hii. apply in_range_step3 in Hi.
        destruct Hi as [Hi Hm].
        rewrite <- (Z.mod_small ii 3) by lia.
        replace i with ((i - ii) + ii) at 1 by ring.
        rewrite Zplus_mod, Hm. simpl. rewrite Z.mod_mod by lia. reflexivity.
    + intros dk t _ Ht. apply in_flat_map in Ht. destruct Ht as [ii [_ Ht]].
      apply in_map_iff in Ht. destruct Ht as [i [<- _]]. cbv zeta. simpl. ring.
  - intros dj t _ Ht. apply in_flat_map in Ht. destruct Ht as [dk [_ Ht]].
    apply in_flat_map in Ht. destruct Ht as [ii [_ Ht]].
    apply in_map_iff in Ht. destruct Ht as [i [<- _]]. cbv zeta. simpl. ring.
Qed.

(** *** How many triples are yielded *)

Definition zsum (l : list Z) : Z := fold_right Z.add 0 l.

Lemma zsum_app (l1 l2 : list Z) : zsum (l1 ++ l2) = zsum l1 + zsum l2.
Proof. induction l1 as [|x l1 IH]; simpl; lia. Qed.

Lemma length_flat_map_zsum {A B : Type} (f : A -> list B) (l : list A) :
  Z.of_nat (length (flat_map f l)) =
  zsum (map (fun a => Z.of_nat (length (f a))) l).
Proof.
  induction l as [|a l IH]; simpl; [reflexivity|].
  rewrite length_app, Nat2Z.inj_add, IH. reflexivity.
Qed.

Lemma zsum_map_ext_in {A : Type} (f g : A -> Z) (l : list A) :
  (forall a, In a l -> f a = g a) -> zsum (map f l) = zsum (map g l).
Proof. intros H. f_equal. apply map_ext_in. exact H. Qed.

Lemma zsum_map_scale {A : Type} (m : Z) (f g : A -> Z) (l : list A) :
  (forall a, In a l -> m * f a = g a) ->
  m * zsum (map f l) = zsum (map g l).
Proof.
  induction l as [|a l IH]; intros H; simpl; [lia|].
  rewrite <- IH by (intros; apply H; simpl; auto).
  rewrite <- (H a) by (simpl; auto). ring.
Qed.

(** A sum over [0 .. c-1] with a known antiderivative, up to a factor [m]. *)
Lemma zsum_seq_closed (m : Z) (f F : nat -> Z) :
  F O = 0 ->
  (forall c, F (S c) = F c + m * f c) ->
  forall c, m * zsum (map f (seq 0 c)) = F c.
Proof.
  intros H0 HS c. induction c as [|c IH].
  - simpl. lia.
  - rewrite seq_S, map_app, zsum_app. simpl. rewrite HS. lia.
Qed.

Lemma length_range_step (a b : Z) :
  Z.of_nat (length (range_step a b 3)) = Z.max 0 ((b - a + 2) / 3).
Proof.
  unfold range_step. rewrite length_map, length_seq.
  replace (b - a + 3 - 1) with (b - a + 2) by ring. lia.
Qed.

(** For one pair of gaps, the three residue classes together hold one triple
    per admissible first index. *)
Lemma residue_classes_count (m : Z) :
  2 <= m ->
  zsum (map (fun ii => Z.of_nat (length (range_step ii m 3))) (range 0 3)) = m.
Proof.
  intros Hm. change (range 0 3) with [0; 1; 2]. simpl.
  rewrite !length_range_step.
  replace (m - 0 + 2) with (m + 2) by ring.
  replace (m - 1 + 2) with (m + 1) by ring.
  replace (m - 2 + 2) with m by ring.
  assert (H0 := Z.div_mod m 3 ltac:(lia)).
  assert (H1 := Z.div_mod (m + 1) 3 ltac:(lia)).
  assert (H2 := Z.div_mod (m + 2) 3 ltac:(lia)).
  assert (B0 := Z.mod_pos_bound m 3 ltac:(lia)).
  assert (B1 := Z.mod_pos_bound (m + 1) 3 ltac:(lia)).
  assert (B2 := Z.mod_pos_bound (m + 2) 3 ltac:(lia)).
  lia.
Qed.

(** [6 * (number of yielded triples) = n (n-1) (n-2) - 6 (n-2)]. *)
Lemma enhanced_pattern_shifting_count6 (n : Z) :
  3 <= n ->
  6 * Z.of_nat (length (enhanced_pattern_shifting n)) =
  n * (n - 1) * (n - 2) - 6 * (n - 2).
Proof.
  intros Hn. unfold enhanced_pattern_shifting.
  rewrite length_flat_map_zsum.
  (* per first gap dj, with M = n - dj: 2 * count = (M - 2) (M + 1) *)
  assert (Hdj : forall dj, In dj (range 1 (n - 2)) ->
    2 * Z.of_nat (length (flat_map (fun dk =>
          flat_map (fun ii =>
            map (fun i => let j := i + dj in let k := j + dk in (i, j, k))
                (range_step ii (n - dj - dk) 3)) (range 0 3))
          (range 1 (n - dj - 1)))) = (n - dj - 2) * (n - dj + 1)).
  { intros dj Hin. apply in_range in Hin.
    rewrite length_flat_map_zsum.
    rewrite zsum_map_ext_in with (g := fun dk => n - dj - dk).
    2:{ intros dk Hdk. apply in_range in Hdk.
        rewrite length_flat_map_zsum.
        rewrite zsum_map_ext_in
          with (g := fun ii => Z.of_nat (length (range_step ii (n - dj - dk) 3))).
        - apply residue_classes_count. lia.
        - intros ii _. rewrite length_map. reflexivity. }
    unfold range. rewrite map_map.
    rewrite zsum_seq_closed
      with (F := fun c => Z.of_nat c * (2 * (n - dj) - 1 - Z.of_nat c)).
    - rewrite Z2Nat.id by lia. ring.
    - simpl. reflexivity.
    - intros c. rewrite Nat2Z.inj_succ. ring. }
  (* sum over the first gap *)
  assert (H3 : 6 * zsum (map (fun dj => (n - dj - 2) * (n - dj + 1)) (range 1 (n - 2))) =
               2 * (n * (n - 1) * (n - 2) - 6 * (n - 2))).
  { unfold range. rewrite map_map.
    rewrite zsum_seq_closed
      with (F := fun c => let x := Z.of_nat c in
                          6 * n * (n - 3) * x - 3 * (2 * n - 3) * x * (x - 1)
                          + (x - 1) * x * (2 * x - 1)).
    - cbv zeta. rewrite Z2Nat.id by lia. ring.
    - cbv zeta. change (Z.of_nat 0) with 0. ring.
    - intros c. cbv zeta. rewrite Nat2Z.inj_succ. ring. }
  assert (H2 := zsum_map_scale 2 _ _ _ Hdj). cbv beta in H2.
  rewrite <- H2 in H3. clear -H3.
  match goal with
  | |- 6 * ?x = _ =>
      match type of H3 with
      | 6 * (2 * ?y) = _ => change y with x in H3; generalize dependent x
      end
  end.
  intros x Hx. lia.
Qed.

Lemma n_comb_exact (n : Z) :
  3 <= n -> 6 * n_comb n = n * (n - 1) * (n - 2).
Proof.
  intros Hn. unfold n_comb.
  assert (H := enhanced_pattern_shifting_count6 Hn).
  replace (n * (n - 1) * (n - 2))
    with ((Z.of_nat (length (enhanced_pattern_shifting n)) + (n - 2)) * 6) by lia.
  rewrite Z.div_mul by lia. ring.
Qed.

(** The enumerator yields [n - 2] triples fewer than there are
    3-combinations. *)
Lemma enhanced_pattern_shifting_length (n : Z) :
  3 <= n ->
  Z.of_nat (length (enhanced_pattern_shifting n)) = n_comb n - (n - 2).
Proof.
  intros Hn.
  assert (H1 := enhanced_pattern_shifting_count6 Hn).
  assert (H2 := n_comb_exact Hn).
  lia.
Qed.

(** C1 (code divergence).  For every [n >= 3] the enumerator yields sorted
    index triples [0 <= i < j < k < n] and never yields a triple twice, but it
    yields only [C(n,3) - (n - 2)] of them: the bounds [range(1, n-2)] and
    [range(1, n-dj-1)] stop one short, so every 3-combination [(0, j, n-1)]
    spanning the whole index range is left out. *)
Theorem enhanced_pattern_shifting_incomplete (n : Z) :
  3 <= n ->
  NoDup (enhanced_pattern_shifting n) /\
  (forall t, In t (enhanced_pattern_shifting n) -> sorted_triple n t) /\
  Z.of_nat (length (enhanced_pattern_shifting n)) = n_comb n - (n - 2) /\
  (forall j, 0 < j < n - 1 ->
     sorted_triple n (0, j, n - 1) /\
     ~ In (0, j, n - 1) (enhanced_pattern_shifting n)).
Proof.
  intros Hn. split; [apply enhanced_pattern_shifting_NoDup|].
  split; [intros t; apply enhanced_pattern_shifting_sorted|].
  split; [apply enhanced_pattern_shifting_length; exact Hn|].
  intros j Hj. split.
  - unfold sorted_triple. lia.
  - rewrite in_enhanced_pattern_shifting. lia.
Qed.

Lemma enhanced_pattern_shifting_incomplete_at_4 :
  3 <= 4 /\
  Z.of_nat (length (enhanced_pattern_shifting 4)) = n_comb 4 - (4 - 2) /\
  ~ In (0, 1, 3) (enhanced_pattern_shifting 4).
Proof.
  split; [lia|].
  destruct (@enhanced_pattern_shifting_incomplete 4 ltac:(lia))
    as (_ & _ & Hlen & Hmiss).
  split; [exact Hlen|].
  exact (proj2 (Hmiss 1 ltac:(lia))).
Defined.

(** C9.  For every [n < 3] the enumerator yields no triple, and it does so
    without raising: the model is a total function and its value is the
    empty list. *)
Theorem enhanced_pattern_shifting_small (n : Z) :
  n < 3 -> enhanced_pattern_shifting n = [].
Proof.
  intros Hn. unfold enhanced_pattern_shifting.
  rewrite (@range_empty 1 (n - 2)) by lia. reflexivity.
Qed.

Lemma enhanced_pattern_shifting_small_at_2 :
  2 < 3 /\ enhanced_pattern_shifting 2 = [].
Proof.
  split; [lia|]. apply enhanced_pattern_shifting_small. lia.
Defined.

(** X1.  The triples the enumerator yields are exactly the sorted
    3-combinations [i < j < k] of [{0..n-1}] whose span [k - i] is at most
    [n - 2]. *)
Theorem enhanced_pattern_shifting_span (n : Z) (t : triad) :
  In t (enhanced_pattern_shifting n) <->
  sorted_triple n t /\ snd t - fst (fst t) <= n - 2.
Proof.
  destruct t as [[i j] k]. rewrite in_enhanced_pattern_shifting.
  unfold sorted_triple. cbn [fst snd].
  split; intros H; repeat split; lia.
Qed.

(** *** Orientation under an exchange of two points *)

Section OrientationFacts.

Local Open Scope R_scope.

Lemma signed_area_exchange (x0 y0 x1 y1 x2 y2 : R) :
  signed_area x1 y1 x0 y0 x2 y2 = - signed_area x0 y0 x1 y1 x2 y2.
Proof. unfold signed_area, LinAlg.det. cbn. ring. Qed.

Lemma cw_or_ccw_exchange (x0 x1 x2 y0 y1 y2 : list R) :
  cw_or_ccw (x1, x0, x2) (y1, y0, y2) =
  map Ropp (cw_or_ccw (x0, x1, x2) (y0, y1, y2)).
Proof.
  unfold cw_or_ccw. revert x1 x2 y0 y1 y2.
  induction x0 as [|a0 x0 IH]; intros x1 x2 y0 y1 y2;
    destruct x1 as [|a1 x1], y1 as [|b1 y1], y0 as [|b0 y0],
             x2 as [|a2 x2], y2 as [|b2 y2];
    try reflexivity.
  cbn [Np.lift6 map]. rewrite IH, signed_area_exchange. reflexivity.
Qed.

(** X4.  Exchanging the first two points of every triad negates the signed
    area: the colinear triads stay colinear, and among the others the
    clockwise and the counter-clockwise ones change places. *)
Theorem orientation_exchange (x0 x1 x2 y0 y1 y2 : list R) :
  cw_or_ccw (x1, x0, x2) (y1, y0, y2) =
    map Ropp (cw_or_ccw (x0, x1, x2) (y0, y1, y2)) /\
  is_colinear (x1, x0, x2) (y1, y0, y2) =
    is_colinear (x0, x1, x2) (y0, y1, y2) /\
  is_clockwise (x1, x0, x2) (y1, y0, y2) =
    map (fun d => if Rlt_dec 0 d then true else false)
        (cw_or_ccw (x0, x1, x2) (y0, y1, y2)).
Proof.
  split; [apply cw_or_ccw_exchange|].
  unfold is_colinear, is_clockwise. rewrite cw_or_ccw_exchange, !map_map.
  split; apply map_ext; intros d.
  - destruct (Req_dec_T (- d) 0), (Req_dec_T d 0); try reflexivity;
      exfalso; lra.
  - destruct (Rlt_dec (- d) 0), (Rlt_dec 0 d); try reflexivity;
      exfalso; lra.
Qed.

End OrientationFacts.

(** *** Cyclic permutations *)

Section CyclicPermutationsFacts.

Variable A : Type.
Variable eq_dec : forall x y : A, {x = y} + {x <> y}.

Lemma length_rotation (k : nat) (l : list A) : length (rotation k l) = length l.
Proof.
  unfold rotation. rewrite length_app, length_skipn, length_firstn. lia.
Qed.

Lemma rotation_0 (l : list A) : rotation 0 l = l.
Proof. unfold rotation. cbn. apply app_nil_r. Qed.

Lemma rotation_all (k : nat) (l : list A) :
  (length l <= k)%nat -> rotation k l = l.
Proof.
  intros H. unfold rotation. rewrite skipn_all2 by exact H.
  rewrite firstn_all2 by exact H. reflexivity.
Qed.

(** Rotating by [b], then by [a], is rotating by [a + b]. *)
Lemma rotation_rotation (a b : nat) (l : list A) :
  (a + b <= length l)%nat -> rotation a (rotation b l) = rotation (a + b) l.
Proof.
  intros H. unfold rotation.
  assert (Hs : length (skipn b l) = (length l - b)%nat) by apply length_skipn.
  rewrite skipn_app, firstn_app, Hs.
  replace (a - (length l - b))%nat with 0%nat by lia.
  cbn [skipn firstn]. rewrite app_nil_r, skipn_skipn.
  rewrite <- app_assoc. f_equal.
  rewrite <- (firstn_skipn b (firstn (a + b) l)).
  rewrite firstn_firstn. replace (Nat.min b (a + b)) with b by lia.
  f_equal. rewrite skipn_firstn_comm. f_equal. lia.
Qed.

(** A rotation can be undone. *)
Lemma rotation_injective (k : nat) (l l' : list A) :
  length l = length l' -> (k <= length l)%nat ->
  rotation k l = rotation k l' -> l = l'.
Proof.
  intros Hlen Hk H.
  assert (E : rotation (length l - k) (rotation k l) =
              rotation (length l - k) (rotation k l')) by (rewrite H; reflexivity).
  rewrite !rotation_rotation in E by lia.
  rewrite !rotation_all in E by lia. exact E.
Qed.

(** The loop over [k = a, a+1, ...] yields the rotations by [a], [a+1], ...
    up to the first one that gives [it] back. *)
Lemma cyclic_permutations_loop_spec (it : list A) (c a : nat) :
  exists m,
    (m <= c)%nat /\
    cyclic_permutations_loop eq_dec it (map Z.of_nat (seq a c)) =
      map (fun k => rotation k it) (seq a m) /\
    (forall k, (a <= k < a + m)%nat -> rotation k it <> it) /\
    (m = c \/ rotation (a + m) it = it).
Proof.
  revert a. induction c as [|c IH]; intros a.
  - exists 0%nat. repeat split; auto. intros k Hk. lia.
  - cbn [seq map cyclic_permutations_loop]. rewrite Nat2Z.id.
    fold (rotation a it).
    destruct (list_eq_dec eq_dec (rotation a it) it) as [E|E].
    + exists 0%nat. split; [lia|]. split; [reflexivity|]. split.
      * intros k Hk. lia.
      * right. rewrite Nat.add_0_r. exact E.
    + destruct (IH (S a)) as (m & Hm & Hl & Hne & Hend).
      exists (S m). split; [lia|]. split; [|split].
      * cbn [seq map]. rewrite Hl. reflexivity.
      * intros k Hk. destruct (Nat.eq_dec k a) as [->|Hka]; [exact E|].
        apply Hne. lia.
      * destruct Hend as [->|Hend]; [left; reflexivity|].
        right. replace (a + S m)%nat with (S a + m)%nat by lia. exact Hend.
Qed.

Lemma seq_add_map (a c : nat) :
  seq a c = map (fun q => (a + q)%nat) (seq 0 c).
Proof.
  revert a. induction c as [|c IH]; intros a; [reflexivity|].
  cbn [seq map]. rewrite Nat.add_0_r. f_equal.
  rewrite (IH (S a)), (IH 1%nat), map_map. apply map_ext. intros q. lia.
Qed.

Lemma range_of_nat (a c : nat) :
  range (Z.of_nat a) (Z.of_nat (a + c)) = map Z.of_nat (seq a c).
Proof.
  unfold range. replace (Z.of_nat (a + c) - Z.of_nat a) with (Z.of_nat c) by lia.
  rewrite Nat2Z.id, (seq_add_map a c), map_map. apply map_ext. intros q. lia.
Qed.

(** What the generator yields: the rotations by [0 .. m - 1], where [m] is
    the first positive shift that gives [it] back. *)
Lemma cyclic_permutations_spec (it : list A) :
  exists m,
    (1 <= m)%nat /\
    cyclic_permutations eq_dec it = map (fun k => rotation k it) (seq 0 m) /\
    (forall k, (0 < k < m)%nat -> rotation k it <> it) /\
    rotation m it = it /\
    (m <= Nat.max 1 (length it))%nat.
Proof.
  unfold cyclic_permutations.
  destruct (cyclic_permutations_loop_spec it (length it - 1) 1)
    as (m & Hm & Hl & Hne & Hend).
  exists (S m). split; [lia|].
  assert (Hr : range 1 (Z.of_nat (length it)) =
               map Z.of_nat (seq 1 (length it - 1))).
  { destruct (length it) as [|n] eqn:En.
    - reflexivity.
    - replace (S n - 1)%nat with n by lia.
      rewrite <- range_of_nat. f_equal. }
  rewrite Hr, Hl. split; [|split].
  - cbn [seq map]. rewrite rotation_0. reflexivity.
  - intros k Hk. apply Hne. lia.
  - split; [|lia].
    destruct Hend as [->|Hend]; [|exact Hend].
    apply rotation_all. lia.
Qed.

(** Two shifts that give the same rotation differ by a period of [it]. *)
Lemma rotation_eq_period (i j : nat) (it : list A) :
  (i < j <= length it)%nat -> rotation i it = rotation j it ->
  rotation (j - i) it = it.
Proof.
  intros Hij H. apply (@rotation_injective i).
  - apply length_rotation.
  - rewrite length_rotation. lia.
  - rewrite rotation_rotation by lia.
    replace (i + (j - i))%nat with j by lia. symmetry. exact H.
Qed.

(** X6.  [cyclic_permutations] starts with its argument and never yields
    the same sequence twice: the loop stops at the first rotation that gives
    the argument back, and before that point no two rotations coincide. *)
Theorem cyclic_permutations_distinct (it : list A) :
  hd_error (cyclic_permutations eq_dec it) = Some it /\
  NoDup (cyclic_permutations eq_dec it) /\
  (forall p, In p (cyclic_permutations eq_dec it) -> length p = length it) /\
  (1 <= length (cyclic_permutations eq_dec it) <= Nat.max 1 (length it))%nat.
Proof.
  split; [reflexivity|].
  destruct (cyclic_permutations_spec it) as (m & Hm & Hl & Hne & Hend & Hle).
  rewrite Hl. split; [|split].
  - apply NoDup_map_injective; [|apply seq_NoDup].
    intros i j Hi Hj E. apply in_seq in Hi, Hj.
    destruct (Nat.lt_trichotomy i j) as [Hlt|[Heq|Hgt]]; [|exact Heq|].
    + exfalso. apply (Hne (j - i)%nat); [lia|].
      apply rotation_eq_period; [lia|exact E].
    + exfalso. apply (Hne (i - j)%nat); [lia|].
      apply rotation_eq_period; [lia|symmetry; exact E].
  - intros p Hp. apply in_map_iff in Hp. destruct Hp as (k & <- & _).
    apply length_rotation.
  - rewrite length_map, length_seq. lia.
Qed.

(** X7.  The sequences [cyclic_permutations] yields are exactly the
    rotations [it[k:] + it[:k]] of its argument: stopping at the first
    rotation that gives the argument back loses none of them. *)
Theorem cyclic_permutations_complete (it p : list A) :
  In p (cyclic_permutations eq_dec it) <-> exists k, p = rotation k it.
Proof.
  destruct (cyclic_permutations_spec it) as (m & Hm & Hl & Hne & Hend & Hle).
  rewrite Hl. split.
  - intros Hp. apply in_map_iff in Hp. destruct Hp as (k & <- & _).
    exists k. reflexivity.
  - intros [k ->]. induction k as [k IH] using lt_wf_ind.
    destruct (Nat.le_gt_cases (length it) k) as [Hbig|Hsmall].
    + rewrite rotation_all by exact Hbig.
      apply in_map_iff. exists 0%nat. split; [apply rotation_0|].
      apply in_seq. lia.
    + destruct (Nat.lt_ge_cases k m) as [Hk|Hk].
      * apply in_map_iff. exists k. split; [reflexivity|]. apply in_seq. lia.
      * replace (rotation k it) with (rotation (k - m) it); [apply IH; lia|].
        rewrite <- Hend at 1. rewrite rotation_rotation by lia.
        f_equal. lia.
Qed.

End CyclicPermutationsFacts.
(** *** Gathering by triads *)

Lemma index_in_bounds (arr : list R) (i : Z) :
  in_bounds (length arr) i -> Np.index arr i = Ok (item arr i).
Proof.
  unfold in_bounds, Np.index, item. intros H.
  destruct (Z.ltb_spec i 0) as [Hneg|Hpos].
  - replace (0 <=? i) with false by (symmetry; apply Z.leb_gt; lia).
    cbn [andb].
    replace (- Z.of_nat (length arr) <=? i) with true
      by (symmetry; apply Z.leb_le; lia).
    reflexivity.
  - replace (0 <=? i) with true by (symmetry; apply Z.leb_le; lia).
    replace (i <? Z.of_nat (length arr)) with true
      by (symmetry; apply Z.ltb_lt; lia).
    reflexivity.
Qed.

Lemma index_out_of_bounds (arr : list R) (i : Z) :
  ~ in_bounds (length arr) i -> Np.index arr i = Raise IndexError.
Proof.
  unfold in_bounds, Np.index. intros H.
  destruct (Z.leb_spec 0 i) as [H0|H0]; cbn [andb].
  - destruct (Z.ltb_spec i (Z.of_nat (length arr))) as [H1|H1]; [lia|].
    replace (i <? 0) with false by (symmetry; apply Z.ltb_ge; lia).
    rewrite andb_false_r. reflexivity.
  - destruct (Z.leb_spec (- Z.of_nat (length arr)) i) as [H1|H1]; [lia|].
    reflexivity.
Qed.

Lemma in_bounds_dec (n : nat) (i : Z) : {in_bounds n i} + {~ in_bounds n i}.
Proof.
  unfold in_bounds.
  destruct (Z_le_dec (- Z.of_nat n) i), (Z_lt_dec i (Z.of_nat n));
    (left; lia) || (right; lia).
Qed.

(** One row of [arr[triads]]. *)
Lemma gather_triad (arr : list R) (t : triad) :
  (triad_in_bounds (length arr) t ->
   (let '(i, j, k) := t in
    a <- Np.index arr i ;; b <- Np.index arr j ;; c <- Np.index arr k ;;
    Ok (a, b, c)) =
   Ok (item arr (fst (fst t)), item arr (snd (fst t)), item arr (snd t))) /\
  (~ triad_in_bounds (length arr) t ->
   (let '(i, j, k) := t in
    a <- Np.index arr i ;; b <- Np.index arr j ;; c <- Np.index arr k ;;
    Ok (a, b, c)) = Raise IndexError).
Proof.
  destruct t as [[i j] k]. unfold triad_in_bounds. cbn [fst snd]. split.
  - intros (Hi & Hj & Hk).
    rewrite !index_in_bounds by assumption. reflexivity.
  - intros H.
    destruct (in_bounds_dec (length arr) i) as [Hi|Hi];
      [|rewrite (index_out_of_bounds _ Hi); reflexivity].
    rewrite (index_in_bounds _ Hi). cbn [bind].
    destruct (in_bounds_dec (length arr) j) as [Hj|Hj];
      [|rewrite (index_out_of_bounds _ Hj); reflexivity].
    rewrite (index_in_bounds _ Hj). cbn [bind].
    destruct (in_bounds_dec (length arr) k) as [Hk|Hk];
      [|rewrite (index_out_of_bounds _ Hk); reflexivity].
    exfalso. apply H. auto.
Qed.

Lemma index_triads_in_bounds (arr : list R) (triads : list triad) :
  Forall (triad_in_bounds (length arr)) triads ->
  Np.index_triads arr triads =
  Ok (map (fun t : triad =>
             (item arr (fst (fst t)), item arr (snd (fst t)), item arr (snd t)))
          triads).
Proof.
  unfold Np.index_triads. induction 1 as [|t triads Ht _ IH].
  - reflexivity.
  - cbn [mapM map]. rewrite (proj1 (gather_triad arr t) Ht). cbn [bind].
    rewrite IH. reflexivity.
Qed.

Lemma index_triads_out_of_bounds (arr : list R) (triads : list triad) :
  Exists (fun t => ~ triad_in_bounds (length arr) t) triads ->
  Np.index_triads arr triads = Raise IndexError.
Proof.
  unfold Np.index_triads. induction triads as [|t triads IH]; intros H.
  - inversion H.
  - cbn [mapM].
    destruct (gather_triad arr t) as [Hok Hbad].
    assert (Hdec : triad_in_bounds (length arr) t \/
                   ~ triad_in_bounds (length arr) t).
    { destruct t as [[i j] k]. unfold triad_in_bounds.
      destruct (in_bounds_dec (length arr) i), (in_bounds_dec (length arr) j),
               (in_bounds_dec (length arr) k); tauto. }
    destruct Hdec as [Ht|Ht].
    + rewrite (Hok Ht). cbn [bind]. rewrite IH; [reflexivity|].
      inversion H; subst; [contradiction|assumption].
    + rewrite (Hbad Ht). reflexivity.
Qed.

(** X8.  [triad_splice(arr, triads)] on a 1-D array returns exactly when
    every index of every triad lies in [-len(arr), len(arr)); it then
    returns three rows with one entry per triad, row [m] holding the entry
    of [arr] at the [m]-th member of each triad (a negative index counts
    from the end).  A single index outside that range makes the whole call
    raise [IndexError]. *)
Theorem triad_splice_bounds (arr : list R) (triads : list triad) :
  (Forall (triad_in_bounds (length arr)) triads ->
   triad_splice arr triads =
   Ok (map (fun t : triad => item arr (fst (fst t))) triads,
       map (fun t : triad => item arr (snd (fst t))) triads,
       map (fun t : triad => item arr (snd t)) triads)) /\
  (Exists (fun t => ~ triad_in_bounds (length arr) t) triads ->
   triad_splice arr triads = Raise IndexError) /\
  (forall x0 x1 x2,
     triad_splice arr triads = Ok (x0, x1, x2) ->
     Forall (triad_in_bounds (length arr)) triads /\
     length x0 = length triads /\ length x1 = length triads /\
     length x2 = length triads).
Proof.
  assert (Hok : Forall (triad_in_bounds (length arr)) triads ->
                triad_splice arr triads =
                Ok (map (fun t : triad => item arr (fst (fst t))) triads,
                    map (fun t : triad => item arr (snd (fst t))) triads,
                    map (fun t : triad => item arr (snd t)) triads)).
  { intros H. unfold triad_splice. rewrite index_triads_in_bounds by exact H.
    cbn [bind]. unfold Np.unzip3. rewrite !map_map. reflexivity. }
  assert (Hbad : Exists (fun t => ~ triad_in_bounds (length arr) t) triads ->
                 triad_splice arr triads = Raise IndexError).
  { intros H. unfold triad_splice. rewrite index_triads_out_of_bounds by exact H.
    reflexivity. }
  split; [exact Hok|]. split; [exact Hbad|].
  intros x0 x1 x2 H.
  assert (Hall : Forall (triad_in_bounds (length arr)) triads).
  { apply Forall_forall. intros t Ht.
    assert (Hdec : triad_in_bounds (length arr) t \/
                   ~ triad_in_bounds (length arr) t).
    { destruct t as [[i j] k]. unfold triad_in_bounds.
      destruct (in_bounds_dec (length arr) i), (in_bounds_dec (length arr) j),
               (in_bounds_dec (length arr) k); tauto. }
    destruct Hdec as [Hin|Hout]; [exact Hin|].
    rewrite Hbad in H; [discriminate|].
    apply Exists_exists. exists t. auto. }
  split; [exact Hall|].
  rewrite (Hok Hall) in H. injection H as <- <- <-.
  rewrite !length_map. auto.
Qed.
(** *** Cliques of a given size *)

Section CliquesFacts.

Variable graph : Type.
Variable node : Type.
Variable enumerate_all_cliques : graph -> list (list node).

Lemma get_cliques_loop_acc (cs : list (list node)) (L : Z)
      (acc : list (list node)) :
  get_cliques_loop cs L acc = acc ++ get_cliques_loop cs L [].
Proof.
  revert acc. induction cs as [|c cs IH]; intros acc; cbn [get_cliques_loop].
  - symmetry. apply app_nil_r.
  - destruct (Z.of_nat (length c) <=? L); [|symmetry; apply app_nil_r].
    destruct (Z.of_nat (length c) =? L); [|apply IH].
    rewrite IH, (IH ([] ++ [c])), app_assoc. reflexivity.
Qed.

Lemma size_ordered_cons (c : list node) (cs : list (list node)) :
  size_ordered (c :: cs) ->
  size_ordered cs /\ forall c', In c' cs -> (length c <= length c')%nat.
Proof.
  intros H. split.
  - intros i j Hij. apply (H (S i) (S j)). cbn [length]. lia.
  - intros c' Hc'. destruct (In_nth cs c' [] Hc') as (j & Hj & <-).
    apply (H 0%nat (S j)). cbn [length]. lia.
Qed.

(** X9.  When the enumeration yields the cliques in order of size, as
    networkx documents, [get_cliques_by_length] returns exactly the
    enumerated cliques of the requested size, in the order of the
    enumeration: returning at the first larger clique loses none. *)
Theorem get_cliques_by_length_exact (G : graph) (length_clique : Z) :
  size_ordered (enumerate_all_cliques G) ->
  get_cliques_by_length enumerate_all_cliques G length_clique =
  filter (fun c => Z.of_nat (length c) =? length_clique)
         (enumerate_all_cliques G).
Proof.
  unfold get_cliques_by_length.
  induction (enumerate_all_cliques G) as [|c cs IH]; intros Hord.
  - reflexivity.
  - apply size_ordered_cons in Hord. destruct Hord as [Hcs Hc].
    cbn [get_cliques_loop filter].
    destruct (Z.leb_spec (Z.of_nat (length c)) length_clique) as [Hle|Hgt].
    + destruct (Z.of_nat (length c) =? length_clique).
      * rewrite get_cliques_loop_acc, IH by exact Hcs. reflexivity.
      * apply IH. exact Hcs.
    + replace (Z.of_nat (length c) =? length_clique) with false
        by (symmetry; apply Z.eqb_neq; lia).
      symmetry.
      clear IH Hcs. induction cs as [|c' cs IHcs]; [reflexivity|].
      cbn [filter].
      assert (Hc' := Hc c' (or_introl eq_refl)).
      replace (Z.of_nat (length c') =? length_clique) with false
        by (symmetry; apply Z.eqb_neq; lia).
      apply IHcs. intros c'' Hin. apply Hc. right. exact Hin.
Qed.

End CliquesFacts.

(** Three cliques of two nodes joined by an edge, in order of size. *)
Lemma get_cliques_by_length_exact_example :
  get_cliques_by_length (fun _ : unit => [[1]; [2]; [1; 2]]%nat) tt 2 =
  [[1; 2]]%nat.
Proof.
  apply (@get_cliques_by_length_exact unit nat
           (fun _ : unit => [[1]; [2]; [1; 2]]%nat) tt 2).
  intros i j Hij. cbn [length] in Hij.
  destruct i as [|[|[|i]]], j as [|[|[|j]]]; cbn; lia.
Defined.

(** *** The point of a latitude and a longitude *)

Section CoordinatesFacts.

Local Open Scope R_scope.

Lemma cos2_sin2 (a : R) : cos a * cos a + sin a * sin a = 1.
Proof. assert (H := sin2_cos2 a). unfold Rsqr in H. lra. Qed.

(** X10.  The point [latlong2cartesian] returns lies in the meridian plane
    of [long], at the squared distance
    [rad^2 + alt^2 + 2 rad alt cos(ls - lat)] from the origin, [ls] being
    the reduced latitude of line 86.  At zero altitude it lies on the sphere
    of radius [rad] for every latitude: the flattening moves the point along
    the meridian and leaves its distance from the centre.  On the equator
    the point is [(rad + alt) (cos long, sin long, 0)]. *)
Theorem latlong2cartesian_radius (lat long alt rad : R) :
  let x := fst (fst (latlong2cartesian lat long alt rad)) in
  let y := snd (fst (latlong2cartesian lat long alt rad)) in
  let z := snd (latlong2cartesian lat long alt rad) in
  x * x + y * y + z * z =
    rad * rad + alt * alt
    + 2 * rad * alt * cos (reduced_latitude lat - lat) /\
  x * sin long = y * cos long /\
  (let x0 := fst (fst (latlong2cartesian lat long 0 rad)) in
   let y0 := snd (fst (latlong2cartesian lat long 0 rad)) in
   let z0 := snd (latlong2cartesian lat long 0 rad) in
   x0 * x0 + y0 * y0 + z0 * z0 = rad * rad) /\
  latlong2cartesian 0 long alt rad =
    ((rad + alt) * cos long, (rad + alt) * sin long, 0).
Proof.
  unfold latlong2cartesian. cbn [fst snd]. fold (reduced_latitude lat).
  set (ls := reduced_latitude lat).
  assert (Hl := cos2_sin2 long). assert (Hs := cos2_sin2 ls).
  assert (Ha := cos2_sin2 lat).
  split; [|split; [|split]].
  - rewrite cos_minus.
    transitivity
      ((rad * cos ls + alt * cos lat) * (rad * cos ls + alt * cos lat)
       * (cos long * cos long + sin long * sin long)
       + (rad * sin ls + alt * sin lat) * (rad * sin ls + alt * sin lat));
      [ring|].
    rewrite Hl.
    transitivity
      (rad * rad * (cos ls * cos ls + sin ls * sin ls)
       + alt * alt * (cos lat * cos lat + sin lat * sin lat)
       + 2 * rad * alt * (cos ls * cos lat + sin ls * sin lat)); [ring|].
    rewrite Hs, Ha. ring.
  - ring.
  - transitivity
      (rad * rad * ((cos ls * cos ls) * (cos long * cos long + sin long * sin long)
                    + sin ls * sin ls)); [ring|].
    rewrite Hl, Rmult_1_r, Hs. ring.
  - rewrite tan_0, Rmult_0_r, atan_0, cos_0, sin_0. f_equal; [f_equal|]; ring.
Qed.

End CoordinatesFacts.

(** *** Orientation under a rotation of the triad *)

Section OrientationInvariance.

Local Open Scope R_scope.

Lemma signed_area_rotate (x0 y0 x1 y1 x2 y2 : R) :
  signed_area x1 y1 x2 y2 x0 y0 = signed_area x0 y0 x1 y1 x2 y2.
Proof. unfold signed_area, LinAlg.det. cbn. ring. Qed.

Lemma cw_or_ccw_rotate (x0 x1 x2 y0 y1 y2 : list R) :
  cw_or_ccw (x1, x2, x0) (y1, y2, y0) = cw_or_ccw (x0, x1, x2) (y0, y1, y2).
Proof.
  unfold cw_or_ccw. revert x1 x2 y0 y1 y2.
  induction x0 as [|a0 x0 IH]; intros x1 x2 y0 y1 y2;
    destruct x1 as [|a1 x1], y1 as [|b1 y1], y0 as [|b0 y0],
             x2 as [|a2 x2], y2 as [|b2 y2];
    try reflexivity.
  cbn [Np.lift6]. rewrite IH, signed_area_rotate. reflexivity.
Qed.

(** X11.  The orientation tests do not depend on which member of a triad
    comes first: reading every triad from its second member, which moves the
    rows of each determinant round by one place, leaves [cw_or_ccw], and with
    it [is_clockwise], [is_colinear] and [all_clockwise], unchanged. *)
Theorem orientation_rotation (x0 x1 x2 y0 y1 y2 : list R) :
  cw_or_ccw (x1, x2, x0) (y1, y2, y0) = cw_or_ccw (x0, x1, x2) (y0, y1, y2) /\
  is_clockwise (x1, x2, x0) (y1, y2, y0) =
    is_clockwise (x0, x1, x2) (y0, y1, y2) /\
  is_colinear (x1, x2, x0) (y1, y2, y0) =
    is_colinear (x0, x1, x2) (y0, y1, y2) /\
  all_clockwise (x1, x2, x0) (y1, y2, y0) =
    all_clockwise (x0, x1, x2) (y0, y1, y2).
Proof.
  unfold all_clockwise, is_clockwise, is_colinear.
  rewrite cw_or_ccw_rotate. repeat split.
Qed.

End OrientationInvariance.
End Utils.

(* ================================================================== *)
(** ** [projective_invariants.py] *)

Module ProjectiveInvariants.

Import Np LinAlg.
Open Scope R_scope.

(** *** [PermutationInvariant] *)

Module PermutationInvariant.

Definition F1 (x y z : R) : R := x + y + z.

Definition F2 (x y z : R) : R :=
  (2 * (x ^ 3 + y ^ 3 + z ^ 3) + 12 * x * y * z
   - 3 * ((x ^ 2) * y + (y ^ 2) * x + (y ^ 2) * z + (z ^ 2) * y
          + (z ^ 2) * x + (x ^ 2) * z))
  / (x ^ 2 + y ^ 2 + z ^ 2 - (x * y + y * z + z * x)).

Definition F3 (x y z : R) : R :=
  (-3 * sqrt 3 * (x - y) * (y - z) * (z - x))
  / (x ^ 2 + y ^ 2 + z ^ 2 - (x * y + y * z + z * x)).

(** [F]: the array with the three rows [F1], [F2], [F3]. *)
Definition F (x y z : list R) : list (list R) :=
  [lift3 F1 x y z; lift3 F2 x y z; lift3 F3 x y z].

Definition G1 (x1 y1 z1 x2 y2 z2 : R) : R :=
  (3 / 2) * (x1 * x2 + y1 * y2 + z1 * z2)
  - (1 / 2) * (x1 + y1 + z1) * (x2 + y2 + z2).

Definition G2 (x1 y1 z1 x2 y2 z2 : R) : R :=
  (sqrt 3 / 2) * ((x1 * z2 + y1 * x2 + z1 * y2) - (x1 * y2 + y1 * z2 + z1 * x2)).

Definition G (x1 y1 z1 x2 y2 z2 : list R) : list (list R) :=
  [lift6 G1 x1 y1 z1 x2 y2 z2; lift6 G2 x1 y1 z1 x2 y2 z2].

(** The common denominator of [G_tilde]. *)
Definition G_norm (x1 y1 z1 x2 y2 z2 : R) : R :=
  sqrt (sqrt ((((x1 - y1) ^ 2 + (y1 - z1) ^ 2 + (z1 - x1) ^ 2)
               * ((x2 - y2) ^ 2 + (y2 - z2) ^ 2 + (z2 - x2) ^ 2)))).

(** [G_tilde]: each row of [G] divided, entry by entry, by the 1-D
    denominator (NumPy broadcasts it over the rows). *)
Definition G_tilde (x1 y1 z1 x2 y2 z2 : list R) : list (list R) :=
  map (fun row => map2 Rdiv row (lift6 G_norm x1 y1 z1 x2 y2 z2))
      (G x1 y1 z1 x2 y2 z2).

End PermutationInvariant.

(** *** [CoplanarInvariants] *)

Record CoplanarInvariants : Type := mkCoplanarInvariants {
  crater_triads : list Utils.triad;
  I_ij : list R; I_ji : list R;
  I_ik : list R; I_ki : list R;
  I_jk : list R; I_kj : list R;
  I_ijk : list R }.

(** [np.logical_and.reduce((a, b, c))] on three boolean batches. *)
Definition logical_and_reduce3 (a b c : list bool) : list bool :=
  map2 andb (map2 andb a b) c.

(** [np.trace(LA.inv(A) @ B, axis1=-2, axis2=-1)] on batches. *)
Definition trace_inv_matmul (A B : list M33) : result (list R) :=
  A' <- mapM inv A ;; Ok (map trace (map2 matmul A' B)).

Section Init.

(** [scale_det] of [craterdetection/common/conics.py] is not among the
    sources: it is a parameter, applied matrix by matrix, that may fail. *)
Variable scale_det : M33 -> result M33.

(** The mask [overlapped_craters] of lines 110-114. *)
Definition overlapped_craters (A_i A_j A_k : list M33) : list bool :=
  map negb
      (logical_and_reduce3
         (map cond_isfinite (map2 msub A_i A_j))
         (map cond_isfinite (map2 msub A_i A_k))
         (map cond_isfinite (map2 msub A_j A_k))).

(** Lines 118-127: the part of [__init__] that follows the filter. *)
Definition after_filter (crater_triads : list Utils.triad)
           (A_i A_j A_k : list M33) (normalize_det : bool)
  : result CoplanarInvariants :=
  A <- (if normalize_det
        then a <- mapM scale_det A_i ;;
             b <- mapM scale_det A_j ;;
             c <- mapM scale_det A_k ;; Ok (a, b, c)
        else Ok (A_i, A_j, A_k)) ;;
  let A_i := fst (fst A) in
  let A_j := snd (fst A) in
  let A_k := snd A in
  I_ij <- trace_inv_matmul A_i A_j ;;
  I_ji <- trace_inv_matmul A_j A_i ;;
  I_ik <- trace_inv_matmul A_i A_k ;;
  I_ki <- trace_inv_matmul A_k A_i ;;
  I_jk <- trace_inv_matmul A_j A_k ;;
  I_kj <- trace_inv_matmul A_k A_j ;;
  let I_ijk :=
    map trace
        (map2 matmul
              (map2 msub (map matrix_adjugate (map2 madd A_j A_k))
                         (map matrix_adjugate (map2 msub A_j A_k)))
              A_i) in
  Ok (mkCoplanarInvariants crater_triads I_ij I_ji I_ik I_ki I_jk I_kj I_ijk).

(** [CoplanarInvariants.__init__], lines 109-127: the filter of lines
    109-116, then [after_filter].  The batches are aligned (one entry per
    triad); NumPy refuses a mask or a batch of another length, which the
    model does not reproduce. *)
Definition init (crater_triads : list Utils.triad) (A_i A_j A_k : list M33)
           (normalize_det : bool) : result CoplanarInvariants :=
  let overlapped := overlapped_craters A_i A_j A_k in
  let A_i := select (map negb overlapped) A_i in
  let A_j := select (map negb overlapped) A_j in
  let A_k := select (map negb overlapped) A_k in
  let crater_triads := select (map negb overlapped) crater_triads in
  after_filter crater_triads A_i A_j A_k normalize_det.

End Init.

Section InitComputed.

(** [__init__] with the test [np.isfinite(LA.cond(.))] of lines 111-113 as
    an argument, to be taken with the singular values as they are
    computed ([LinAlg.isfinite_cond]); with [LinAlg.cond_isfinite] it is
    [init]. *)
Variable isfinite_cond : M33 -> bool.
Variable scale_det : M33 -> result M33.

(** The mask [overlapped_craters] of lines 110-114. *)
Definition overlapped_craters_by (A_i A_j A_k : list M33) : list bool :=
  map negb
      (logical_and_reduce3
         (map isfinite_cond (map2 msub A_i A_j))
         (map isfinite_cond (map2 msub A_i A_k))
         (map isfinite_cond (map2 msub A_j A_k))).

(** [CoplanarInvariants.__init__], lines 109-127. *)
Definition init_by (crater_triads : list Utils.triad)
           (A_i A_j A_k : list M33) (normalize_det : bool)
  : result CoplanarInvariants :=
  let overlapped := overlapped_craters_by A_i A_j A_k in
  let A_i := select (map negb overlapped) A_i in
  let A_j := select (map negb overlapped) A_j in
  let A_k := select (map negb overlapped) A_k in
  let crater_triads := select (map negb overlapped) crater_triads in
  after_filter scale_det crater_triads A_i A_j A_k normalize_det.

End InitComputed.

(** [CoplanarInvariants.__len__]. *)
Definition len (self : CoplanarInvariants) : nat := length (I_ij self).

(** [CoplanarInvariants.get_pattern], lines 271-288. *)
Definition get_pattern (self : CoplanarInvariants) (permutation_invariant : bool)
  : list (list R) :=
  let n := len self in
  if permutation_invariant then
    T 7 (column_stack n
           [ T n (PermutationInvariant.F (I_ij self) (I_jk self) (I_ki self));
             as_column (lift3 PermutationInvariant.F1
                              (I_ji self) (I_kj self) (I_ik self));
             T n (PermutationInvariant.G_tilde
                    (I_ij self) (I_jk self) (I_ki self)
                    (I_ji self) (I_kj self) (I_ik self));
             as_column (I_ijk self) ])
  else
    column_stack n
      [ as_column (I_ij self); as_column (I_ji self);
        as_column (I_ik self); as_column (I_ki self);
        as_column (I_jk self); as_column (I_kj self);
        as_column (I_ijk self) ].

(** *** The per-triad reading of the batched code *)

(** [tr(A^-1 B)]. *)
Definition pair_invariant (A B : M33) : R := trace (matmul (minv A) B).

(** [tr((adj(B + C) - adj(B - C)) A)]. *)
Definition triple_invariant (A B C : M33) : R :=
  trace (matmul (msub (matrix_adjugate (madd B C)) (matrix_adjugate (msub B C))) A).

(** The seven raw invariants of one triad, in the pairing order. *)
Definition raw_invariants (t : M33 * M33 * M33) : list R :=
  let '(A_i, A_j, A_k) := t in
  [ pair_invariant A_i A_j; pair_invariant A_j A_i;
    pair_invariant A_i A_k; pair_invariant A_k A_i;
    pair_invariant A_j A_k; pair_invariant A_k A_j;
    triple_invariant A_i A_j A_k ].

(** A triad survives the filter when its three differences are
    non-singular. *)
Definition survives (t : M33 * M33 * M33) : bool :=
  let '(A_i, A_j, A_k) := t in
  cond_isfinite (msub A_i A_j) && cond_isfinite (msub A_i A_k)
  && cond_isfinite (msub A_j A_k).

(** The optional determinant normalisation of one batch. *)
Definition normalize (scale_det : M33 -> result M33) (normalize_det : bool)
           (A : list M33) : result (list M33) :=
  if normalize_det then mapM scale_det A else Ok A.

(** The mask of the triads [__init__] keeps. *)
Definition keep_mask (A_i A_j A_k : list M33) : list bool :=
  map negb (overlapped_craters A_i A_j A_k).

Definition count_true (mask : list bool) : nat := length (filter (fun b => b) mask).

(** The batched expression of line 127. *)
Definition I_ijk_batch (A_i A_j A_k : list M33) : list R :=
  map trace
      (map2 matmul
            (map2 msub (map matrix_adjugate (map2 madd A_j A_k))
                       (map matrix_adjugate (map2 msub A_j A_k)))
            A_i).

Definition fst3 {A B C : Type} (t : A * B * C) : A := fst (fst t).
Definition snd3 {A B C : Type} (t : A * B * C) : B := snd (fst t).
Definition thd3 {A B C : Type} (t : A * B * C) : C := snd t.

(** The triad [(A, B, C)] read from its second member: [(B, C, A)]. *)
Definition rotate {A : Type} (t : A * A * A) : A * A * A :=
  (snd3 t, thd3 t, fst3 t).

(** The seven permutation-invariant features of one triad, in the order
    [get_pattern] stacks them. *)
Definition perm_features (t : M33 * M33 * M33) : list R :=
  let '(A_i, A_j, A_k) := t in
  let x1 := pair_invariant A_i A_j in
  let y1 := pair_invariant A_j A_k in
  let z1 := pair_invariant A_k A_i in
  let x2 := pair_invariant A_j A_i in
  let y2 := pair_invariant A_k A_j in
  let z2 := pair_invariant A_i A_k in
  [ PermutationInvariant.F1 x1 y1 z1;
    PermutationInvariant.F2 x1 y1 z1;
    PermutationInvariant.F3 x1 y1 z1;
    PermutationInvariant.F1 x2 y2 z2;
    PermutationInvariant.G1 x1 y1 z1 x2 y2 z2
      / PermutationInvariant.G_norm x1 y1 z1 x2 y2 z2;
    PermutationInvariant.G2 x1 y1 z1 x2 y2 z2
      / PermutationInvariant.G_norm x1 y1 z1 x2 y2 z2;
    triple_invariant A_i A_j A_k ].

(** The conics of the triads a batch keeps, triad by triad. *)
Definition kept (A_i A_j A_k : list M33) : list (M33 * M33 * M33) :=
  filter survives (zip3 A_i A_j A_k).

(** Normalisation of the kept conics, batch by batch as [__init__] does
    it. *)
Definition normalized (scale_det : M33 -> result M33) (nd : bool)
           (L N : list (M33 * M33 * M33)) : Prop :=
  normalize scale_det nd (map fst3 L) = Ok (map fst3 N) /\
  normalize scale_det nd (map snd3 L) = Ok (map snd3 N) /\
  normalize scale_det nd (map thd3 L) = Ok (map thd3 N).

Definition invertible3 (t : M33 * M33 * M33) : Prop :=
  nonsingular (fst3 t) /\ nonsingular (snd3 t) /\ nonsingular (thd3 t).

(** The object [__init__] builds from the kept triads and the (normalised)
    conics [N] of the kept triads. *)
Definition invariants_of (triads : list Utils.triad)
           (N : list (M33 * M33 * M33)) : CoplanarInvariants :=
  mkCoplanarInvariants
    triads
    (map (fun t => pair_invariant (fst3 t) (snd3 t)) N)
    (map (fun t => pair_invariant (snd3 t) (fst3 t)) N)
    (map (fun t => pair_invariant (fst3 t) (thd3 t)) N)
    (map (fun t => pair_invariant (thd3 t) (fst3 t)) N)
    (map (fun t => pair_invariant (snd3 t) (thd3 t)) N)
    (map (fun t => pair_invariant (thd3 t) (snd3 t)) N)
    (map (fun t => triple_invariant (fst3 t) (snd3 t) (thd3 t)) N).

(** The input triads whose conics pass the filter. *)
Definition kept_triads (triads : list Utils.triad) (A_i A_j A_k : list M33)
  : list Utils.triad :=
  map fst (filter (fun p => survives (snd p))
                  (combine triads (zip3 A_i A_j A_k))).

(** The same, for a test passed as an argument. *)
Definition survives_by (isfinite_cond : M33 -> bool) (t : M33 * M33 * M33)
  : bool :=
  let '(A_i, A_j, A_k) := t in
  isfinite_cond (msub A_i A_j) && isfinite_cond (msub A_i A_k)
  && isfinite_cond (msub A_j A_k).

Definition kept_by (isfinite_cond : M33 -> bool) (A_i A_j A_k : list M33)
  : list (M33 * M33 * M33) :=
  filter (survives_by isfinite_cond) (zip3 A_i A_j A_k).

Definition kept_triads_by (isfinite_cond : M33 -> bool)
           (triads : list Utils.triad) (A_i A_j A_k : list M33)
  : list Utils.triad :=
  map fst (filter (fun p => survives_by isfinite_cond (snd p))
                  (combine triads (zip3 A_i A_j A_k))).

(** Modelled from the spec: [scale_det] of
    [craterdetection/common/conics.py], which is not among the sources; the
    spec has it rescale a matrix so that its determinant is 1 and leaves it
    undefined on a singular matrix.  For a 3x3 matrix the factor is the real
    cube root of [1 / det].  It only stands for the parameter in closed
    examples. *)
Definition cbrt (x : R) : R :=
  if Rlt_dec x 0 then - Rpower (- x) (1 / 3)
  else if Req_dec_T x 0 then 0
  else Rpower x (1 / 3).

Definition scale_det_model (A : M33) : result M33 :=
  if Req_dec_T (det A) 0 then Raise ValueError
  else Ok (mscale (cbrt (1 / det A)) A).

(** Three origin-centred ellipses, [x^2 + y^2 = 1], [2 x^2 + 3 y^2 = 12] and
    [3 x^2 + 5 y^2 = 30], as conic matrices. *)
Definition conic_a : M33 := mkM33 1 0 0 0 1 0 0 0 (-1).
Definition conic_b : M33 := mkM33 2 0 0 0 3 0 0 0 (-12).
Definition conic_c : M33 := mkM33 3 0 0 0 5 0 0 0 (-30).

(** The ellipse [conic_b] plus the matrix of rank one with the rows
    [(1, 2, 3)], [(2, 4, 6)] and [(3, 6, 9)]: an ellipse again. *)
Definition conic_d : M33 := mkM33 3 2 3 2 7 6 3 6 (-3).

(** A stand-in for the computed singular values in closed examples: three
    times the Frobenius norm, which is zero for the zero matrix alone. *)
Definition svdvals_of_size (A : M33) : R * R * R :=
  let n := sqrt (m00 A * m00 A + m01 A * m01 A + m02 A * m02 A
                 + m10 A * m10 A + m11 A * m11 A + m12 A * m12 A
                 + m20 A * m20 A + m21 A * m21 A + m22 A * m22 A) in
  (n, n, n).

(** *** [from_detection_conics], [from_detection], [match_generator] *)

(** What a module-level name of [projective_invariants.py] is bound to. *)
Inductive pyobj : Type :=
| PyModule
| PyFunction
| PyClass
| PyArray (a : list R).

(** The global namespace of the module: the names its [import] statements
    (lines 1-6) and its two [class] statements bind.  No Python builtin is
    called [x_pix] or [y_pix]. *)
Definition module_globals : list (string * pyobj) :=
  [ ("np", PyModule); ("LA", PyModule);
    ("matrix_adjugate", PyFunction); ("scale_det", PyFunction);
    ("crater_representation", PyFunction);
    ("np_swap_columns", PyFunction); ("is_colinear", PyFunction);
    ("is_clockwise", PyFunction); ("all_clockwise", PyFunction);
    ("enhanced_pattern_shifting", PyFunction);
    ("PermutationInvariant", PyClass); ("CoplanarInvariants", PyClass) ]%string.

(** Reading a name that the function body never assigns: it is looked up in
    the module's globals, and a miss raises [NameError]. *)
Fixpoint load_global (globals : list (string * pyobj)) (name : string)
  : result pyobj :=
  match globals with
  | [] => Raise (NameError name)
  | (k, v) :: globals' =>
      if String.eqb k name then Ok v else load_global globals' name
  end.

(** Only an array can be indexed by an array of triads. *)
Definition as_array (v : pyobj) : result (list R) :=
  match v with
  | PyArray a => Ok a
  | _ => Raise TypeError
  end.

(** [arr[it] = row]. *)
Definition set_row (arr : list Utils.triad) (it : nat) (row : Utils.triad)
  : result (list Utils.triad) :=
  if Nat.ltb it (length arr)
  then Ok (firstn it arr ++ row :: skipn (S it) arr)
  else Raise IndexError.

(** The loop of lines 140-141 over [enumerate(...)], from position [it]. *)
Fixpoint assign_rows (arr : list Utils.triad) (it : nat)
         (rows : list Utils.triad) : result (list Utils.triad) :=
  match rows with
  | [] => Ok arr
  | row :: rows' => arr' <- set_row arr it row ;; assign_rows arr' (S it) rows'
  end.

(** Lines 136-141: the triads generated when none are passed.  [np.int] is
    taken as the integer type it named when the code was written. *)
Definition generated_triads (n_det : Z) : result (list Utils.triad) :=
  let n_comb := Utils.n_comb n_det in
  let crater_triads := repeat (0%Z, 0%Z, 0%Z) (Z.to_nat n_comb) in
  assign_rows crater_triads 0 (Utils.enhanced_pattern_shifting n_det).

Definition rows3 : Type := (list R * list R * list R)%type.

(** [a.T] for a [3 x n] array. *)
Definition transpose_rows3 (a : rows3) : list (R * R * R) :=
  let '(a0, a1, a2) := a in zip3 a0 a1 a2.

(** [a[:, mask]]. *)
Definition select_columns (mask : list bool) (a : rows3) : rows3 :=
  let '(a0, a1, a2) := a in (select mask a0, select mask a1, select mask a2).

(** [a[:, mask] = v]. *)
Definition assign_columns (mask : list bool) (a v : rows3) : rows3 :=
  let '(a0, a1, a2) := a in
  let '(v0, v1, v2) := v in
  (mask_assign mask a0 v0, mask_assign mask a1 v1, mask_assign mask a2 v2).

(** Lines 146-151: the swap of the triads that are not clockwise. *)
Definition swap_pass (x_triads y_triads : rows3)
           (crater_triads : list Utils.triad)
  : list Utils.triad * rows3 * rows3 :=
  let clockwise := Utils.is_clockwise x_triads y_triads in
  let crater_triads_cw :=
    mask_assign (map negb clockwise) crater_triads
      (Utils.np_swap_columns (select (map negb clockwise) crater_triads)) in
  let x_triads' :=
    assign_columns (map negb clockwise) x_triads
      (unzip3 (Utils.np_swap_columns
                 (select (map negb clockwise) (transpose_rows3 x_triads)))) in
  let y_triads' :=
    assign_columns (map negb clockwise) y_triads
      (unzip3 (Utils.np_swap_columns
                 (select (map negb clockwise) (transpose_rows3 y_triads)))) in
  (crater_triads_cw, x_triads', y_triads').

(** Lines 146-164: the swap, then the two fallbacks.  The message printed at
    line 160 is not modelled. *)
Definition canonicalize (x_triads y_triads : rows3)
           (crater_triads : list Utils.triad)
  : list Utils.triad * rows3 * rows3 :=
  let '(crater_triads_cw, x_triads, y_triads) :=
    swap_pass x_triads y_triads crater_triads in
  if negb (Utils.all_clockwise x_triads y_triads) then
    let line := Utils.is_colinear x_triads y_triads in
    let x_triads := select_columns (map negb line) x_triads in
    let y_triads := select_columns (map negb line) y_triads in
    let crater_triads_cw := select (map negb line) crater_triads_cw in
    if negb (Utils.all_clockwise x_triads y_triads) then
      let clockwise := Utils.is_clockwise x_triads y_triads in
      (select clockwise crater_triads_cw,
       select_columns clockwise x_triads,
       select_columns clockwise y_triads)
    else (crater_triads_cw, x_triads, y_triads)
  else (crater_triads_cw, x_triads, y_triads).

(** The signed area of the triangle a triad's three points span. *)
Definition triad_area (x y : R * R * R) : R :=
  Utils.signed_area (fst3 x) (fst3 y) (snd3 x) (snd3 y) (thd3 x) (thd3 y).

(** What the swap of lines 146-151 does to one triad, given with the [x] and
    the [y] coordinates of its three points. *)
Definition swap_if_not_clockwise
           (t : Utils.triad * (R * R * R) * (R * R * R))
  : Utils.triad * (R * R * R) * (R * R * R) :=
  if Rlt_dec (triad_area (snd3 t) (thd3 t)) 0 then t
  else (Utils.swap01 (fst3 t), Utils.swap01 (snd3 t), Utils.swap01 (thd3 t)).

(** The triads the canonicalization keeps: after the swap, those that are
    not colinear. *)
Definition kept_after_swap (triads : list Utils.triad)
           (xs ys : list (R * R * R))
  : list (Utils.triad * (R * R * R) * (R * R * R)) :=
  filter (fun u => if Req_dec_T (triad_area (snd3 u) (thd3 u)) 0
                   then false else true)
         (map swap_if_not_clockwise (zip3 triads xs ys)).

(** [CoplanarInvariants.from_detection_conics], lines 129-164, run in a
    module whose global namespace is [globals].  [x_pix] and [y_pix] are
    neither parameters nor assigned in the body, so line 145 reads them as
    globals.  The body has no [return]: falling off its end returns
    [None]. *)
Definition from_detection_conics_in (globals : list (string * pyobj))
           (A_craters : list M33) (crater_triads : option (list Utils.triad))
  : result (option CoplanarInvariants) :=
  crater_triads <- match crater_triads with
                   | None => generated_triads (Z.of_nat (length A_craters))
                   | Some triads => Ok triads
                   end ;;
  x_pix <- load_global globals "x_pix" ;;
  x_pix <- as_array x_pix ;;
  x_rows <- index_triads x_pix crater_triads ;;
  y_pix <- load_global globals "y_pix" ;;
  y_pix <- as_array y_pix ;;
  y_rows <- index_triads y_pix crater_triads ;;
  let _ := canonicalize (unzip3 x_rows) (unzip3 y_rows) crater_triads in
  Ok None.

Definition from_detection_conics
  : list M33 -> option (list Utils.triad) -> result (option CoplanarInvariants) :=
  from_detection_conics_in module_globals.

(** What a generator does when it is run to its end: the values yielded
    before the first step that raises, and that exception if there is one. *)
Fixpoint run_generator {A : Type} (steps : list (result A))
  : list A * option exn :=
  match steps with
  | [] => ([], None)
  | Ok a :: steps' =>
      let '(yielded, e) := run_generator steps' in (a :: yielded, e)
  | Raise e :: _ => ([], Some e)
  end.

Section FromDetection.

(** [crater_representation] of [craterdetection/common/conics.py] is not
    among the sources: a parameter, called as
    [crater_representation(a, b, psi, x, y)]. *)
Variable crater_representation :
  list R -> list R -> list R -> list R -> list R -> result (list M33).

(** [np.radians]. *)
Definition radians (deg : R) : R := deg * PI / 180.

(** [CoplanarInvariants.from_detection], lines 197-202. *)
Definition from_detection (x_pix y_pix a_pix b_pix psi_pix : list R)
           (convert_to_radians : bool)
           (crater_triads : option (list Utils.triad))
  : result (option CoplanarInvariants) :=
  let psi_pix := if convert_to_radians then map radians psi_pix else psi_pix in
  A_craters <- crater_representation a_pix b_pix psi_pix x_pix y_pix ;;
  from_detection_conics A_craters crater_triads.

(** [CoplanarInvariants.match_generator], lines 240-250: one step per
    enumerated triad, each yielding the triad and what [from_detection]
    returns for it. *)
Definition match_generator (x_pix y_pix a_pix b_pix psi_pix : list R)
           (convert_to_radians : bool)
  : list (Utils.triad * option CoplanarInvariants) * option exn :=
  let n_det := Z.of_nat (length x_pix) in
  run_generator
    (map (fun t =>
            inv <- from_detection x_pix y_pix a_pix b_pix psi_pix
                                  convert_to_radians (Some [t]) ;;
            Ok (t, inv))
         (Utils.enhanced_pattern_shifting n_det)).

End FromDetection.

(** *** Lemmas on batches *)

Lemma map2_map_same {X A B C : Type} (f : A -> B -> C) (p : X -> A)
      (q : X -> B) (l : list X) :
  map2 f (map p l) (map q l) = map (fun t => f (p t) (q t)) l.
Proof.
  unfold map2. induction l as [|x l IH]; simpl; [reflexivity|].
  rewrite IH. reflexivity.
Qed.

Lemma lift3_map_same {X A : Type} (f : R -> R -> R -> A) (p q r : X -> R)
      (l : list X) :
  lift3 f (map p l) (map q l) (map r l) = map (fun t => f (p t) (q t) (r t)) l.
Proof.
  induction l as [|x l IH]; simpl; [reflexivity|]. rewrite IH. reflexivity.
Qed.

Lemma lift6_map_same {X A : Type} (f : R -> R -> R -> R -> R -> R -> A)
      (p1 p2 p3 p4 p5 p6 : X -> R) (l : list X) :
  lift6 f (map p1 l) (map p2 l) (map p3 l) (map p4 l) (map p5 l) (map p6 l) =
  map (fun t => f (p1 t) (p2 t) (p3 t) (p4 t) (p5 t) (p6 t)) l.
Proof.
  induction l as [|x l IH]; simpl; [reflexivity|]. rewrite IH. reflexivity.
Qed.

(** Aligned batches are the three columns of their zip. *)
Lemma unzip3_zip3 {A : Type} (l1 l2 l3 : list A) :
  length l1 = length l2 -> length l2 = length l3 ->
  unzip3 (zip3 l1 l2 l3) = (l1, l2, l3).
Proof.
  revert l2 l3. induction l1 as [|a l1 IH]; intros [|b l2] [|c l3] H12 H23;
    simpl in *; try discriminate; [reflexivity|].
  injection H12 as H12. injection H23 as H23.
  specialize (IH l2 l3 H12 H23). unfold unzip3 in *.
  injection IH as E1 E2 E3. simpl. rewrite E1, E2, E3. reflexivity.
Qed.

Lemma length_zip3 {A : Type} (l1 l2 l3 : list A) :
  length l1 = length l2 -> length l2 = length l3 ->
  length (zip3 l1 l2 l3) = length l1.
Proof.
  revert l2 l3. induction l1 as [|a l1 IH]; intros [|b l2] [|c l3] H12 H23;
    simpl in *; try discriminate; [reflexivity|].
  f_equal. apply IH; congruence.
Qed.

(** *** Boolean masks *)

Lemma length_select {A : Type} (mask : list bool) (l : list A) :
  length mask = length l -> length (select mask l) = count_true mask.
Proof.
  revert l. unfold count_true.
  induction mask as [|b mask IH]; intros [|x l] H; simpl in *;
    try discriminate; [reflexivity|].
  injection H as H. destruct b; simpl; rewrite IH by exact H; reflexivity.
Qed.

(** *** What [__init__] computes *)

Lemma keep_mask_zip3 (A_i A_j A_k : list M33) :
  keep_mask A_i A_j A_k = map survives (zip3 A_i A_j A_k).
Proof.
  unfold keep_mask, overlapped_craters, logical_and_reduce3, map2.
  revert A_j A_k. induction A_i as [|a A_i IH]; intros [|b A_j] [|c A_k];
    try reflexivity.
  simpl. rewrite negb_involutive. f_equal. apply IH.
Qed.

Lemma length_keep_mask (A_i A_j A_k : list M33) :
  length A_i = length A_j -> length A_j = length A_k ->
  length (keep_mask A_i A_j A_k) = length A_i.
Proof.
  intros H1 H2. rewrite keep_mask_zip3, length_map. apply length_zip3; assumption.
Qed.

Lemma trace_matmul_minv (A B : list M33) :
  map trace (map2 matmul (map minv A) B) = map2 pair_invariant A B.
Proof.
  unfold map2, pair_invariant. revert B.
  induction A as [|a A IH]; intros [|b B]; simpl; try reflexivity.
  rewrite IH. reflexivity.
Qed.

Lemma trace_inv_matmul_ok (A B : list M33) (r : list R) :
  trace_inv_matmul A B = Ok r <->
  Forall nonsingular A /\ r = map2 pair_invariant A B.
Proof.
  unfold trace_inv_matmul. rewrite bind_ok. split.
  - intros [A' [HA Hr]]. apply mapM_inv_ok in HA. destruct HA as [HA ->].
    inversion Hr. rewrite trace_matmul_minv. auto.
  - intros [HA ->]. exists (map minv A). split.
    + apply mapM_inv_ok. auto.
    + rewrite trace_matmul_minv. reflexivity.
Qed.

Lemma I_ijk_batch_zip3 (A_i A_j A_k : list M33) :
  I_ijk_batch A_i A_j A_k =
  map (fun t => triple_invariant (fst (fst t)) (snd (fst t)) (snd t))
      (zip3 A_i A_j A_k).
Proof.
  unfold I_ijk_batch, map2. revert A_j A_k.
  induction A_i as [|a A_i IH]; intros A_j A_k.
  - rewrite combine_nil. reflexivity.
  - destruct A_j as [|b A_j], A_k as [|c A_k]; try reflexivity.
    simpl. rewrite IH. reflexivity.
Qed.

Lemma normalize_length (scale_det : M33 -> result M33) (nd : bool)
      (A N : list M33) :
  normalize scale_det nd A = Ok N -> length N = length A.
Proof.
  destruct nd; simpl; intros H.
  - eapply mapM_length. exact H.
  - inversion H. reflexivity.
Qed.

(** [__init__] returns an object exactly when the optional normalisation of
    the kept conics succeeds and every conic it leaves is invertible; the
    object then holds the kept triads and, batch by batch, the traces. *)
Lemma init_ok (scale_det : M33 -> result M33) (triads : list Utils.triad)
      (A_i A_j A_k : list M33) (nd : bool) (o : CoplanarInvariants) :
  init scale_det triads A_i A_j A_k nd = Ok o <->
  exists N_i N_j N_k,
    normalize scale_det nd (select (keep_mask A_i A_j A_k) A_i) = Ok N_i /\
    normalize scale_det nd (select (keep_mask A_i A_j A_k) A_j) = Ok N_j /\
    normalize scale_det nd (select (keep_mask A_i A_j A_k) A_k) = Ok N_k /\
    Forall nonsingular N_i /\ Forall nonsingular N_j /\ Forall nonsingular N_k /\
    o = mkCoplanarInvariants
          (select (keep_mask A_i A_j A_k) triads)
          (map2 pair_invariant N_i N_j) (map2 pair_invariant N_j N_i)
          (map2 pair_invariant N_i N_k) (map2 pair_invariant N_k N_i)
          (map2 pair_invariant N_j N_k) (map2 pair_invariant N_k N_j)
          (I_ijk_batch N_i N_j N_k).
Proof.
  unfold init, after_filter. cbv zeta. fold (keep_mask A_i A_j A_k).
  set (keep := keep_mask A_i A_j A_k).
  rewrite bind_ok. split.
  - intros [[[N_i N_j] N_k] [HN H]]. simpl fst in H. simpl snd in H.
    repeat (apply bind_ok in H; destruct H as [? [?%trace_inv_matmul_ok H]]).
    inversion H; subst; clear H.
    exists N_i, N_j, N_k.
    assert (HN' : normalize scale_det nd (select keep A_i) = Ok N_i /\
                  normalize scale_det nd (select keep A_j) = Ok N_j /\
                  normalize scale_det nd (select keep A_k) = Ok N_k).
    { unfold normalize. destruct nd.
      - apply bind_ok in HN. destruct HN as [a [Ha HN]].
        apply bind_ok in HN. destruct HN as [b [Hb HN]].
        apply bind_ok in HN. destruct HN as [c [Hc HN]].
        inversion HN; subst. auto.
      - inversion HN; subst. auto. }
    destruct HN' as (E1 & E2 & E3).
    repeat match goal with H : _ /\ _ |- _ => destruct H end. subst.
    repeat split; try assumption.
  - intros (N_i & N_j & N_k & H1 & H2 & H3 & Hi & Hj & Hk & ->).
    exists (N_i, N_j, N_k). split.
    + unfold normalize in *. destruct nd.
      * rewrite H1, H2, H3. reflexivity.
      * inversion H1; inversion H2; inversion H3. reflexivity.
    + simpl fst. simpl snd.
      repeat match goal with
      | |- context [trace_inv_matmul ?A ?B] =>
          rewrite (proj2 (trace_inv_matmul_ok A B (map2 pair_invariant A B)))
            by (split; [assumption|reflexivity]); simpl bind
      end.
      reflexivity.
Qed.

(** *** Stacking columns *)

Lemma nth_map_seq {A : Type} (f : nat -> A) (n t : nat) (d : A) :
  (t < n)%nat -> nth t (map f (seq 0 n)) d = f t.
Proof.
  intros H. rewrite nth_indep with (d' := f O) by (rewrite length_map, length_seq; exact H).
  rewrite map_nth, seq_nth by exact H. reflexivity.
Qed.

Lemma map_nth_seq_id {A : Type} (l : list A) (d : A) :
  map (fun t => nth t l d) (seq 0 (length l)) = l.
Proof.
  apply nth_ext with (d := d) (d' := d).
  - rewrite length_map, length_seq. reflexivity.
  - intros t Ht. rewrite length_map, length_seq in Ht.
    rewrite (nth_map_seq (fun t => nth t l d)) by exact Ht. reflexivity.
Qed.

Lemma nth_as_column (v : list R) (t : nat) :
  (t < length v)%nat -> nth t (as_column v) [] = [nth t v 0].
Proof.
  intros H. unfold as_column.
  rewrite nth_indep with (d' := [0]) by (rewrite length_map; exact H).
  apply (map_nth (fun x => [x])).
Qed.

Lemma nth_T (n : nat) (rows : list (list R)) (t : nat) :
  (t < n)%nat -> nth t (T n rows) [] = map (fun row => nth t row 0) rows.
Proof.
  intros H. unfold T.
  rewrite (nth_map_seq (fun c => map (fun row => nth c row 0) rows)) by exact H.
  reflexivity.
Qed.

(** Raw mode: seven 1-D arrays of one length stacked as columns give one row
    of seven values per entry. *)
Lemma column_stack_raw (n : nat) (c1 c2 c3 c4 c5 c6 c7 : list R) :
  length c1 = n -> length c2 = n -> length c3 = n -> length c4 = n ->
  length c5 = n -> length c6 = n -> length c7 = n ->
  column_stack n [ as_column c1; as_column c2; as_column c3; as_column c4;
                   as_column c5; as_column c6; as_column c7 ] =
  map (fun t => [ nth t c1 0; nth t c2 0; nth t c3 0; nth t c4 0;
                  nth t c5 0; nth t c6 0; nth t c7 0 ]) (seq 0 n).
Proof.
  intros H1 H2 H3 H4 H5 H6 H7. unfold column_stack.
  apply map_ext_in. intros t Ht. apply in_seq in Ht. simpl.
  rewrite !nth_as_column by lia. reflexivity.
Qed.

Lemma column_of_stack (n c : nat) (parts : list (list (list R))) (r : list R) :
  (forall t, In t (seq 0 n) ->
     nth c (concat (map (fun p => nth t p []) parts)) 0 = nth t r 0) ->
  length r = n ->
  map (fun row => nth c row 0) (column_stack n parts) = r.
Proof.
  intros H Hr. unfold column_stack. rewrite map_map.
  rewrite (map_ext_in _ (fun t => nth t r 0)) by exact H.
  subst n. apply map_nth_seq_id.
Qed.

(** Permutation-invariant mode: the stacked array, transposed, has the seven
    feature arrays as its rows. *)
Lemma column_stack_perm (n : nat) (r1 r2 r3 r4 r5 r6 r7 : list R) :
  length r1 = n -> length r2 = n -> length r3 = n -> length r4 = n ->
  length r5 = n -> length r6 = n -> length r7 = n ->
  T 7 (column_stack n [ T n [r1; r2; r3]; as_column r4;
                        T n [r5; r6]; as_column r7 ]) =
  [r1; r2; r3; r4; r5; r6; r7].
Proof.
  intros H1 H2 H3 H4 H5 H6 H7.
  assert (Hrow : forall t, In t (seq 0 n) ->
            concat (map (fun p => nth t p [])
                        [ T n [r1; r2; r3]; as_column r4;
                          T n [r5; r6]; as_column r7 ]) =
            [ nth t r1 0; nth t r2 0; nth t r3 0; nth t r4 0;
              nth t r5 0; nth t r6 0; nth t r7 0 ]).
  { intros t Ht. apply in_seq in Ht. simpl.
    rewrite !nth_T by lia. rewrite !nth_as_column by lia. reflexivity. }
  unfold T at 1. cbn [seq map].
  repeat (f_equal;
          [ apply column_of_stack;
            [ intros t Ht; rewrite (Hrow t Ht); reflexivity | assumption ] | ]).
  f_equal. apply column_of_stack; [|assumption].
  intros t Ht. rewrite (Hrow t Ht). reflexivity.
Qed.

(** *** The batches read triad by triad *)

Lemma zip3_unzip3 {A B C : Type} (L : list (A * B * C)) :
  zip3 (map fst3 L) (map snd3 L) (map thd3 L) = L.
Proof.
  induction L as [|[[a b] c] L IH]; simpl; [reflexivity|].
  rewrite IH. reflexivity.
Qed.

Lemma zip3_columns {A : Type} (l1 l2 l3 : list A) :
  length l1 = length l2 -> length l2 = length l3 ->
  l1 = map fst3 (zip3 l1 l2 l3) /\
  l2 = map snd3 (zip3 l1 l2 l3) /\
  l3 = map thd3 (zip3 l1 l2 l3).
Proof.
  intros H12 H23. assert (H := unzip3_zip3 l1 l2 l3 H12 H23).
  unfold unzip3 in H. injection H as E1 E2 E3.
  repeat split; symmetry; assumption.
Qed.

Lemma columns_aligned {A B : Type} (f g h : A -> B) (l1 l2 l3 : list B)
      (L : list A) :
  l1 = map f L -> l2 = map g L -> l3 = map h L ->
  length l1 = length l2 /\ length l2 = length l3.
Proof. intros -> -> ->. rewrite !length_map. auto. Qed.

(** Selecting by a per-triad mask is filtering the zipped batches. *)
Lemma select_columns_filter {A : Type} (f : A * A * A -> bool)
      (l1 l2 l3 : list A) :
  length l1 = length l2 -> length l2 = length l3 ->
  select (map f (zip3 l1 l2 l3)) l1 = map fst3 (filter f (zip3 l1 l2 l3)) /\
  select (map f (zip3 l1 l2 l3)) l2 = map snd3 (filter f (zip3 l1 l2 l3)) /\
  select (map f (zip3 l1 l2 l3)) l3 = map thd3 (filter f (zip3 l1 l2 l3)).
Proof.
  revert l2 l3. induction l1 as [|a l1 IH]; intros [|b l2] [|c l3] H12 H23;
    simpl in *; try discriminate; [auto|].
  injection H12 as H12. injection H23 as H23.
  destruct (IH l2 l3 H12 H23) as (E1 & E2 & E3).
  destruct (f (a, b, c)); simpl; rewrite E1, E2, E3; auto.
Qed.

Lemma select_rows_filter {A B : Type} (f : B -> bool) (rows : list A)
      (L : list B) :
  length rows = length L ->
  select (map f L) rows = map fst (filter (fun p => f (snd p)) (combine rows L)).
Proof.
  revert L. induction rows as [|r rows IH]; intros [|x L] H; simpl in *;
    try discriminate; [reflexivity|].
  injection H as H. destruct (f x); simpl; rewrite IH by exact H; reflexivity.
Qed.

Lemma select_all {A B : Type} (L : list B) (l : list A) :
  length l = length L -> select (map (fun _ => true) L) l = l.
Proof.
  revert l. induction L as [|x L IH]; intros [|a l] H; simpl in *;
    try discriminate; [reflexivity|].
  injection H as H. rewrite IH by exact H. reflexivity.
Qed.

Lemma count_true_map_filter {A : Type} (f : A -> bool) (L : list A) :
  count_true (map f L) = length (filter f L).
Proof.
  unfold count_true. induction L as [|x L IH]; simpl; [reflexivity|].
  destruct (f x); simpl; rewrite IH; reflexivity.
Qed.

Lemma I_ijk_batch_map_same {X : Type} (p q r : X -> M33) (L : list X) :
  I_ijk_batch (map p L) (map q L) (map r L) =
  map (fun t => triple_invariant (p t) (q t) (r t)) L.
Proof.
  unfold I_ijk_batch, map2. induction L as [|x L IH]; simpl; [reflexivity|].
  rewrite IH. reflexivity.
Qed.

Lemma Forall_map_iff {A B : Type} (P : B -> Prop) (f : A -> B) (l : list A) :
  Forall P (map f l) <-> Forall (fun a => P (f a)) l.
Proof. apply Forall_map. Qed.

Lemma normalize_columns (scale_det : M33 -> result M33) (nd : bool)
      (L : list (M33 * M33 * M33)) (N_i N_j N_k : list M33) :
  normalize scale_det nd (map fst3 L) = Ok N_i ->
  normalize scale_det nd (map snd3 L) = Ok N_j ->
  normalize scale_det nd (map thd3 L) = Ok N_k ->
  N_i = map fst3 (zip3 N_i N_j N_k) /\
  N_j = map snd3 (zip3 N_i N_j N_k) /\
  N_k = map thd3 (zip3 N_i N_j N_k) /\
  length (zip3 N_i N_j N_k) = length L.
Proof.
  intros H1 H2 H3.
  apply normalize_length in H1, H2, H3. rewrite length_map in H1, H2, H3.
  assert (H12 : length N_i = length N_j) by congruence.
  assert (H23 : length N_j = length N_k) by congruence.
  destruct (zip3_columns N_i N_j N_k H12 H23) as (E1 & E2 & E3).
  repeat split; try assumption.
  rewrite length_zip3 by assumption. exact H1.
Qed.

(** [__init__] on aligned batches, triad by triad: it returns an object
    exactly when the kept conics normalise to a list [N] of invertible
    triples, and the object holds the kept triads and the invariants of
    [N]. *)
Lemma init_per_triad (scale_det : M33 -> result M33)
      (triads : list Utils.triad) (A_i A_j A_k : list M33) (nd : bool)
      (o : CoplanarInvariants) :
  length A_i = length A_j -> length A_j = length A_k ->
  (init scale_det triads A_i A_j A_k nd = Ok o <->
   exists N,
     normalized scale_det nd (kept A_i A_j A_k) N /\
     Forall invertible3 N /\
     o = invariants_of (select (map survives (zip3 A_i A_j A_k)) triads) N).
Proof.
  intros H12 H23. unfold invariants_of. rewrite init_ok. rewrite keep_mask_zip3.
  destruct (select_columns_filter survives A_i A_j A_k H12 H23) as (S1 & S2 & S3).
  rewrite S1, S2, S3. fold (kept A_i A_j A_k). unfold normalized. split.
  - intros (N_i & N_j & N_k & H1 & H2 & H3 & Fi & Fj & Fk & ->).
    destruct (normalize_columns _ _ _ H1 H2 H3) as (E1 & E2 & E3 & _).
    set (N := zip3 N_i N_j N_k) in *. clearbody N. subst N_i N_j N_k.
    exists N. split; [auto|]. split.
    + rewrite Forall_map_iff in Fi, Fj, Fk.
      rewrite Forall_forall in *. intros t Ht. unfold invertible3. auto.
    + rewrite !map2_map_same, I_ijk_batch_map_same. reflexivity.
  - intros (N & (H1 & H2 & H3) & HN & ->).
    exists (map fst3 N), (map snd3 N), (map thd3 N).
    repeat split; try assumption.
    1-3: rewrite Forall_map_iff; rewrite Forall_forall in *;
         intros t Ht; apply (HN t Ht).
    rewrite !map2_map_same, I_ijk_batch_map_same. reflexivity.
Qed.

(** *** What [get_pattern] returns *)

Lemma nth_map_default {A B : Type} (f : A -> B) (l : list A) (t : nat)
      (d : A) (d' : B) :
  (t < length l)%nat -> nth t (map f l) d' = f (nth t l d).
Proof.
  intros H. rewrite nth_indep with (d' := f d) by (rewrite length_map; exact H).
  apply map_nth.
Qed.

Lemma get_pattern_raw_of (triads : list Utils.triad)
      (N : list (M33 * M33 * M33)) :
  get_pattern (invariants_of triads N) false = map raw_invariants N.
Proof.
  unfold get_pattern, len, invariants_of. cbn [I_ij I_ji I_ik I_ki I_jk I_kj I_ijk].
  rewrite column_stack_raw by (rewrite !length_map; reflexivity).
  rewrite length_map.
  assert (E : map raw_invariants N =
              map (fun t => raw_invariants (nth t N (identity3, identity3, identity3)))
                  (seq 0 (length N))).
  { rewrite <- (map_map (fun t => nth t N (identity3, identity3, identity3))).
    rewrite map_nth_seq_id. reflexivity. }
  rewrite E. apply map_ext_in. intros t Ht. apply in_seq in Ht.
  rewrite !(@nth_map_default _ _ _ N t (identity3, identity3, identity3)) by lia.
  destruct (nth t N (identity3, identity3, identity3)) as [[a b] c].
  reflexivity.
Qed.

Lemma get_pattern_perm_of (triads : list Utils.triad)
      (N : list (M33 * M33 * M33)) :
  get_pattern (invariants_of triads N) true = T 7 (map perm_features N).
Proof.
  unfold get_pattern, len, invariants_of. cbn [I_ij I_ji I_ik I_ki I_jk I_kj I_ijk].
  unfold PermutationInvariant.F, PermutationInvariant.G_tilde,
    PermutationInvariant.G. cbn [map].
  rewrite !lift3_map_same, !lift6_map_same, !map2_map_same.
  rewrite column_stack_perm by (rewrite !length_map; reflexivity).
  unfold T. cbn [seq map]. rewrite !map_map.
  repeat (f_equal; [apply map_ext; intros [[a b] c]; reflexivity|]).
  f_equal. apply map_ext; intros [[a b] c]; reflexivity.
Qed.

Lemma length_T (ncols : nat) (a : list (list R)) : length (T ncols a) = ncols.
Proof. unfold T. rewrite length_map, length_seq. reflexivity. Qed.

Lemma T_row_length (ncols : nat) (a : list (list R)) (row : list R) :
  In row (T ncols a) -> length row = length a.
Proof.
  unfold T. rewrite in_map_iff. intros [c [<- _]]. apply length_map.
Qed.

Lemma normalized_length (scale_det : M33 -> result M33) (nd : bool)
      (L N : list (M33 * M33 * M33)) :
  normalized scale_det nd L N -> length N = length L.
Proof.
  intros (H & _ & _). apply normalize_length in H.
  rewrite !length_map in H. exact H.
Qed.

Lemma normalized_false (scale_det : M33 -> result M33)
      (L N : list (M33 * M33 * M33)) :
  normalized scale_det false L N -> L = N.
Proof.
  intros (H1 & H2 & H3). unfold normalize in *.
  injection H1 as H1. injection H2 as H2. injection H3 as H3.
  rewrite <- (zip3_unzip3 L), <- (zip3_unzip3 N), H1, H2, H3. reflexivity.
Qed.

Lemma length_kept_triads (triads : list Utils.triad) (A_i A_j A_k : list M33) :
  length triads = length A_i ->
  length A_i = length A_j -> length A_j = length A_k ->
  select (map survives (zip3 A_i A_j A_k)) triads = kept_triads triads A_i A_j A_k /\
  length (kept_triads triads A_i A_j A_k) = length (kept A_i A_j A_k).
Proof.
  intros H0 H12 H23.
  assert (HL : length triads = length (zip3 A_i A_j A_k))
    by (rewrite length_zip3 by assumption; exact H0).
  assert (E := select_rows_filter survives triads (zip3 A_i A_j A_k) HL).
  fold (kept_triads triads A_i A_j A_k) in E.
  split; [exact E|]. rewrite <- E.
  rewrite length_select by (rewrite length_map; symmetry; exact HL).
  apply count_true_map_filter.
Qed.

(** *** Cyclic rotation of a triad *)

Lemma survives_rotate (t : M33 * M33 * M33) : survives (rotate t) = survives t.
Proof.
  destruct t as [[a b] c]. unfold rotate, survives, fst3, snd3, thd3. simpl.
  rewrite (cond_isfinite_msub_swap a b), (cond_isfinite_msub_swap a c).
  destruct (cond_isfinite (msub a b)), (cond_isfinite (msub a c)),
    (cond_isfinite (msub b c)); reflexivity.
Qed.

Lemma zip3_rotate {A : Type} (l1 l2 l3 : list A) :
  zip3 l2 l3 l1 = map rotate (zip3 l1 l2 l3).
Proof.
  revert l2 l3. induction l1 as [|a l1 IH]; intros [|b l2] [|c l3];
    try reflexivity.
  simpl. rewrite IH. reflexivity.
Qed.

Lemma kept_rotate (A B C : list M33) :
  kept B C A = map rotate (kept A B C).
Proof.
  unfold kept. rewrite zip3_rotate.
  induction (zip3 A B C) as [|t L IH]; [reflexivity|].
  cbn [map filter]. rewrite survives_rotate.
  destruct (survives t); cbn [map]; rewrite IH; reflexivity.
Qed.

Lemma normalized_rotate (scale_det : M33 -> result M33) (nd : bool)
      (L N : list (M33 * M33 * M33)) :
  normalized scale_det nd L N ->
  normalized scale_det nd (map rotate L) (map rotate N).
Proof.
  unfold normalized. rewrite !map_map. intros (H1 & H2 & H3).
  repeat split; assumption.
Qed.

Lemma triple_invariant_rotate (A B C : M33) :
  triple_invariant B C A = triple_invariant A B C.
Proof.
  unfold triple_invariant, trace. destruct A, B, C. cbn. ring.
Qed.

Lemma F2_rotate (x y z : R) :
  PermutationInvariant.F2 y z x = PermutationInvariant.F2 x y z.
Proof. unfold PermutationInvariant.F2. f_equal; ring. Qed.

Lemma F3_rotate (x y z : R) :
  PermutationInvariant.F3 y z x = PermutationInvariant.F3 x y z.
Proof. unfold PermutationInvariant.F3. f_equal; ring. Qed.

Lemma G_norm_rotate (x1 y1 z1 x2 y2 z2 : R) :
  PermutationInvariant.G_norm y1 z1 x1 y2 z2 x2 =
  PermutationInvariant.G_norm x1 y1 z1 x2 y2 z2.
Proof. unfold PermutationInvariant.G_norm. do 2 f_equal. ring. Qed.

Lemma perm_features_rotate (t : M33 * M33 * M33) :
  perm_features (rotate t) = perm_features t.
Proof.
  destruct t as [[a b] c]. unfold rotate, perm_features, fst3, snd3, thd3.
  cbn [fst snd].
  generalize (pair_invariant a b) (pair_invariant b c) (pair_invariant c a)
             (pair_invariant b a) (pair_invariant c b) (pair_invariant a c).
  intros x1 y1 z1 x2 y2 z2.
  rewrite F2_rotate, F3_rotate, G_norm_rotate, triple_invariant_rotate.
  unfold PermutationInvariant.F1, PermutationInvariant.G1,
    PermutationInvariant.G2.
  repeat (f_equal; try ring).
Qed.

(** *** The constructor only sees the kept triads *)

Lemma survives_filter (X : list (M33 * M33 * M33)) :
  map survives (filter survives X) = map (fun _ => true) (filter survives X).
Proof.
  induction X as [|t X IH]; simpl; [reflexivity|].
  destruct (survives t) eqn:E; simpl; [rewrite E, IH|]; auto.
Qed.

Lemma init_after_filter (scale_det : M33 -> result M33)
      (triads : list Utils.triad) (A_i A_j A_k : list M33) (nd : bool) :
  init scale_det triads A_i A_j A_k nd =
  after_filter scale_det
    (select (keep_mask A_i A_j A_k) triads)
    (select (keep_mask A_i A_j A_k) A_i)
    (select (keep_mask A_i A_j A_k) A_j)
    (select (keep_mask A_i A_j A_k) A_k) nd.
Proof. reflexivity. Qed.

Lemma init_on_kept (scale_det : M33 -> result M33)
      (triads : list Utils.triad) (A_i A_j A_k : list M33) (nd : bool) :
  length triads = length A_i ->
  length A_i = length A_j -> length A_j = length A_k ->
  init scale_det triads A_i A_j A_k nd =
  init scale_det (kept_triads triads A_i A_j A_k)
       (map fst3 (kept A_i A_j A_k)) (map snd3 (kept A_i A_j A_k))
       (map thd3 (kept A_i A_j A_k)) nd.
Proof.
  intros H0 H12 H23. rewrite !init_after_filter, !keep_mask_zip3.
  destruct (select_columns_filter survives A_i A_j A_k H12 H23) as (S1 & S2 & S3).
  destruct (length_kept_triads triads A_i A_j A_k H0 H12 H23) as (S0 & HL).
  rewrite S0, S1, S2, S3. fold (kept A_i A_j A_k).
  rewrite zip3_unzip3.
  assert (E : map survives (kept A_i A_j A_k) =
              map (fun _ => true) (kept A_i A_j A_k)) by apply survives_filter.
  rewrite E.
  rewrite !select_all by (rewrite ?length_map; auto).
  reflexivity.
Qed.

(** *** The example triad *)

Ltac rows_eq :=
  repeat match goal with
         | |- @cons _ _ _ = @cons _ _ _ => apply (f_equal2 (@cons _))
         | |- @nil _ = @nil _ => reflexivity
         end.

Lemma example_survives : survives (conic_a, conic_b, conic_c) = true.
Proof.
  unfold survives.
  rewrite !(proj2 (cond_isfinite_true _)); [reflexivity| | |];
    unfold det, conic_a, conic_b, conic_c; cbn; lra.
Qed.

Lemma example_invertible : invertible3 (conic_a, conic_b, conic_c).
Proof.
  unfold invertible3, nonsingular, fst3, snd3, thd3, det, conic_a, conic_b,
    conic_c. cbn. repeat split; lra.
Qed.

Lemma example_init (scale_det : M33 -> result M33) :
  init scale_det [(0, 1, 2)%Z] [conic_a] [conic_b] [conic_c] false =
  Ok (invariants_of [(0, 1, 2)%Z] [(conic_a, conic_b, conic_c)]).
Proof.
  apply init_per_triad; try reflexivity.
  exists [(conic_a, conic_b, conic_c)].
  unfold kept. cbn [zip3 filter map select]. rewrite example_survives.
  repeat split. constructor; [apply example_invertible|constructor].
Qed.

Lemma example_rotated_init (scale_det : M33 -> result M33) :
  init scale_det [(1, 2, 0)%Z] [conic_b] [conic_c] [conic_a] false =
  Ok (invariants_of [(1, 2, 0)%Z] [(conic_b, conic_c, conic_a)]).
Proof.
  apply init_per_triad; try reflexivity.
  exists [(conic_b, conic_c, conic_a)].
  unfold kept. cbn [zip3 filter map select].
  change (conic_b, conic_c, conic_a) with (rotate (conic_a, conic_b, conic_c)).
  rewrite survives_rotate, example_survives.
  repeat split. constructor; [|constructor].
  destruct example_invertible as (Ha & Hb & Hc). repeat split; assumption.
Qed.

Lemma example_pair_ab : pair_invariant conic_a conic_b = 17.
Proof.
  unfold pair_invariant, trace, matmul, minv, mscale, matrix_adjugate, det,
    conic_a, conic_b. cbn. field.
Qed.

Lemma example_pair_bc : pair_invariant conic_b conic_c = 17 / 3.
Proof.
  unfold pair_invariant, trace, matmul, minv, mscale, matrix_adjugate, det,
    conic_b, conic_c. cbn. field.
Qed.

(** The raw pattern of the example triad. *)
Example example_raw_pattern :
  get_pattern (invariants_of [(0, 1, 2)%Z] [(conic_a, conic_b, conic_c)]) false =
  [[17; 11 / 12; 38; 17 / 30; 17 / 3; 5 / 3; -530]].
Proof.
  rewrite get_pattern_raw_of. cbn [map raw_invariants].
  unfold pair_invariant, triple_invariant, trace, matmul, minv, mscale, madd,
    msub, matrix_adjugate, det, conic_a, conic_b, conic_c. cbn.
  rows_eq; field.
Qed.

(** *** The invariants of the kept triads *)

(** C2.  On aligned batches, when [__init__] returns an object [o], there is
    the list [N] of the conic triples of the kept triads, determinant
    normalised when [normalize_det] is set and as they were passed when it is
    not, all invertible, such that for each of them, in order, [o] stores
    [I_ij = tr(A_i^-1 A_j)], [I_ji = tr(A_j^-1 A_i)],
    [I_ik = tr(A_i^-1 A_k)], [I_ki = tr(A_k^-1 A_i)],
    [I_jk = tr(A_j^-1 A_k)], [I_kj = tr(A_k^-1 A_j)] and
    [I_ijk = tr((adj(A_j + A_k) - adj(A_j - A_k)) A_i)],
    and [get_pattern] in raw mode has one row per kept triad holding these
    seven values in the order
    [(I_ij, I_ji, I_ik, I_ki, I_jk, I_kj, I_ijk)]. *)
Theorem raw_invariants_are_traces (scale_det : M33 -> result M33)
        (triads : list Utils.triad) (A_i A_j A_k : list M33) (nd : bool)
        (o : CoplanarInvariants) :
  length triads = length A_i ->
  length A_i = length A_j -> length A_j = length A_k ->
  init scale_det triads A_i A_j A_k nd = Ok o ->
  exists N,
    normalized scale_det nd (kept A_i A_j A_k) N /\
    (nd = false -> N = kept A_i A_j A_k) /\
    Forall invertible3 N /\
    crater_triads o = kept_triads triads A_i A_j A_k /\
    length (crater_triads o) = length N /\
    I_ij o = map (fun t => trace (matmul (minv (fst3 t)) (snd3 t))) N /\
    I_ji o = map (fun t => trace (matmul (minv (snd3 t)) (fst3 t))) N /\
    I_ik o = map (fun t => trace (matmul (minv (fst3 t)) (thd3 t))) N /\
    I_ki o = map (fun t => trace (matmul (minv (thd3 t)) (fst3 t))) N /\
    I_jk o = map (fun t => trace (matmul (minv (snd3 t)) (thd3 t))) N /\
    I_kj o = map (fun t => trace (matmul (minv (thd3 t)) (snd3 t))) N /\
    I_ijk o =
      map (fun t =>
             trace (matmul (msub (matrix_adjugate (madd (snd3 t) (thd3 t)))
                                 (matrix_adjugate (msub (snd3 t) (thd3 t))))
                           (fst3 t))) N /\
    get_pattern o false = map raw_invariants N.
Proof.
  intros H0 H12 H23 Hinit.
  apply init_per_triad in Hinit; [|assumption|assumption].
  destruct Hinit as (N & HN & Hinv & ->).
  destruct (length_kept_triads triads A_i A_j A_k H0 H12 H23) as (S0 & HL).
  exists N. rewrite S0. cbn [crater_triads invariants_of I_ij I_ji I_ik I_ki I_jk I_kj I_ijk].
  split; [exact HN|].
  split; [intros ->; symmetry; eapply normalized_false; exact HN|].
  split; [exact Hinv|]. split; [reflexivity|].
  split; [rewrite HL; symmetry; eapply normalized_length; exact HN|].
  repeat (split; [reflexivity|]).
  apply get_pattern_raw_of.
Qed.

Lemma raw_invariants_are_traces_example :
  init scale_det_model [(0, 1, 2)%Z] [conic_a] [conic_b] [conic_c] false =
    Ok (invariants_of [(0, 1, 2)%Z] [(conic_a, conic_b, conic_c)]) /\
  exists N,
    normalized scale_det_model false (kept [conic_a] [conic_b] [conic_c]) N /\
    Forall invertible3 N /\
    get_pattern (invariants_of [(0, 1, 2)%Z] [(conic_a, conic_b, conic_c)]) false =
      map raw_invariants N.
Proof.
  split; [apply example_init|].
  destruct (@raw_invariants_are_traces scale_det_model
              [(0, 1, 2)%Z] [conic_a] [conic_b] [conic_c] false
              (invariants_of [(0, 1, 2)%Z] [(conic_a, conic_b, conic_c)])
              eq_refl eq_refl eq_refl (example_init scale_det_model))
    as (N & HN & _ & Hinv & _ & _ & _ & _ & _ & _ & _ & _ & _ & Hraw).
  exists N. split; [exact HN|]. split; [exact Hinv|exact Hraw].
Defined.

(** *** The triads the filter excludes *)

Lemma keep_mask_by_zip3 (test : M33 -> bool) (A_i A_j A_k : list M33) :
  map negb (overlapped_craters_by test A_i A_j A_k) =
  map (survives_by test) (zip3 A_i A_j A_k).
Proof.
  unfold overlapped_craters_by, logical_and_reduce3, map2.
  revert A_j A_k. induction A_i as [|a A_i IH]; intros [|b A_j] [|c A_k];
    try reflexivity.
  simpl. rewrite negb_involutive. f_equal. apply IH.
Qed.

Lemma filter_all_true {X : Type} (f : X -> bool) (L : list X) :
  map f (filter f L) = map (fun _ => true) (filter f L).
Proof.
  induction L as [|t L IH]; simpl; [reflexivity|].
  destruct (f t) eqn:E; simpl; [rewrite E, IH|]; auto.
Qed.

Lemma kept_triads_by_select (test : M33 -> bool) (triads : list Utils.triad)
      (A_i A_j A_k : list M33) :
  length triads = length A_i ->
  length A_i = length A_j -> length A_j = length A_k ->
  select (map (survives_by test) (zip3 A_i A_j A_k)) triads =
    kept_triads_by test triads A_i A_j A_k /\
  length (kept_triads_by test triads A_i A_j A_k) =
    length (kept_by test A_i A_j A_k).
Proof.
  intros H0 H12 H23.
  assert (HL : length triads = length (zip3 A_i A_j A_k))
    by (rewrite length_zip3 by assumption; exact H0).
  assert (E := select_rows_filter (survives_by test) triads
                                  (zip3 A_i A_j A_k) HL).
  fold (kept_triads_by test triads A_i A_j A_k) in E.
  split; [exact E|]. rewrite <- E.
  rewrite length_select by (rewrite length_map; symmetry; exact HL).
  apply count_true_map_filter.
Qed.

(** The constructor only sees the triads the filter keeps. *)
Lemma init_by_on_kept (test : M33 -> bool) (scale_det : M33 -> result M33)
      (triads : list Utils.triad) (A_i A_j A_k : list M33) (nd : bool) :
  length triads = length A_i ->
  length A_i = length A_j -> length A_j = length A_k ->
  init_by test scale_det triads A_i A_j A_k nd =
  init_by test scale_det (kept_triads_by test triads A_i A_j A_k)
          (map fst3 (kept_by test A_i A_j A_k))
          (map snd3 (kept_by test A_i A_j A_k))
          (map thd3 (kept_by test A_i A_j A_k)) nd.
Proof.
  intros H0 H12 H23. unfold init_by. cbv zeta. rewrite !keep_mask_by_zip3.
  destruct (select_columns_filter (survives_by test) A_i A_j A_k H12 H23)
    as (S1 & S2 & S3).
  destruct (kept_triads_by_select test triads A_i A_j A_k H0 H12 H23)
    as (S0 & HL).
  rewrite S0, S1, S2, S3. fold (kept_by test A_i A_j A_k).
  rewrite zip3_unzip3.
  assert (E : map (survives_by test) (kept_by test A_i A_j A_k) =
              map (fun _ => true) (kept_by test A_i A_j A_k))
    by apply filter_all_true.
  rewrite E.
  rewrite !select_all by (rewrite ?length_map; auto).
  reflexivity.
Qed.

(** What follows the filter returns an object exactly when the optional
    normalisation succeeds and leaves invertible conics. *)
Lemma after_filter_ok (scale_det : M33 -> result M33)
      (triads : list Utils.triad) (A_i A_j A_k : list M33) (nd : bool)
      (o : CoplanarInvariants) :
  after_filter scale_det triads A_i A_j A_k nd = Ok o <->
  exists N_i N_j N_k,
    normalize scale_det nd A_i = Ok N_i /\
    normalize scale_det nd A_j = Ok N_j /\
    normalize scale_det nd A_k = Ok N_k /\
    Forall nonsingular N_i /\ Forall nonsingular N_j /\ Forall nonsingular N_k /\
    o = mkCoplanarInvariants
          triads
          (map2 pair_invariant N_i N_j) (map2 pair_invariant N_j N_i)
          (map2 pair_invariant N_i N_k) (map2 pair_invariant N_k N_i)
          (map2 pair_invariant N_j N_k) (map2 pair_invariant N_k N_j)
          (I_ijk_batch N_i N_j N_k).
Proof.
  unfold after_filter. rewrite bind_ok. split.
  - intros [[[N_i N_j] N_k] [HN H]]. simpl fst in H. simpl snd in H.
    repeat (apply bind_ok in H; destruct H as [? [?%trace_inv_matmul_ok H]]).
    inversion H; subst; clear H.
    exists N_i, N_j, N_k.
    assert (HN' : normalize scale_det nd A_i = Ok N_i /\
                  normalize scale_det nd A_j = Ok N_j /\
                  normalize scale_det nd A_k = Ok N_k).
    { unfold normalize. destruct nd.
      - apply bind_ok in HN. destruct HN as [a [Ha HN]].
        apply bind_ok in HN. destruct HN as [b [Hb HN]].
        apply bind_ok in HN. destruct HN as [c [Hc HN]].
        inversion HN; subst. auto.
      - inversion HN; subst. auto. }
    destruct HN' as (E1 & E2 & E3).
    repeat match goal with H : _ /\ _ |- _ => destruct H end. subst.
    repeat split; try assumption.
  - intros (N_i & N_j & N_k & H1 & H2 & H3 & Hi & Hj & Hk & ->).
    exists (N_i, N_j, N_k). split.
    + unfold normalize in *. destruct nd.
      * rewrite H1, H2, H3. reflexivity.
      * inversion H1; inversion H2; inversion H3. reflexivity.
    + simpl fst. simpl snd.
      repeat match goal with
      | |- context [trace_inv_matmul ?A ?B] =>
          rewrite (proj2 (trace_inv_matmul_ok A B (map2 pair_invariant A B)))
            by (split; [assumption|reflexivity]); simpl bind
      end.
      reflexivity.
Qed.

(** [__init__] on aligned batches, triad by triad, whatever the test. *)
Lemma init_by_per_triad (test : M33 -> bool) (scale_det : M33 -> result M33)
      (triads : list Utils.triad) (A_i A_j A_k : list M33) (nd : bool)
      (o : CoplanarInvariants) :
  length triads = length A_i ->
  length A_i = length A_j -> length A_j = length A_k ->
  (init_by test scale_det triads A_i A_j A_k nd = Ok o <->
   exists N,
     normalized scale_det nd (kept_by test A_i A_j A_k) N /\
     Forall invertible3 N /\
     o = invariants_of (kept_triads_by test triads A_i A_j A_k) N).
Proof.
  intros H0 H12 H23. unfold invariants_of, init_by. cbv zeta.
  rewrite after_filter_ok, keep_mask_by_zip3.
  destruct (select_columns_filter (survives_by test) A_i A_j A_k H12 H23)
    as (S1 & S2 & S3).
  destruct (kept_triads_by_select test triads A_i A_j A_k H0 H12 H23)
    as (S0 & _).
  rewrite S0, S1, S2, S3. fold (kept_by test A_i A_j A_k).
  unfold normalized. split.
  - intros (N_i & N_j & N_k & H1 & H2 & H3 & Fi & Fj & Fk & ->).
    destruct (normalize_columns _ _ _ H1 H2 H3) as (E1 & E2 & E3 & _).
    set (N := zip3 N_i N_j N_k) in *. clearbody N. subst N_i N_j N_k.
    exists N. split; [auto|]. split.
    + rewrite Forall_map_iff in Fi, Fj, Fk.
      rewrite Forall_forall in *. intros t Ht. unfold invertible3. auto.
    + rewrite !map2_map_same, I_ijk_batch_map_same. reflexivity.
  - intros (N & (H1 & H2 & H3) & HN & ->).
    exists (map fst3 N), (map snd3 N), (map thd3 N).
    repeat split; try assumption.
    1-3: rewrite Forall_map_iff; rewrite Forall_forall in *;
         intros t Ht; apply (HN t Ht).
    rewrite !map2_map_same, I_ijk_batch_map_same. reflexivity.
Qed.

(** With the exact reading of the test, [init_by] is [init]. *)
Lemma init_by_exact (scale_det : M33 -> result M33)
      (triads : list Utils.triad) (A_i A_j A_k : list M33) (nd : bool) :
  init_by cond_isfinite scale_det triads A_i A_j A_k nd =
  init scale_det triads A_i A_j A_k nd.
Proof. reflexivity. Qed.

Lemma isfinite_cond_true (svdvals : M33 -> R * R * R) (A : M33) :
  isfinite_cond svdvals A = true <->
  smallest_singular_value svdvals A <> 0 /\
  largest_singular_value svdvals A / smallest_singular_value svdvals A
    < float_overflow.
Proof.
  unfold isfinite_cond, cond, smallest_singular_value, largest_singular_value.
  destruct (svdvals A) as [[s_max s_mid] s_min]. cbn [fst snd].
  destruct (Req_dec_T s_min 0) as [E|E].
  - split; [discriminate|]. intros [H _]. contradiction.
  - destruct (Rlt_dec (s_max / s_min) float_overflow) as [L|L].
    + split; auto.
    + split; [discriminate|]. intros [_ H]. contradiction.
Qed.

Lemma msub_diag (A : M33) : msub A A = zero3.
Proof. destruct A. unfold zero3. apply M33_eq; cbn; ring. Qed.

Lemma survives_by_true (test : M33 -> bool) (a b c : M33) :
  survives_by test (a, b, c) = true <->
  test (msub a b) = true /\ test (msub a c) = true /\ test (msub b c) = true.
Proof. unfold survives_by. rewrite !andb_true_iff. tauto. Qed.

(** C3.  What the filter of lines 110-116 excludes, with the condition
    number as it is computed.  On aligned batches a triad is kept exactly
    when [np.isfinite(LA.cond(.))] holds of its three pairwise differences,
    and it holds of a matrix exactly when the smallest computed singular
    value is not zero and the quotient of the largest by it does not
    overflow.  The difference of two identical conics is the zero matrix,
    whose singular values are computed as zero, so a triad with two
    identical conics is excluded.  Exclusion is a filter and cannot raise:
    the outcome of [__init__], value or exception, is its outcome on the
    kept triads alone; it returns an object exactly when the kept conics
    normalise to invertible matrices, and the object stores the kept triads
    and one value per kept triad in each of its seven arrays. *)
Theorem identical_conics_excluded (svdvals : M33 -> R * R * R)
        (scale_det : M33 -> result M33)
        (triads : list Utils.triad) (A_i A_j A_k : list M33) (nd : bool) :
  smallest_singular_value svdvals zero3 = 0 ->
  length triads = length A_i ->
  length A_i = length A_j -> length A_j = length A_k ->
  (forall a b c,
     a = b \/ a = c \/ b = c ->
     ~ In (a, b, c) (kept_by (isfinite_cond svdvals) A_i A_j A_k)) /\
  (forall a b c,
     In (a, b, c) (kept_by (isfinite_cond svdvals) A_i A_j A_k) <->
     In (a, b, c) (zip3 A_i A_j A_k) /\
     isfinite_cond svdvals (msub a b) = true /\
     isfinite_cond svdvals (msub a c) = true /\
     isfinite_cond svdvals (msub b c) = true) /\
  (forall A,
     isfinite_cond svdvals A = true <->
     smallest_singular_value svdvals A <> 0 /\
     largest_singular_value svdvals A / smallest_singular_value svdvals A
       < float_overflow) /\
  init_by (isfinite_cond svdvals) scale_det triads A_i A_j A_k nd =
    init_by (isfinite_cond svdvals) scale_det
      (kept_triads_by (isfinite_cond svdvals) triads A_i A_j A_k)
      (map fst3 (kept_by (isfinite_cond svdvals) A_i A_j A_k))
      (map snd3 (kept_by (isfinite_cond svdvals) A_i A_j A_k))
      (map thd3 (kept_by (isfinite_cond svdvals) A_i A_j A_k)) nd /\
  (forall o,
     init_by (isfinite_cond svdvals) scale_det triads A_i A_j A_k nd = Ok o <->
     exists N,
       normalized scale_det nd (kept_by (isfinite_cond svdvals) A_i A_j A_k) N /\
       Forall invertible3 N /\
       o = invariants_of
             (kept_triads_by (isfinite_cond svdvals) triads A_i A_j A_k) N) /\
  (forall o,
     init_by (isfinite_cond svdvals) scale_det triads A_i A_j A_k nd = Ok o ->
     crater_triads o =
       kept_triads_by (isfinite_cond svdvals) triads A_i A_j A_k /\
     length (crater_triads o) =
       length (kept_by (isfinite_cond svdvals) A_i A_j A_k) /\
     length (I_ij o) = length (kept_by (isfinite_cond svdvals) A_i A_j A_k) /\
     length (I_ji o) = length (kept_by (isfinite_cond svdvals) A_i A_j A_k) /\
     length (I_ik o) = length (kept_by (isfinite_cond svdvals) A_i A_j A_k) /\
     length (I_ki o) = length (kept_by (isfinite_cond svdvals) A_i A_j A_k) /\
     length (I_jk o) = length (kept_by (isfinite_cond svdvals) A_i A_j A_k) /\
     length (I_kj o) = length (kept_by (isfinite_cond svdvals) A_i A_j A_k) /\
     length (I_ijk o) = length (kept_by (isfinite_cond svdvals) A_i A_j A_k)).
Proof.
  intros Hzero H0 H12 H23.
  set (test := isfinite_cond svdvals).
  destruct (kept_triads_by_select test triads A_i A_j A_k H0 H12 H23)
    as (S0 & HL).
  assert (Hkept : forall a b c,
     In (a, b, c) (kept_by test A_i A_j A_k) <->
     In (a, b, c) (zip3 A_i A_j A_k) /\
     test (msub a b) = true /\ test (msub a c) = true /\
     test (msub b c) = true).
  { intros a b c. unfold kept_by. rewrite filter_In, survives_by_true.
    reflexivity. }
  assert (Hz : test zero3 = false).
  { destruct (test zero3) eqn:E; [|reflexivity].
    apply isfinite_cond_true in E. destruct E as [E _]. contradiction. }
  assert (Hiff : forall o,
     init_by test scale_det triads A_i A_j A_k nd = Ok o <->
     exists N,
       normalized scale_det nd (kept_by test A_i A_j A_k) N /\
       Forall invertible3 N /\
       o = invariants_of (kept_triads_by test triads A_i A_j A_k) N).
  { intros o. apply init_by_per_triad; assumption. }
  split.
  { intros a b c Heq Hin. apply Hkept in Hin.
    destruct Hin as (_ & Hab & Hac & Hbc).
    destruct Heq as [ -> | [ -> | -> ] ]; rewrite msub_diag in *; congruence. }
  split; [exact Hkept|].
  split; [intros A; apply isfinite_cond_true|].
  split; [apply init_by_on_kept; assumption|].
  split; [exact Hiff|].
  intros o Ho. apply Hiff in Ho. destruct Ho as (N & HN & _ & ->).
  apply normalized_length in HN.
  cbn [crater_triads invariants_of I_ij I_ji I_ik I_ki I_jk I_kj I_ijk].
  rewrite !length_map, HL, HN. repeat split; reflexivity.
Qed.
Lemma svdvals_of_size_zero : smallest_singular_value svdvals_of_size zero3 = 0.
Proof.
  unfold smallest_singular_value, svdvals_of_size, zero3. cbn.
  replace (0 * 0 + 0 * 0 + 0 * 0 + 0 * 0 + 0 * 0 + 0 * 0 + 0 * 0 + 0 * 0 + 0 * 0)
    with 0 by ring.
  apply sqrt_0.
Qed.

(** A batch of two triads, the second with the same conic twice. *)
Lemma identical_conics_excluded_example :
  ~ In (conic_a, conic_a, conic_c)
       (kept_by (isfinite_cond svdvals_of_size)
                [conic_a; conic_a] [conic_b; conic_a] [conic_c; conic_c]).
Proof.
  destruct (@identical_conics_excluded svdvals_of_size scale_det_model
              [(0, 1, 2)%Z; (0, 0, 2)%Z]
              [conic_a; conic_a] [conic_b; conic_a] [conic_c; conic_c] false
              svdvals_of_size_zero eq_refl eq_refl eq_refl)
    as (Hsame & _).
  apply Hsame. left. reflexivity.
Defined.

Lemma example_singular_invertible : invertible3 (conic_d, conic_b, conic_c).
Proof.
  unfold invertible3, nonsingular, fst3, snd3, thd3, det, conic_d, conic_b,
    conic_c. cbn. repeat split; lra.
Qed.

Lemma float_overflow_above_1 : 1 < float_overflow.
Proof.
  unfold float_overflow.
  assert (H1 : 1 <= 2 ^ 970) by (apply pow_R1_Rle; lra).
  assert (H2 : 1 <= 2 ^ 52) by (apply pow_R1_Rle; lra).
  change (2 ^ 54) with (2 * (2 * 2 ^ 52)). nra.
Qed.

Lemma isfinite_cond_of_size (A : M33) :
  m22 A <> 0 -> isfinite_cond svdvals_of_size A = true.
Proof.
  intros H. apply isfinite_cond_true.
  unfold smallest_singular_value, largest_singular_value, svdvals_of_size.
  cbn [fst snd].
  set (q := m00 A * m00 A + m01 A * m01 A + m02 A * m02 A
            + m10 A * m10 A + m11 A * m11 A + m12 A * m12 A
            + m20 A * m20 A + m21 A * m21 A + m22 A * m22 A).
  assert (Hq : 0 < q) by (unfold q; nra).
  assert (Hs : sqrt q <> 0).
  { intros E. apply sqrt_eq_0 in E; lra. }
  split; [exact Hs|].
  unfold Rdiv. rewrite Rinv_r by exact Hs. apply float_overflow_above_1.
Qed.

(** The claim as the spec has it fails on the triad of [conic_d], [conic_b]
    and [conic_c]: the difference of the first two is singular, of rank one,
    and not the zero matrix.  For a singular matrix that is not zero the
    computed smallest singular value is as a rule a rounding residue, not
    zero, and the condition number a large finite number; whenever the
    condition numbers of the three differences of this triad are computed as
    finite, the triad is kept and the constructor returns its seven
    invariants. *)
Lemma singular_difference_kept_counterexample :
  det (msub conic_d conic_b) = 0 /\
  msub conic_d conic_b = mkM33 1 2 3 2 4 6 3 6 9 /\
  (forall (svdvals : M33 -> R * R * R) (scale_det : M33 -> result M33),
     isfinite_cond svdvals (msub conic_d conic_b) = true ->
     isfinite_cond svdvals (msub conic_d conic_c) = true ->
     isfinite_cond svdvals (msub conic_b conic_c) = true ->
     In (conic_d, conic_b, conic_c)
        (kept_by (isfinite_cond svdvals) [conic_d] [conic_b] [conic_c]) /\
     init_by (isfinite_cond svdvals) scale_det [(0, 1, 2)%Z]
             [conic_d] [conic_b] [conic_c] false =
       Ok (invariants_of [(0, 1, 2)%Z] [(conic_d, conic_b, conic_c)])) /\
  (smallest_singular_value svdvals_of_size zero3 = 0 /\
   isfinite_cond svdvals_of_size (msub conic_d conic_b) = true /\
   isfinite_cond svdvals_of_size (msub conic_d conic_c) = true /\
   isfinite_cond svdvals_of_size (msub conic_b conic_c) = true).
Proof.
  split; [unfold det, conic_d, conic_b; cbn; ring|].
  split; [unfold conic_d, conic_b; apply M33_eq; cbn; ring|].
  split.
  - intros svdvals scale_det Hab Hac Hbc.
    assert (Hs : survives_by (isfinite_cond svdvals)
                             (conic_d, conic_b, conic_c) = true)
      by (apply survives_by_true; auto).
    assert (Hk : kept_by (isfinite_cond svdvals) [conic_d] [conic_b] [conic_c]
                 = [(conic_d, conic_b, conic_c)]).
    { unfold kept_by. cbn [zip3 filter]. rewrite Hs. reflexivity. }
    split; [rewrite Hk; left; reflexivity|].
    apply init_by_per_triad; try reflexivity.
    exists [(conic_d, conic_b, conic_c)]. rewrite Hk.
    unfold kept_triads_by. cbn [zip3 combine filter map snd fst].
    rewrite Hs. cbn [map fst].
    repeat split. constructor; [apply example_singular_invertible|constructor].
  - split; [apply svdvals_of_size_zero|].
    repeat split; apply isfinite_cond_of_size;
      unfold conic_d, conic_b, conic_c; cbn; lra.
Qed.

(** *** Cyclic rotation of the triads *)

(** C4.  On aligned batches, when [__init__] returns an object for the triads
    [(A, B, C)], it returns one for the rotated triads [(B, C, A)] too, and
    [get_pattern] with [permutation_invariant=True] is the same array for
    both.  In raw mode the two arrays can differ: they do for the example
    triad. *)
Theorem permutation_invariant_under_rotation :
  (forall (scale_det : M33 -> result M33) (triads triads' : list Utils.triad)
          (A B C : list M33) (nd : bool) (o : CoplanarInvariants),
     length triads = length A -> length triads' = length A ->
     length A = length B -> length B = length C ->
     init scale_det triads A B C nd = Ok o ->
     exists o',
       init scale_det triads' B C A nd = Ok o' /\
       get_pattern o' true = get_pattern o true) /\
  (exists o o',
     init scale_det_model [(0, 1, 2)%Z] [conic_a] [conic_b] [conic_c] false = Ok o /\
     init scale_det_model [(1, 2, 0)%Z] [conic_b] [conic_c] [conic_a] false = Ok o' /\
     get_pattern o' false <> get_pattern o false).
Proof.
  split.
  - intros scale_det triads triads' A B C nd o _ _ HAB HBC Hinit.
    apply init_per_triad in Hinit; [|assumption|assumption].
    destruct Hinit as (N & HN & Hinv & ->).
    exists (invariants_of (select (map survives (zip3 B C A)) triads')
                          (map rotate N)).
    split.
    + apply init_per_triad; [congruence|congruence|].
      exists (map rotate N). rewrite kept_rotate.
      split; [apply normalized_rotate; exact HN|]. split; [|reflexivity].
      rewrite Forall_map_iff. rewrite Forall_forall in *.
      intros t Ht. destruct (Hinv t Ht) as (Ha & Hb & Hc).
      destruct t as [[a b] c]. repeat split; assumption.
    + rewrite !get_pattern_perm_of, map_map. f_equal.
      apply map_ext. apply perm_features_rotate.
  - exists (invariants_of [(0, 1, 2)%Z] [(conic_a, conic_b, conic_c)]),
           (invariants_of [(1, 2, 0)%Z] [(conic_b, conic_c, conic_a)]).
    split; [apply example_init|]. split; [apply example_rotated_init|].
    rewrite !get_pattern_raw_of. cbn [map raw_invariants].
    intros H. injection H as H _.
    rewrite example_pair_ab, example_pair_bc in H. lra.
Qed.

Lemma permutation_invariant_under_rotation_example :
  exists o',
    init scale_det_model [(1, 2, 0)%Z] [conic_b] [conic_c] [conic_a] false = Ok o' /\
    get_pattern o' true =
    get_pattern (invariants_of [(0, 1, 2)%Z] [(conic_a, conic_b, conic_c)]) true.
Proof.
  exact (proj1 permutation_invariant_under_rotation scale_det_model
               [(0, 1, 2)%Z] [(1, 2, 0)%Z] [conic_a] [conic_b] [conic_c] false
               (invariants_of [(0, 1, 2)%Z] [(conic_a, conic_b, conic_c)])
               eq_refl eq_refl eq_refl eq_refl (example_init scale_det_model)).
Defined.

(** *** The shape of the pattern *)

Lemma get_pattern_perm_rows (triads : list Utils.triad)
      (N : list (M33 * M33 * M33)) (o : CoplanarInvariants) :
  o = invariants_of triads N ->
  get_pattern o true =
  [ lift3 PermutationInvariant.F1 (I_ij o) (I_jk o) (I_ki o);
    lift3 PermutationInvariant.F2 (I_ij o) (I_jk o) (I_ki o);
    lift3 PermutationInvariant.F3 (I_ij o) (I_jk o) (I_ki o);
    lift3 PermutationInvariant.F1 (I_ji o) (I_kj o) (I_ik o);
    map2 Rdiv
         (lift6 PermutationInvariant.G1
                (I_ij o) (I_jk o) (I_ki o) (I_ji o) (I_kj o) (I_ik o))
         (lift6 PermutationInvariant.G_norm
                (I_ij o) (I_jk o) (I_ki o) (I_ji o) (I_kj o) (I_ik o));
    map2 Rdiv
         (lift6 PermutationInvariant.G2
                (I_ij o) (I_jk o) (I_ki o) (I_ji o) (I_kj o) (I_ik o))
         (lift6 PermutationInvariant.G_norm
                (I_ij o) (I_jk o) (I_ki o) (I_ji o) (I_kj o) (I_ik o));
    I_ijk o ].
Proof.
  intros ->. unfold get_pattern, len, invariants_of.
  cbn [I_ij I_ji I_ik I_ki I_jk I_kj I_ijk].
  unfold PermutationInvariant.F, PermutationInvariant.G_tilde,
    PermutationInvariant.G. cbn [map].
  rewrite !lift3_map_same, !lift6_map_same, !map2_map_same.
  apply column_stack_perm; rewrite !length_map; reflexivity.
Qed.

(** C6 as the code has it.  On aligned batches, an object [o] returned by
    [__init__] gives, with [permutation_invariant=True], an array of exactly
    seven rows, one value per kept triad in each: [F1], [F2], [F3] of
    [(I_ij, I_jk, I_ki)], then [F1] of [(I_ji, I_kj, I_ik)], then
    [G1-tilde] and [G2-tilde], then [I_ijk]; the column of a kept triad holds
    its seven features.  In raw mode it gives one row of seven values per
    kept triad. *)
Theorem pattern_has_seven_features (scale_det : M33 -> result M33)
        (triads : list Utils.triad) (A_i A_j A_k : list M33) (nd : bool)
        (o : CoplanarInvariants) :
  length triads = length A_i ->
  length A_i = length A_j -> length A_j = length A_k ->
  init scale_det triads A_i A_j A_k nd = Ok o ->
  get_pattern o true =
    [ lift3 PermutationInvariant.F1 (I_ij o) (I_jk o) (I_ki o);
      lift3 PermutationInvariant.F2 (I_ij o) (I_jk o) (I_ki o);
      lift3 PermutationInvariant.F3 (I_ij o) (I_jk o) (I_ki o);
      lift3 PermutationInvariant.F1 (I_ji o) (I_kj o) (I_ik o);
      map2 Rdiv
           (lift6 PermutationInvariant.G1
                  (I_ij o) (I_jk o) (I_ki o) (I_ji o) (I_kj o) (I_ik o))
           (lift6 PermutationInvariant.G_norm
                  (I_ij o) (I_jk o) (I_ki o) (I_ji o) (I_kj o) (I_ik o));
      map2 Rdiv
           (lift6 PermutationInvariant.G2
                  (I_ij o) (I_jk o) (I_ki o) (I_ji o) (I_kj o) (I_ik o))
           (lift6 PermutationInvariant.G_norm
                  (I_ij o) (I_jk o) (I_ki o) (I_ji o) (I_kj o) (I_ik o));
      I_ijk o ] /\
  length (get_pattern o true) = 7%nat /\
  (forall row, In row (get_pattern o true) ->
               length row = length (crater_triads o)) /\
  length (get_pattern o false) = length (crater_triads o) /\
  (forall row, In row (get_pattern o false) -> length row = 7%nat) /\
  exists N,
    normalized scale_det nd (kept A_i A_j A_k) N /\
    get_pattern o true = T 7 (map perm_features N) /\
    get_pattern o false = map raw_invariants N.
Proof.
  intros H0 H12 H23 Hinit.
  apply init_per_triad in Hinit; [|assumption|assumption].
  destruct Hinit as (N & HN & Hinv & Ho).
  destruct (length_kept_triads triads A_i A_j A_k H0 H12 H23) as (S0 & HL).
  assert (Hlen : length (crater_triads o) = length N).
  { rewrite Ho. cbn [crater_triads invariants_of]. rewrite S0, HL.
    symmetry. eapply normalized_length. exact HN. }
  split; [eapply get_pattern_perm_rows; exact Ho|].
  assert (Hperm : get_pattern o true = T 7 (map perm_features N))
    by (rewrite Ho; apply get_pattern_perm_of).
  assert (Hraw : get_pattern o false = map raw_invariants N)
    by (rewrite Ho; apply get_pattern_raw_of).
  split; [rewrite Hperm; apply length_T|].
  split.
  { intros row Hrow. rewrite Hperm in Hrow. apply T_row_length in Hrow.
    rewrite Hrow, length_map. symmetry. exact Hlen. }
  split; [rewrite Hraw, length_map; symmetry; exact Hlen|].
  split.
  { intros row Hrow. rewrite Hraw in Hrow. apply in_map_iff in Hrow.
    destruct Hrow as [[[a b] c] [<- _]]. reflexivity. }
  exists N. auto.
Qed.

Lemma pattern_has_seven_features_example :
  length (get_pattern
            (invariants_of [(0, 1, 2)%Z] [(conic_a, conic_b, conic_c)]) true)
  = 7%nat /\
  length (get_pattern
            (invariants_of [(0, 1, 2)%Z] [(conic_a, conic_b, conic_c)]) false)
  = 1%nat.
Proof.
  destruct (@pattern_has_seven_features scale_det_model
              [(0, 1, 2)%Z] [conic_a] [conic_b] [conic_c] false
              (invariants_of [(0, 1, 2)%Z] [(conic_a, conic_b, conic_c)])
              eq_refl eq_refl eq_refl (example_init scale_det_model))
    as (_ & H7 & _ & H1 & _).
  split; [exact H7|exact H1].
Defined.

(** C6 as the spec states it fails: for the example triad the
    permutation-invariant pattern holds seven values, not six, and the fourth
    is [F1] of the reverse-order triple. *)
Lemma pattern_six_features_counterexample :
  exists o,
    init scale_det_model [(0, 1, 2)%Z] [conic_a] [conic_b] [conic_c] false = Ok o /\
    length (crater_triads o) = 1%nat /\
    length (get_pattern o true) = 7%nat /\
    length (get_pattern o true) <> 6%nat /\
    nth 3 (get_pattern o true) [] =
      [PermutationInvariant.F1 (pair_invariant conic_b conic_a)
                               (pair_invariant conic_c conic_b)
                               (pair_invariant conic_a conic_c)].
Proof.
  exists (invariants_of [(0, 1, 2)%Z] [(conic_a, conic_b, conic_c)]).
  split; [apply example_init|]. split; [reflexivity|].
  rewrite get_pattern_perm_of. unfold T. cbn [seq map length nth].
  split; [reflexivity|]. split; [discriminate|reflexivity].
Qed.

(** *** Canonical orientation *)

Lemma mask_assign_select_map {A : Type} (f : A -> A) (mask : list bool)
      (l : list A) :
  length mask = length l ->
  mask_assign mask l (map f (select mask l)) =
  map (fun p : bool * A => if fst p then f (snd p) else snd p)
      (combine mask l).
Proof.
  revert l. induction mask as [|b mask IH]; intros [|x l] H; simpl in *;
    try discriminate; [reflexivity|].
  injection H as H. destruct b; simpl; rewrite IH by exact H; reflexivity.
Qed.

Lemma assign_columns_unzip3 (mask : list bool) (l v : list (R * R * R)) :
  assign_columns mask (unzip3 l) (unzip3 v) = unzip3 (mask_assign mask l v).
Proof.
  unfold assign_columns, unzip3. revert l v.
  induction mask as [|b mask IH]; intros l v; [destruct l; reflexivity|].
  destruct b, l as [|x l]; try reflexivity.
  - destruct v as [|y v]; [reflexivity|].
    cbn [map mask_assign]. specialize (IH l v).
    injection IH as E1 E2 E3. rewrite E1, E2, E3. reflexivity.
  - cbn [map mask_assign]. specialize (IH l v).
    injection IH as E1 E2 E3. rewrite E1, E2, E3. reflexivity.
Qed.

Lemma transpose_unzip3 (l : list (R * R * R)) :
  transpose_rows3 (unzip3 l) = l.
Proof. unfold transpose_rows3, unzip3. apply (zip3_unzip3 l). Qed.

Lemma is_clockwise_rows (xs ys : list (R * R * R)) :
  Utils.is_clockwise (unzip3 xs) (unzip3 ys) =
  map (fun p => if Rlt_dec (triad_area (fst p) (snd p)) 0 then true else false)
      (combine xs ys).
Proof.
  unfold Utils.is_clockwise, Utils.cw_or_ccw, unzip3, triad_area.
  revert ys. induction xs as [|x xs IH]; intros [|y ys]; try reflexivity.
  cbn [map lift6 combine fst snd]. rewrite <- IH. reflexivity.
Qed.

Lemma swap_if_not_clockwise_eq (t : Utils.triad) (x y : R * R * R) :
  swap_if_not_clockwise (t, x, y) =
  if Rlt_dec (triad_area x y) 0 then (t, x, y)
  else (Utils.swap01 t, Utils.swap01 x, Utils.swap01 y).
Proof. reflexivity. Qed.

Lemma masked_swap_rows (xs ys : list (R * R * R)) (triads : list Utils.triad) :
  length xs = length triads -> length ys = length triads ->
  let mask :=
    map negb
        (map (fun p => if Rlt_dec (triad_area (fst p) (snd p)) 0
                       then true else false) (combine xs ys)) in
  map (fun p : bool * Utils.triad =>
         if fst p then Utils.swap01 (snd p) else snd p) (combine mask triads) =
    map (fun t => fst3 (swap_if_not_clockwise t)) (zip3 triads xs ys) /\
  map (fun p : bool * (R * R * R) =>
         if fst p then Utils.swap01 (snd p) else snd p) (combine mask xs) =
    map (fun t => snd3 (swap_if_not_clockwise t)) (zip3 triads xs ys) /\
  map (fun p : bool * (R * R * R) =>
         if fst p then Utils.swap01 (snd p) else snd p) (combine mask ys) =
    map (fun t => thd3 (swap_if_not_clockwise t)) (zip3 triads xs ys).
Proof.
  cbv zeta. revert xs ys.
  induction triads as [|t triads IH]; intros [|x xs] [|y ys] Hx Hy;
    simpl in Hx, Hy; try discriminate; [repeat split|].
  injection Hx as Hx. injection Hy as Hy.
  destruct (IH xs ys Hx Hy) as (E1 & E2 & E3).
  cbn [combine map zip3 fst snd]. rewrite E1, E2, E3.
  rewrite (swap_if_not_clockwise_eq t x y).
  destruct (Rlt_dec (triad_area x y) 0); cbn [negb fst snd]; repeat split.
Qed.

Lemma swap_pass_rows (xs ys : list (R * R * R)) (triads : list Utils.triad) :
  length xs = length triads -> length ys = length triads ->
  swap_pass (unzip3 xs) (unzip3 ys) triads =
  (map (fun t => fst3 (swap_if_not_clockwise t)) (zip3 triads xs ys),
   unzip3 (map (fun t => snd3 (swap_if_not_clockwise t)) (zip3 triads xs ys)),
   unzip3 (map (fun t => thd3 (swap_if_not_clockwise t)) (zip3 triads xs ys))).
Proof.
  intros Hx Hy. unfold swap_pass. cbv zeta.
  rewrite !transpose_unzip3. unfold Utils.np_swap_columns.
  rewrite !assign_columns_unzip3, is_clockwise_rows.
  assert (Hm : forall {A : Type} (l : list A),
             length l = length triads ->
             length (map negb
                      (map (fun p => if Rlt_dec (triad_area (fst p) (snd p)) 0
                                     then true else false) (combine xs ys)))
             = length l).
  { intros A l Hl. rewrite !length_map, length_combine. lia. }
  rewrite !mask_assign_select_map by (apply Hm; auto).
  destruct (masked_swap_rows xs ys triads Hx Hy) as (E1 & E2 & E3).
  apply f_equal2; [apply f_equal2|];
    [exact E1 | apply f_equal; exact E2 | apply f_equal; exact E3].
Qed.

Lemma triad_area_swap01 (x y : R * R * R) :
  triad_area (Utils.swap01 x) (Utils.swap01 y) = - triad_area x y.
Proof.
  destruct x as [[x0 x1] x2], y as [[y0 y1] y2].
  unfold triad_area, Utils.signed_area, det, fst3, snd3, thd3. cbn. ring.
Qed.

Lemma combine_map_same {X A B : Type} (f : X -> A) (g : X -> B) (l : list X) :
  combine (map f l) (map g l) = map (fun t => (f t, g t)) l.
Proof.
  induction l as [|x l IH]; simpl; [reflexivity|]. rewrite IH. reflexivity.
Qed.

(** After the swap a triad is clockwise unless its points are colinear. *)
Lemma clockwise_after_swap (t : Utils.triad * (R * R * R) * (R * R * R)) :
  (if Rlt_dec (triad_area (snd3 (swap_if_not_clockwise t))
                          (thd3 (swap_if_not_clockwise t))) 0
   then true else false) =
  (if Req_dec_T (triad_area (snd3 t) (thd3 t)) 0 then false else true).
Proof.
  destruct t as [[ijk x] y]. rewrite swap_if_not_clockwise_eq.
  unfold snd3, thd3. cbn [fst snd].
  destruct (Rlt_dec (triad_area x y) 0) as [Hcw|Hcw]; cbn [fst snd].
  - destruct (Rlt_dec (triad_area x y) 0), (Req_dec_T (triad_area x y) 0);
      try reflexivity; exfalso; lra.
  - rewrite triad_area_swap01.
    destruct (Rlt_dec (- triad_area x y) 0), (Req_dec_T (triad_area x y) 0);
      try reflexivity; exfalso; lra.
Qed.

(** C5 as the code has it.  On the gathered coordinates of a list of triads,
    the swap of lines 146-151 leaves a clockwise triad as it is and, for a
    triad that is not clockwise, exchanges the first two indices, [(i, j, k)]
    becoming [(j, i, k)], together with the first two entries of its [x] and
    of its [y] coordinates.  The exchange negates the signed area, so a triad
    that was neither clockwise nor colinear is clockwise afterwards, and the
    clockwise test on the swapped arrays fails for the colinear triads
    only. *)
Theorem not_clockwise_swaps_first_two (xs ys : list (R * R * R))
        (triads : list Utils.triad) :
  length xs = length triads -> length ys = length triads ->
  swap_pass (unzip3 xs) (unzip3 ys) triads =
    (map (fun t => fst3 (swap_if_not_clockwise t)) (zip3 triads xs ys),
     unzip3 (map (fun t => snd3 (swap_if_not_clockwise t)) (zip3 triads xs ys)),
     unzip3 (map (fun t => thd3 (swap_if_not_clockwise t)) (zip3 triads xs ys))) /\
  (forall i j k x0 x1 x2 y0 y1 y2,
     ~ triad_area (x0, x1, x2) (y0, y1, y2) < 0 ->
     swap_if_not_clockwise ((i, j, k), (x0, x1, x2), (y0, y1, y2)) =
     ((j, i, k), (x1, x0, x2), (y1, y0, y2))) /\
  (forall t x y,
     triad_area x y < 0 -> swap_if_not_clockwise (t, x, y) = (t, x, y)) /\
  (forall t x y,
     0 < triad_area x y ->
     triad_area (snd3 (swap_if_not_clockwise (t, x, y)))
                (thd3 (swap_if_not_clockwise (t, x, y))) < 0) /\
  (let '(_, x_triads, y_triads) :=
     swap_pass (unzip3 xs) (unzip3 ys) triads in
   Utils.is_clockwise x_triads y_triads =
   map (fun t => if Req_dec_T (triad_area (snd3 t) (thd3 t)) 0
                 then false else true)
       (zip3 triads xs ys)).
Proof.
  intros Hx Hy. split; [apply swap_pass_rows; assumption|].
  split.
  { intros i j k x0 x1 x2 y0 y1 y2 H. rewrite swap_if_not_clockwise_eq.
    destruct (Rlt_dec (triad_area (x0, x1, x2) (y0, y1, y2)) 0);
      [contradiction|reflexivity]. }
  split.
  { intros t x y H. rewrite swap_if_not_clockwise_eq.
    destruct (Rlt_dec (triad_area x y) 0); [reflexivity|contradiction]. }
  split.
  { intros t x y H. rewrite swap_if_not_clockwise_eq.
    destruct (Rlt_dec (triad_area x y) 0); [lra|].
    unfold snd3, thd3. cbn [fst snd]. rewrite triad_area_swap01. lra. }
  rewrite swap_pass_rows by assumption.
  rewrite is_clockwise_rows, combine_map_same, map_map.
  apply map_ext. intros t. cbn [fst snd]. apply clockwise_after_swap.
Qed.

Lemma not_clockwise_swaps_first_two_example :
  swap_pass (unzip3 [(0, 1, 0)]) (unzip3 [(0, 0, 1)]) [(0, 1, 2)%Z] =
  (map (fun t => fst3 (swap_if_not_clockwise t))
       (zip3 [(0, 1, 2)%Z] [(0, 1, 0)] [(0, 0, 1)]),
   unzip3 (map (fun t => snd3 (swap_if_not_clockwise t))
               (zip3 [(0, 1, 2)%Z] [(0, 1, 0)] [(0, 0, 1)])),
   unzip3 (map (fun t => thd3 (swap_if_not_clockwise t))
               (zip3 [(0, 1, 2)%Z] [(0, 1, 0)] [(0, 0, 1)]))).
Proof.
  exact (proj1 (@not_clockwise_swaps_first_two
                  [(0, 1, 0)] [(0, 0, 1)] [(0, 1, 2)%Z] eq_refl eq_refl)).
Defined.

(** C5 as the spec states it fails.  The points [(0, 0)], [(1, 0)], [(0, 1)],
    indexed 0, 1, 2, are neither clockwise nor colinear; the swap turns the
    triad [(0, 1, 2)] into [(1, 0, 2)], not into [(0, 2, 1)]. *)
Lemma swap_last_two_counterexample :
  index_triads [0; 1; 0] [(0, 1, 2)%Z] = Ok [(0, 1, 0)] /\
  index_triads [0; 0; 1] [(0, 1, 2)%Z] = Ok [(0, 0, 1)] /\
  0 < triad_area (0, 1, 0) (0, 0, 1) /\
  fst (fst (swap_pass (unzip3 [(0, 1, 0)]) (unzip3 [(0, 0, 1)]) [(0, 1, 2)%Z])) =
    [(1, 0, 2)%Z] /\
  fst (fst (swap_pass (unzip3 [(0, 1, 0)]) (unzip3 [(0, 0, 1)]) [(0, 1, 2)%Z])) <>
    [(0, 2, 1)%Z].
Proof.
  assert (Harea : 0 < triad_area (0, 1, 0) (0, 0, 1)).
  { unfold triad_area, Utils.signed_area, det, fst3, snd3, thd3. cbn. lra. }
  assert (Hswap :
    fst (fst (swap_pass (unzip3 [(0, 1, 0)]) (unzip3 [(0, 0, 1)]) [(0, 1, 2)%Z])) =
    [(1, 0, 2)%Z]).
  { rewrite swap_pass_rows by reflexivity. cbn [fst zip3 map].
    rewrite swap_if_not_clockwise_eq.
    destruct (Rlt_dec (triad_area (0, 1, 0) (0, 0, 1)) 0); [lra|reflexivity]. }
  split; [reflexivity|]. split; [reflexivity|]. split; [exact Harea|].
  split; [exact Hswap|]. rewrite Hswap. discriminate.
Qed.

(** *** [from_detection_conics] never returns an instance *)

Lemma length_set_row (arr arr' : list Utils.triad) (it : nat) (row : Utils.triad) :
  set_row arr it row = Ok arr' -> length arr' = length arr.
Proof.
  unfold set_row. destruct (Nat.ltb it (length arr)) eqn:E; [|discriminate].
  apply Nat.ltb_lt in E. intros H. injection H as <-.
  change (length (firstn it arr ++ row :: skipn (S it) arr) = length arr).
  rewrite length_app, length_firstn.
  change (length (row :: skipn (S it) arr))
    with (S (length (skipn (S it) arr))).
  rewrite length_skipn. lia.
Qed.

Lemma assign_rows_ok (rows arr : list Utils.triad) (it : nat) :
  (it + length rows <= length arr)%nat ->
  exists arr', assign_rows arr it rows = Ok arr'.
Proof.
  revert arr it. induction rows as [|row rows IH]; intros arr it H.
  - exists arr. reflexivity.
  - cbn [assign_rows length] in *.
    destruct (set_row arr it row) as [arr1|e] eqn:E.
    + cbn [bind]. apply IH. rewrite (length_set_row _ _ _ E). lia.
    + unfold set_row in E.
      destruct (Nat.ltb it (length arr)) eqn:El; [discriminate|].
      apply Nat.ltb_ge in El. lia.
Qed.

(** The array allocated at line 139 has room for every enumerated triad. *)
Lemma generated_triads_ok (n : nat) :
  exists triads, generated_triads (Z.of_nat n) = Ok triads.
Proof.
  unfold generated_triads. apply assign_rows_ok.
  rewrite repeat_length. simpl.
  destruct (Z_lt_le_dec (Z.of_nat n) 3) as [Hs|Hl].
  - destruct n as [|[|[|n]]]; [cbn; lia ..|lia].
  - assert (H := Utils.enhanced_pattern_shifting_length Hl). lia.
Qed.

Lemma load_global_x_pix :
  load_global module_globals "x_pix" = Raise (NameError "x_pix").
Proof. reflexivity. Qed.

Lemma from_detection_conics_NameError (A_craters : list M33)
      (crater_triads : option (list Utils.triad)) :
  from_detection_conics A_craters crater_triads = Raise (NameError "x_pix").
Proof.
  unfold from_detection_conics, from_detection_conics_in.
  destruct crater_triads as [triads|].
  - reflexivity.
  - destruct (generated_triads_ok (length A_craters)) as [triads ->].
    reflexivity.
Qed.

Lemma from_detection_conics_in_no_instance (globals : list (string * pyobj))
      (A_craters : list M33) (crater_triads : option (list Utils.triad))
      (r : option CoplanarInvariants) :
  from_detection_conics_in globals A_craters crater_triads = Ok r -> r = None.
Proof.
  unfold from_detection_conics_in. intros H.
  repeat (apply bind_ok in H; destruct H as [? [_ H]]).
  inversion H. reflexivity.
Qed.

Lemma run_generator_raise_all {A : Type} (steps : list (result A)) :
  (forall s, In s steps -> exists e, s = Raise e) ->
  run_generator steps = ([], None) \/
  exists e, run_generator steps = ([], Some e).
Proof.
  destruct steps as [|s steps]; intros H; [left; reflexivity|].
  destruct (H s (or_introl eq_refl)) as [e ->]. right. exists e. reflexivity.
Qed.

(** C10.  Whatever it is passed, with or without [crater_triads],
    [from_detection_conics] raises [NameError] for [x_pix]; and even in a
    module that did bind [x_pix] and [y_pix] its body, which has no [return],
    could only return [None].  So [from_detection] raises for every input,
    and [match_generator] yields nothing: it ends at once when the enumerator
    is empty and raises at its first step otherwise. *)
Theorem from_detection_conics_never_returns :
  (forall A_craters crater_triads,
     from_detection_conics A_craters crater_triads = Raise (NameError "x_pix")) /\
  (forall globals A_craters crater_triads r,
     from_detection_conics_in globals A_craters crater_triads = Ok r ->
     r = None) /\
  (forall crater_representation x_pix y_pix a_pix b_pix psi_pix conv crater_triads,
     exists e,
       from_detection crater_representation x_pix y_pix a_pix b_pix psi_pix
                      conv crater_triads = Raise e) /\
  (forall crater_representation x_pix y_pix a_pix b_pix psi_pix (conv : bool)
          A_craters crater_triads,
     crater_representation a_pix b_pix
       (if conv then map radians psi_pix else psi_pix) x_pix y_pix = Ok A_craters ->
     from_detection crater_representation x_pix y_pix a_pix b_pix psi_pix
                    conv crater_triads = Raise (NameError "x_pix")) /\
  (forall crater_representation x_pix y_pix a_pix b_pix psi_pix conv,
     fst (match_generator crater_representation x_pix y_pix a_pix b_pix
                          psi_pix conv) = [] /\
     (Utils.enhanced_pattern_shifting (Z.of_nat (length x_pix)) = [] ->
      match_generator crater_representation x_pix y_pix a_pix b_pix psi_pix conv
      = ([], None)) /\
     (Utils.enhanced_pattern_shifting (Z.of_nat (length x_pix)) <> [] ->
      exists e,
        match_generator crater_representation x_pix y_pix a_pix b_pix psi_pix
                        conv = ([], Some e))).
Proof.
  assert (Hfd : forall crater_representation x_pix y_pix a_pix b_pix psi_pix
                       conv crater_triads,
             exists e,
               from_detection crater_representation x_pix y_pix a_pix b_pix
                              psi_pix conv crater_triads = Raise e).
  { intros cr x y a b psi conv triads. unfold from_detection.
    destruct (cr a b (if conv then map radians psi else psi) x y) as [A|e].
    - exists (NameError "x_pix"). cbn [bind].
      apply from_detection_conics_NameError.
    - exists e. reflexivity. }
  split; [exact from_detection_conics_NameError|].
  split; [exact from_detection_conics_in_no_instance|].
  split; [exact Hfd|].
  split.
  { intros cr x y a b psi conv A triads HA. unfold from_detection.
    rewrite HA. cbn [bind]. apply from_detection_conics_NameError. }
  intros cr x y a b psi conv. unfold match_generator.
  destruct (Utils.enhanced_pattern_shifting (Z.of_nat (length x))) as [|t ts].
  - repeat split; try reflexivity. intros H. contradiction.
  - cbn [map run_generator].
    destruct (Hfd cr x y a b psi conv (Some [t])) as [e ->]. cbn [bind].
    repeat split; try reflexivity; [discriminate|].
    intros _. exists e. reflexivity.
Qed.

(** *** The fallbacks of the canonicalization *)

Lemma is_colinear_rows (xs ys : list (R * R * R)) :
  Utils.is_colinear (unzip3 xs) (unzip3 ys) =
  map (fun p => if Req_dec_T (triad_area (fst p) (snd p)) 0 then true else false)
      (combine xs ys).
Proof.
  unfold Utils.is_colinear, Utils.cw_or_ccw, unzip3, triad_area.
  revert ys. induction xs as [|x xs IH]; intros [|y ys]; try reflexivity.
  cbn [map lift6 combine fst snd]. rewrite <- IH. reflexivity.
Qed.

Lemma select_columns_unzip3 (mask : list bool) (l : list (R * R * R)) :
  select_columns mask (unzip3 l) = unzip3 (select mask l).
Proof.
  unfold select_columns, unzip3. revert l.
  induction mask as [|b mask IH]; intros [|x l]; try reflexivity.
  cbn [map select]. specialize (IH l). injection IH as E1 E2 E3.
  destruct b; cbn [map]; rewrite E1, E2, E3; reflexivity.
Qed.

Lemma select_map_filter {X A : Type} (f : X -> bool) (g : X -> A) (l : list X) :
  select (map f l) (map g l) = map g (filter f l).
Proof.
  induction l as [|x l IH]; [reflexivity|].
  cbn [map select filter]. destruct (f x); cbn [map]; rewrite IH; reflexivity.
Qed.

(** The swapped triad is never counter-clockwise. *)
Lemma swap_if_not_clockwise_area (t : Utils.triad * (R * R * R) * (R * R * R)) :
  triad_area (snd3 (swap_if_not_clockwise t))
             (thd3 (swap_if_not_clockwise t)) <= 0.
Proof.
  destruct t as [[ijk x] y]. rewrite swap_if_not_clockwise_eq.
  destruct (Rlt_dec (triad_area x y) 0) as [H|H]; unfold snd3, thd3;
    cbn [fst snd]; [lra|].
  rewrite triad_area_swap01. lra.
Qed.

Lemma canonicalize_rows (xs ys : list (R * R * R)) (triads : list Utils.triad) :
  length xs = length triads -> length ys = length triads ->
  canonicalize (unzip3 xs) (unzip3 ys) triads =
  (map fst3 (kept_after_swap triads xs ys),
   unzip3 (map snd3 (kept_after_swap triads xs ys)),
   unzip3 (map thd3 (kept_after_swap triads xs ys))).
Proof.
  intros Hx Hy. unfold canonicalize, kept_after_swap.
  rewrite swap_pass_rows by assumption.
  rewrite <- !(map_map swap_if_not_clockwise).
  set (U := map swap_if_not_clockwise (zip3 triads xs ys)).
  assert (HU : forall u, In u U -> triad_area (snd3 u) (thd3 u) <= 0).
  { intros u Hu. apply in_map_iff in Hu. destruct Hu as [t [<- _]].
    apply swap_if_not_clockwise_area. }
  clearbody U.
  set (cw := fun u : Utils.triad * (R * R * R) * (R * R * R) =>
               if Rlt_dec (triad_area (snd3 u) (thd3 u)) 0 then true else false).
  set (ncol := fun u : Utils.triad * (R * R * R) * (R * R * R) =>
                 if Req_dec_T (triad_area (snd3 u) (thd3 u)) 0
                 then false else true).
  assert (Hcw : forall V, Utils.all_clockwise (unzip3 (map snd3 V))
                                              (unzip3 (map thd3 V))
                          = forallb cw V).
  { intros V. unfold Utils.all_clockwise.
    rewrite is_clockwise_rows, combine_map_same, map_map.
    rewrite (map_ext _ cw) by (intros u; reflexivity).
    induction V as [|v V IH]; [reflexivity|].
    cbn [map forallb]. rewrite IH. reflexivity. }
  assert (Hcol : Utils.is_colinear (unzip3 (map snd3 U)) (unzip3 (map thd3 U))
                 = map (fun u => negb (ncol u)) U).
  { rewrite is_colinear_rows, combine_map_same, map_map.
    apply map_ext. intros u. unfold ncol. cbn [fst snd].
    destruct (Req_dec_T (triad_area (snd3 u) (thd3 u)) 0); reflexivity. }
  assert (Hkeep : forallb cw (filter ncol U) = true).
  { apply forallb_forall. intros u Hu. apply filter_In in Hu.
    destruct Hu as [Hu Hn]. specialize (HU u Hu). unfold cw, ncol in *.
    destruct (Req_dec_T (triad_area (snd3 u) (thd3 u)) 0); [discriminate|].
    destruct (Rlt_dec (triad_area (snd3 u) (thd3 u)) 0); [reflexivity|].
    exfalso. lra. }
  rewrite Hcw. destruct (forallb cw U) eqn:Hall; cbn [negb].
  - assert (Hfil : filter ncol U = U).
    { clear -Hall. induction U as [|u U IH]; [reflexivity|].
      cbn [forallb] in Hall. apply andb_true_iff in Hall.
      destruct Hall as [Hu Hall]. cbn [filter].
      unfold cw, ncol in *.
      destruct (Rlt_dec (triad_area (snd3 u) (thd3 u)) 0); [|discriminate].
      destruct (Req_dec_T (triad_area (snd3 u) (thd3 u)) 0); [exfalso; lra|].
      rewrite IH by exact Hall. reflexivity. }
    rewrite Hfil. reflexivity.
  - rewrite Hcol, !select_columns_unzip3. rewrite !map_map.
    rewrite <- (map_map (fun u => negb (ncol u)) negb).
    assert (Hneg : map negb (map (fun u => negb (ncol u)) U) = map ncol U).
    { rewrite map_map. apply map_ext. intros u. apply negb_involutive. }
    rewrite Hneg, !select_map_filter, Hcw, Hkeep. reflexivity.
Qed.

Lemma kept_after_swap_clockwise (triads : list Utils.triad)
      (xs ys : list (R * R * R)) (u : Utils.triad * (R * R * R) * (R * R * R)) :
  In u (kept_after_swap triads xs ys) -> triad_area (snd3 u) (thd3 u) < 0.
Proof.
  intros Hu. unfold kept_after_swap in Hu. apply filter_In in Hu.
  destruct Hu as [Hu Hn]. apply in_map_iff in Hu.
  destruct Hu as [t [<- _]].
  assert (Hle := swap_if_not_clockwise_area t).
  destruct (Req_dec_T (triad_area (snd3 (swap_if_not_clockwise t))
                                  (thd3 (swap_if_not_clockwise t))) 0);
    [discriminate|lra].
Qed.

Lemma In_zip3_fst {A B C : Type} (l1 : list A) (l2 : list B) (l3 : list C)
      (t : A * B * C) :
  In t (zip3 l1 l2 l3) -> In (fst3 t) l1.
Proof.
  revert l2 l3. induction l1 as [|a l1 IH]; intros [|b l2] [|c l3] H;
    try contradiction.
  cbn [zip3] in H. destruct H as [<-|H]; [left; reflexivity|].
  right. eapply IH. exact H.
Qed.

Lemma swap01_swap01 {A : Type} (t : A * A * A) :
  Utils.swap01 (Utils.swap01 t) = t.
Proof. destruct t as [[a b] c]. reflexivity. Qed.

(** X2.  What the canonicalization of lines 146-164 returns, on the
    gathered coordinates of a list of triads: the returned arrays pass
    [all_clockwise], [is_clockwise] holds and [is_colinear] fails for every
    returned triad, so that once the first fallback has run nothing is left
    for the second to remove; and every returned triad is a triad that was
    passed, as it was or with its first two members exchanged. *)
Theorem canonicalize_keeps_clockwise (xs ys : list (R * R * R))
        (triads : list Utils.triad) :
  length xs = length triads -> length ys = length triads ->
  let '(triads_cw, x_triads, y_triads) :=
    canonicalize (unzip3 xs) (unzip3 ys) triads in
  Utils.all_clockwise x_triads y_triads = true /\
  Utils.is_clockwise x_triads y_triads = map (fun _ => true) triads_cw /\
  Utils.is_colinear x_triads y_triads = map (fun _ => false) triads_cw /\
  (forall t, In t triads_cw -> In t triads \/ In (Utils.swap01 t) triads).
Proof.
  intros Hx Hy. rewrite canonicalize_rows by assumption.
  assert (Hneg : forall u, In u (kept_after_swap triads xs ys) ->
                           triad_area (snd3 u) (thd3 u) < 0)
    by (intros u; apply kept_after_swap_clockwise).
  assert (Hcw : Utils.is_clockwise
                  (unzip3 (map snd3 (kept_after_swap triads xs ys)))
                  (unzip3 (map thd3 (kept_after_swap triads xs ys))) =
                map (fun _ => true) (map fst3 (kept_after_swap triads xs ys))).
  { rewrite is_clockwise_rows, combine_map_same, !map_map.
    apply map_ext_in. intros u Hu. cbn [fst snd].
    destruct (Rlt_dec (triad_area (snd3 u) (thd3 u)) 0); [reflexivity|].
    exfalso. specialize (Hneg u Hu). lra. }
  split; [|split; [exact Hcw|split]].
  - unfold Utils.all_clockwise. rewrite Hcw.
    apply forallb_forall. intros b Hb. apply in_map_iff in Hb.
    destruct Hb as [u [<- _]]. reflexivity.
  - rewrite is_colinear_rows, combine_map_same, !map_map.
    apply map_ext_in. intros u Hu. cbn [fst snd].
    destruct (Req_dec_T (triad_area (snd3 u) (thd3 u)) 0) as [E|E];
      [|reflexivity].
    exfalso. specialize (Hneg u Hu). lra.
  - intros t Ht. apply in_map_iff in Ht. destruct Ht as (u & <- & Hu).
    unfold kept_after_swap in Hu. apply filter_In in Hu.
    destruct Hu as [Hu _]. apply in_map_iff in Hu.
    destruct Hu as ([[t0 x0] y0] & <- & Ht0).
    apply In_zip3_fst in Ht0. unfold fst3 in Ht0. cbn [fst] in Ht0.
    rewrite swap_if_not_clockwise_eq.
    destruct (Rlt_dec (triad_area x0 y0) 0); unfold fst3; cbn [fst].
    + left. exact Ht0.
    + right. rewrite swap01_swap01. exact Ht0.
Qed.

Lemma canonicalize_keeps_clockwise_example :
  let '(triads_cw, x_triads, y_triads) :=
    canonicalize (unzip3 [(0, 1, 0)]) (unzip3 [(0, 0, 1)]) [(0, 1, 2)%Z] in
  Utils.all_clockwise x_triads y_triads = true /\
  Utils.is_clockwise x_triads y_triads = map (fun _ => true) triads_cw /\
  Utils.is_colinear x_triads y_triads = map (fun _ => false) triads_cw /\
  (forall t, In t triads_cw ->
             In t [(0, 1, 2)%Z] \/ In (Utils.swap01 t) [(0, 1, 2)%Z]).
Proof.
  exact (@canonicalize_keeps_clockwise [(0, 1, 0)] [(0, 0, 1)] [(0, 1, 2)%Z]
                                       eq_refl eq_refl).
Defined.

Lemma kept_after_swap_fixed
      (U : list (Utils.triad * (R * R * R) * (R * R * R))) :
  (forall u, In u U -> triad_area (snd3 u) (thd3 u) < 0) ->
  kept_after_swap (map fst3 U) (map snd3 U) (map thd3 U) = U.
Proof.
  intros HU. unfold kept_after_swap. rewrite zip3_unzip3.
  induction U as [|u U IH]; [reflexivity|].
  assert (Hu := HU u (or_introl eq_refl)).
  assert (Hs : swap_if_not_clockwise u = u).
  { unfold swap_if_not_clockwise.
    destruct (Rlt_dec (triad_area (snd3 u) (thd3 u)) 0);
      [reflexivity|contradiction]. }
  cbn [map filter]. rewrite Hs.
  destruct (Req_dec_T (triad_area (snd3 u) (thd3 u)) 0); [exfalso; lra|].
  rewrite IH by (intros v Hv; apply HU; right; exact Hv). reflexivity.
Qed.

(** X5.  Canonicalizing what the canonicalization returned changes
    nothing. *)
Theorem canonicalize_idempotent (xs ys : list (R * R * R))
        (triads : list Utils.triad) :
  length xs = length triads -> length ys = length triads ->
  let '(triads_cw, x_triads, y_triads) :=
    canonicalize (unzip3 xs) (unzip3 ys) triads in
  canonicalize x_triads y_triads triads_cw = (triads_cw, x_triads, y_triads).
Proof.
  intros Hx Hy. rewrite canonicalize_rows by assumption.
  set (U := kept_after_swap triads xs ys).
  assert (HU : forall u, In u U -> triad_area (snd3 u) (thd3 u) < 0)
    by (intros u; apply kept_after_swap_clockwise).
  clearbody U.
  rewrite canonicalize_rows by (rewrite !length_map; reflexivity).
  rewrite (kept_after_swap_fixed U HU). reflexivity.
Qed.

Lemma canonicalize_idempotent_example :
  let '(triads_cw, x_triads, y_triads) :=
    canonicalize (unzip3 [(0, 1, 0)]) (unzip3 [(0, 0, 1)]) [(0, 1, 2)%Z] in
  canonicalize x_triads y_triads triads_cw = (triads_cw, x_triads, y_triads).
Proof.
  exact (@canonicalize_idempotent [(0, 1, 0)] [(0, 0, 1)] [(0, 1, 2)%Z]
                                  eq_refl eq_refl).
Defined.

(** *** The triads generated when none are passed *)

Lemma assign_rows_spec (rows arr : list Utils.triad) (it : nat) :
  (it + length rows <= length arr)%nat ->
  assign_rows arr it rows =
  Ok (firstn it arr ++ rows ++ skipn (it + length rows) arr).
Proof.
  revert arr it. induction rows as [|row rows IH]; intros arr it H.
  - cbn [assign_rows length app]. rewrite Nat.add_0_r, firstn_skipn.
    reflexivity.
  - cbn [assign_rows length] in *. unfold set_row.
    destruct (Nat.ltb it (length arr)) eqn:E;
      [|apply Nat.ltb_ge in E; lia].
    apply Nat.ltb_lt in E. cbn [bind].
    assert (Hf : length (firstn it arr) = it)
      by (rewrite length_firstn; lia).
    rewrite IH.
    2:{ rewrite length_app, Hf. cbn [length]. rewrite length_skipn. lia. }
    f_equal.
    rewrite firstn_app, Hf, firstn_all2 by lia.
    replace (S it - it)%nat with 1%nat by lia. cbn [firstn].
    rewrite skipn_app, Hf, skipn_all2 by lia.
    replace (S it + length rows - it)%nat with (S (length rows)) by lia.
    rewrite skipn_cons, app_nil_l, skipn_skipn.
    replace (length rows + S it)%nat with (it + S (length rows))%nat by lia.
    rewrite <- app_assoc. reflexivity.
Qed.

Lemma skipn_repeat {A : Type} (x : A) (m n : nat) :
  skipn m (repeat x n) = repeat x (n - m).
Proof.
  revert m. induction n as [|n IH]; intros [|m]; try reflexivity.
  cbn [repeat skipn]. rewrite IH. reflexivity.
Qed.

(** X3.  Without [crater_triads], lines 136-141 allocate [C(n,3)] rows of
    zeros and overwrite the first of them with the enumerated triads; for
    [n >= 3] detections the enumerator is [n - 2] triads short, so the array
    ends with [n - 2] rows [(0, 0, 0)]. *)
Theorem generated_triads_zero_rows (n : nat) :
  (3 <= n)%nat ->
  generated_triads (Z.of_nat n) =
  Ok (Utils.enhanced_pattern_shifting (Z.of_nat n)
      ++ repeat (0%Z, 0%Z, 0%Z) (n - 2)).
Proof.
  intros Hn. unfold generated_triads. cbv zeta.
  assert (Hlen := @Utils.enhanced_pattern_shifting_length (Z.of_nat n) ltac:(lia)).
  set (rows := Utils.enhanced_pattern_shifting (Z.of_nat n)) in *.
  set (c := Utils.n_comb (Z.of_nat n)) in *. clearbody rows c.
  assert (Hc : Z.to_nat c = (length rows + (n - 2))%nat) by lia.
  rewrite assign_rows_spec by (rewrite repeat_length; lia).
  cbn [firstn app plus]. rewrite skipn_repeat, Hc. do 3 f_equal. lia.
Qed.

Lemma generated_triads_zero_rows_at_4 :
  generated_triads 4 =
  Ok [(0, 1, 2)%Z; (1, 2, 3)%Z; (0, 0, 0)%Z; (0, 0, 0)%Z].
Proof.
  exact (@generated_triads_zero_rows 4 ltac:(lia)).
Defined.

(** *** The features under an exchange of two craters *)

(** X18.  [F1] and [F2] are symmetric and [F3] is alternating: exchanging
    any two of the three arguments leaves [F1] and [F2] and negates [F3].
    Exchanging the same two positions in both triples leaves [G1] and the
    denominator of [G_tilde] and negates [G2]; exchanging the two triples
    leaves [G1] and negates [G2].  So [F3] and [G2] tell a triad from its
    mirror image, and the other features do not. *)
Theorem permutation_invariant_exchange (x y z x2 y2 z2 : R) :
  PermutationInvariant.F1 y x z = PermutationInvariant.F1 x y z /\
  PermutationInvariant.F1 x z y = PermutationInvariant.F1 x y z /\
  PermutationInvariant.F2 y x z = PermutationInvariant.F2 x y z /\
  PermutationInvariant.F2 x z y = PermutationInvariant.F2 x y z /\
  PermutationInvariant.F2 z y x = PermutationInvariant.F2 x y z /\
  PermutationInvariant.F3 y x z = - PermutationInvariant.F3 x y z /\
  PermutationInvariant.F3 x z y = - PermutationInvariant.F3 x y z /\
  PermutationInvariant.F3 z y x = - PermutationInvariant.F3 x y z /\
  PermutationInvariant.G1 y x z y2 x2 z2 =
    PermutationInvariant.G1 x y z x2 y2 z2 /\
  PermutationInvariant.G2 y x z y2 x2 z2 =
    - PermutationInvariant.G2 x y z x2 y2 z2 /\
  PermutationInvariant.G_norm y x z y2 x2 z2 =
    PermutationInvariant.G_norm x y z x2 y2 z2 /\
  PermutationInvariant.G1 x2 y2 z2 x y z =
    PermutationInvariant.G1 x y z x2 y2 z2 /\
  PermutationInvariant.G2 x2 y2 z2 x y z =
    - PermutationInvariant.G2 x y z x2 y2 z2 /\
  PermutationInvariant.G_norm x2 y2 z2 x y z =
    PermutationInvariant.G_norm x y z x2 y2 z2.
Proof.
  unfold PermutationInvariant.F1, PermutationInvariant.F2,
    PermutationInvariant.F3, PermutationInvariant.G1,
    PermutationInvariant.G2, PermutationInvariant.G_norm.
  repeat split; try ring;
    try (do 2 f_equal; ring);
    unfold Rdiv; try rewrite Ropp_mult_distr_l;
    (apply f_equal2; [ring|apply f_equal; ring]).
Qed.













(** *** The rows the enumerator leaves at zero *)

(** The generated array: the enumerated triads, then the rows that were
    never assigned. *)
Lemma generated_triads_shape (n : nat) :
  exists k,
    generated_triads (Z.of_nat n) =
      Ok (Utils.enhanced_pattern_shifting (Z.of_nat n)
          ++ repeat (0%Z, 0%Z, 0%Z) k) /\
    (k = 0%nat \/ (3 <= n)%nat) /\
    length (Utils.enhanced_pattern_shifting (Z.of_nat n)
            ++ repeat (0%Z, 0%Z, 0%Z) k) =
      Z.to_nat (Utils.n_comb (Z.of_nat n)).
Proof.
  destruct (Nat.lt_ge_cases n 3) as [Hs|Hl].
  - exists 0%nat. destruct n as [|[|[|n]]]; [| | |lia];
      (split; [reflexivity|split; [left; reflexivity|reflexivity]]).
  - exists (n - 2)%nat. unfold generated_triads. cbv zeta.
    assert (Hlen := @Utils.enhanced_pattern_shifting_length (Z.of_nat n)
                      ltac:(lia)).
    set (rows := Utils.enhanced_pattern_shifting (Z.of_nat n)) in *.
    set (c := Utils.n_comb (Z.of_nat n)) in *. clearbody rows c.
    assert (Hc : Z.to_nat c = (length rows + (n - 2))%nat) by lia.
    split; [|split; [right; exact Hl|]].
    + rewrite assign_rows_spec by (rewrite repeat_length; lia).
      cbn [firstn app plus]. rewrite skipn_repeat, Hc. do 3 f_equal. lia.
    + rewrite length_app, repeat_length. lia.
Qed.

Lemma generated_triads_in_bounds (n k : nat) (t : Utils.triad) :
  (k = 0%nat \/ (3 <= n)%nat) ->
  In t (Utils.enhanced_pattern_shifting (Z.of_nat n)
        ++ repeat (0%Z, 0%Z, 0%Z) k) ->
  Utils.triad_in_bounds n t.
Proof.
  intros Hk Ht. apply in_app_or in Ht. destruct Ht as [Ht|Ht].
  - apply Utils.enhanced_pattern_shifting_sorted in Ht.
    destruct t as [[i j] l]. unfold Utils.sorted_triple in Ht.
    unfold Utils.triad_in_bounds, Utils.in_bounds. lia.
  - destruct Hk as [->|Hn]; [destruct Ht|].
    apply repeat_spec in Ht. subst t.
    unfold Utils.triad_in_bounds, Utils.in_bounds. lia.
Qed.

Lemma zip3_gathered {A B C : Type} (g : A -> B) (h : A -> C) (l : list A) :
  zip3 l (map g l) (map h l) = map (fun t => (t, g t, h t)) l.
Proof.
  induction l as [|a l IH]; [reflexivity|].
  cbn [map zip3]. rewrite IH. reflexivity.
Qed.

Lemma triad_area_same_point (a b : R) : triad_area (a, a, a) (b, b, b) = 0.
Proof.
  unfold triad_area, Utils.signed_area, det, fst3, snd3, thd3. cbn. ring.
Qed.

(** X21.  Lines 135-164 on arrays [x_pix] and [y_pix] with one entry per
    detection, when no triads are passed: the generated array has [C(n,3)]
    rows, gathering the coordinates by it never raises [IndexError], and the
    canonicalization returns no triad but an enumerated one or an enumerated
    one with its first two members exchanged.  The rows [(0, 0, 0)] that the
    enumerator left unassigned name the first detection three times, are
    colinear and are dropped by the first fallback. *)
Theorem unassigned_rows_dropped (x_pix y_pix : list R) :
  length y_pix = length x_pix ->
  exists triads xs ys,
    generated_triads (Z.of_nat (length x_pix)) = Ok triads /\
    length triads = Z.to_nat (Utils.n_comb (Z.of_nat (length x_pix))) /\
    index_triads x_pix triads = Ok xs /\
    index_triads y_pix triads = Ok ys /\
    forall t,
      In t (fst (fst (canonicalize (unzip3 xs) (unzip3 ys) triads))) ->
      (In t (Utils.enhanced_pattern_shifting (Z.of_nat (length x_pix))) \/
       In (Utils.swap01 t)
          (Utils.enhanced_pattern_shifting (Z.of_nat (length x_pix)))) /\
      t <> (0%Z, 0%Z, 0%Z).
Proof.
  intros Hy. set (n := length x_pix) in *.
  destruct (generated_triads_shape n) as (k & Hgen & Hk & Hlen).
  set (triads := Utils.enhanced_pattern_shifting (Z.of_nat n)
                 ++ repeat (0%Z, 0%Z, 0%Z) k) in *.
  assert (Hb : Forall (Utils.triad_in_bounds n) triads).
  { apply Forall_forall. intros t Ht.
    apply (generated_triads_in_bounds _ Hk Ht). }
  set (gx := fun t : Utils.triad =>
               (Utils.item x_pix (fst (fst t)), Utils.item x_pix (snd (fst t)),
                Utils.item x_pix (snd t))).
  set (gy := fun t : Utils.triad =>
               (Utils.item y_pix (fst (fst t)), Utils.item y_pix (snd (fst t)),
                Utils.item y_pix (snd t))).
  exists triads, (map gx triads), (map gy triads).
  split; [exact Hgen|]. split; [exact Hlen|].
  split; [apply Utils.index_triads_in_bounds; exact Hb|].
  split; [apply Utils.index_triads_in_bounds; rewrite Hy; exact Hb|].
  intros t Ht.
  rewrite canonicalize_rows in Ht by apply length_map.
  cbn [fst] in Ht. apply in_map_iff in Ht. destruct Ht as (u & <- & Hu).
  unfold kept_after_swap in Hu. apply filter_In in Hu.
  destruct Hu as [Hu Hne]. rewrite zip3_gathered in Hu.
  apply in_map_iff in Hu. destruct Hu as (t0 & <- & Ht0).
  apply in_map_iff in Ht0. destruct Ht0 as (t' & <- & Ht').
  rewrite swap_if_not_clockwise_eq in Hne |- *.
  assert (Henum : In t' (Utils.enhanced_pattern_shifting (Z.of_nat n))).
  { apply in_app_or in Ht'. destruct Ht' as [Ht'|Ht']; [exact Ht'|].
    exfalso. apply repeat_spec in Ht'. subst t'.
    unfold gx, gy in Hne. cbn [fst snd] in Hne.
    destruct (Rlt_dec _ 0) as [Hlt|Hge] in Hne.
    - rewrite triad_area_same_point in Hlt. lra.
    - unfold snd3, thd3 in Hne. cbn [fst snd Utils.swap01] in Hne.
      rewrite triad_area_same_point in Hne.
      destruct (Req_dec_T 0 0); [discriminate|lra]. }
  assert (Hsorted := Utils.enhanced_pattern_shifting_sorted _ _ Henum).
  destruct t' as [[i j] l]. unfold Utils.sorted_triple in Hsorted.
  destruct (Rlt_dec (triad_area (gx (i, j, l)) (gy (i, j, l))) 0);
    unfold fst3; cbn [fst snd Utils.swap01].
  - split; [left; exact Henum|]. intros E. injection E as E1 E2 E3. lia.
  - split; [right; exact Henum|]. intros E. injection E as E1 E2 E3. lia.
Qed.

(** Four detections at the corners of a square. *)
Lemma unassigned_rows_dropped_example :
  exists triads xs ys,
    generated_triads (Z.of_nat (length [0; 1; 0; 1])) = Ok triads /\
    index_triads [0; 1; 0; 1] triads = Ok xs /\
    index_triads [0; 0; 1; 1] triads = Ok ys /\
    forall t,
      In t (fst (fst (canonicalize (unzip3 xs) (unzip3 ys) triads))) ->
      t <> (0%Z, 0%Z, 0%Z).
Proof.
  destruct (@unassigned_rows_dropped [0; 1; 0; 1] [0; 0; 1; 1] eq_refl)
    as (triads & xs & ys & H1 & _ & H2 & H3 & H4).
  exists triads, xs, ys. repeat split; try assumption.
  intros t Ht. apply (H4 t Ht).
Defined.
End ProjectiveInvariants.

(* ================================================================== *)
(** ** [camera.py] *)

Module Camera.

Import Np LinAlg.
Open Scope R_scope.

(** *** Matrices of the other shapes the projection uses *)

(** A 3x2 matrix. *)
Record M32 : Type := mkM32 {
  s00 : R; s01 : R;
  s10 : R; s11 : R;
  s20 : R; s21 : R }.

(** A 3x4 matrix. *)
Record M34 : Type := mkM34 {
  p00 : R; p01 : R; p02 : R; p03 : R;
  p10 : R; p11 : R; p12 : R; p13 : R;
  p20 : R; p21 : R; p22 : R; p23 : R }.

(** A 4x3 matrix. *)
Record M43 : Type := mkM43 {
  h00 : R; h01 : R; h02 : R;
  h10 : R; h11 : R; h12 : R;
  h20 : R; h21 : R; h22 : R;
  h30 : R; h31 : R; h32 : R }.

Definition vopp (v : V3) : V3 := mkV3 (- vx v) (- vy v) (- vz v).

Definition vsub (v w : V3) : V3 := mkV3 (vx v - vx w) (vy v - vy w) (vz v - vz w).

(** [v / s] for a scalar [s]. *)
Definition vdiv (v : V3) (s : R) : V3 := mkV3 (vx v / s) (vy v / s) (vz v / s).

(** [np.cross(v, w, axis=0)] on 3x1 columns. *)
Definition cross (v w : V3) : V3 :=
  mkV3 (vy v * vz w - vz v * vy w)
       (vz v * vx w - vx v * vz w)
       (vx v * vy w - vy v * vx w).

(** [LA.norm] of a 3x1 column: its Euclidean length, with the default order
    as with [ord=2]. *)
Definition norm (v : V3) : R := sqrt (vx v * vx v + vy v * vy v + vz v * vz v).

(** [np.concatenate((a, b, c), axis=-1)] of three 3x1 columns. *)
Definition columns (a b c : V3) : M33 :=
  mkM33 (vx a) (vx b) (vx c)
        (vy a) (vy b) (vy c)
        (vz a) (vz b) (vz c).

(** [np.concatenate((A, v), axis=1)] of a 3x3 matrix and a 3x1 column. *)
Definition hcat_33_1 (A : M33) (v : V3) : M34 :=
  mkM34 (m00 A) (m01 A) (m02 A) (vx v)
        (m10 A) (m11 A) (m12 A) (vy v)
        (m20 A) (m21 A) (m22 A) (vz v).

(** [np.concatenate((A, v), axis=-1)] of a 3x2 matrix and a 3x1 column. *)
Definition hcat_32_1 (A : M32) (v : V3) : M33 :=
  mkM33 (s00 A) (s01 A) (vx v)
        (s10 A) (s11 A) (vy v)
        (s20 A) (s21 A) (vz v).

(** A 3x3 matrix with the row [k.T] appended below it. *)
Definition vcat_33_row (A : M33) (k : V3) : M43 :=
  mkM43 (m00 A) (m01 A) (m02 A)
        (m10 A) (m11 A) (m12 A)
        (m20 A) (m21 A) (m22 A)
        (vx k) (vy k) (vz k).

(** [A @ B] for a 3x3 and a 3x2 matrix. *)
Definition matmul_33_32 (A : M33) (B : M32) : M32 :=
  mkM32 (m00 A * s00 B + m01 A * s10 B + m02 A * s20 B)
        (m00 A * s01 B + m01 A * s11 B + m02 A * s21 B)
        (m10 A * s00 B + m11 A * s10 B + m12 A * s20 B)
        (m10 A * s01 B + m11 A * s11 B + m12 A * s21 B)
        (m20 A * s00 B + m21 A * s10 B + m22 A * s20 B)
        (m20 A * s01 B + m21 A * s11 B + m22 A * s21 B).

(** [A @ B] for a 3x3 and a 3x4 matrix. *)
Definition matmul_33_34 (A : M33) (B : M34) : M34 :=
  mkM34 (m00 A * p00 B + m01 A * p10 B + m02 A * p20 B)
        (m00 A * p01 B + m01 A * p11 B + m02 A * p21 B)
        (m00 A * p02 B + m01 A * p12 B + m02 A * p22 B)
        (m00 A * p03 B + m01 A * p13 B + m02 A * p23 B)
        (m10 A * p00 B + m11 A * p10 B + m12 A * p20 B)
        (m10 A * p01 B + m11 A * p11 B + m12 A * p21 B)
        (m10 A * p02 B + m11 A * p12 B + m12 A * p22 B)
        (m10 A * p03 B + m11 A * p13 B + m12 A * p23 B)
        (m20 A * p00 B + m21 A * p10 B + m22 A * p20 B)
        (m20 A * p01 B + m21 A * p11 B + m22 A * p21 B)
        (m20 A * p02 B + m21 A * p12 B + m22 A * p22 B)
        (m20 A * p03 B + m21 A * p13 B + m22 A * p23 B).

(** [A @ B] for a 3x4 and a 4x3 matrix. *)
Definition matmul_34_43 (A : M34) (B : M43) : M33 :=
  mkM33 (p00 A * h00 B + p01 A * h10 B + p02 A * h20 B + p03 A * h30 B)
        (p00 A * h01 B + p01 A * h11 B + p02 A * h21 B + p03 A * h31 B)
        (p00 A * h02 B + p01 A * h12 B + p02 A * h22 B + p03 A * h32 B)
        (p10 A * h00 B + p11 A * h10 B + p12 A * h20 B + p13 A * h30 B)
        (p10 A * h01 B + p11 A * h11 B + p12 A * h21 B + p13 A * h31 B)
        (p10 A * h02 B + p11 A * h12 B + p12 A * h22 B + p13 A * h32 B)
        (p20 A * h00 B + p21 A * h10 B + p22 A * h20 B + p23 A * h30 B)
        (p20 A * h01 B + p21 A * h11 B + p22 A * h21 B + p23 A * h31 B)
        (p20 A * h02 B + p21 A * h12 B + p22 A * h22 B + p23 A * h32 B).

(** *** Intrinsics and projection *)

(** An argument that is a number or an iterable of two numbers
    ([isinstance(x, Iterable)]). *)
Inductive scalar_or_pair : Type :=
| Scalar (v : R)
| Pair (a b : R).

(** [np.radians]. *)
Definition radians (deg : R) : R := deg * PI / 180.

(** [camera_matrix(fov, offset, alpha)], lines 33-46.  The focal lengths
    are the quotients of the code where the tangent of half the field of
    view is not zero; where it is zero the code divides by zero, and the
    statements on focal lengths leave that field of view out. *)
Definition camera_matrix (fov offset : scalar_or_pair) (alpha : R) : M33 :=
  let '(x_0, y_0) :=
    match offset with
    | Pair a b => (a, b)
    | Scalar o => (o, o)
    end in
  let '(f_x, f_y) :=
    match fov with
    | Pair fov_x fov_y =>
        (x_0 / tan (radians fov_x / 2), y_0 / tan (radians fov_y / 2))
    | Scalar fov_ =>
        (x_0 / tan (radians fov_ / 2), y_0 / tan (radians fov_ / 2))
    end in
  mkM33 f_x alpha x_0
        0 f_y y_0
        0 0 1.

(** [projection_matrix(K, T, r)], lines 77-78. *)
Definition projection_matrix (K T : M33) (r : V3) : M34 :=
  let r_C := matvec T r in
  matmul_33_34 K (hcat_33_1 T (vopp r_C)).

Section Projection.

(** [ENU_system] of [craterdetection/common/coordinates.py] is not among the
    sources: a parameter giving, position by position, the east, north and
    up directions at a position. *)
Variable ENU_system : V3 -> V3 * V3 * V3.

(** One entry of [crater_camera_homography(p, P_MC)], lines 97-105. *)
Definition crater_homography (P_MC : M34) (p : V3) : M33 :=
  let S := mkM32 1 0 0 1 0 0 in
  let k := mkV3 0 0 1 in
  let '(e_i, n_i, u_i) := ENU_system p in
  let T_EM := columns e_i n_i u_i in
  let H_Mi := hcat_32_1 (matmul_33_32 T_EM S) p in
  matmul_34_43 P_MC (vcat_33_row H_Mi k).

(** [crater_camera_homography(p, P_MC)] on a batch of positions. *)
Definition crater_camera_homography (p : list V3) (P_MC : M34) : list M33 :=
  map (crater_homography P_MC) p.

(** [project_craters(C, p, fov, resolution, T_CM, r_M)], lines 136-145. *)
Definition project_craters (C : list M33) (p : list V3)
           (fov resolution : scalar_or_pair) (T_CM : M33) (r_M : V3)
  : result (list M33) :=
  let offset :=
    match resolution with
    | Pair res_x res_y => Pair (res_x / 2) (res_y / 2)
    | Scalar res => Scalar (res / 2)
    end in
  T_MC <- inv T_CM ;;
  let K := camera_matrix fov offset 0 in
  let P_MC := projection_matrix K T_MC r_M in
  let H_Ci := crater_camera_homography p P_MC in
  H_inv <- mapM inv H_Ci ;;
  let left := map2 matmul (map transpose H_inv) C in
  H_inv' <- mapM inv H_Ci ;;
  Ok (map2 matmul left H_inv').

(** The conic [H^-T C H^-1] of one crater. *)
Definition projected_conic (H C : M33) : M33 :=
  matmul (matmul (transpose (minv H)) C) (minv H).

End Projection.

(** *** The camera pose *)

Record Camera : Type := mkCamera {
  r : V3;
  T : M33;
  fov : scalar_or_pair;
  resolution : scalar_or_pair;
  alpha : R }.

(** [v / LA.norm(v)].  On the zero vector NumPy divides zero by zero and
    every entry is [nan]: [None] stands for that array. *)
Definition unit_vector (v : V3) : option V3 :=
  if Req_dec_T (norm v) 0 then None else Some (vdiv v (norm v)).

(** Lines 165-174: the attitude derived from the position alone; [None] when
    a normalisation divided by zero, the matrix then holding [nan]. *)
Definition nadir_attitude (r : V3) : option M33 :=
  let k := mkV3 0 0 1 in
  match unit_vector r with
  | None => None
  | Some u =>
      let Z_ax_cam := vopp u in
      match unit_vector (cross k r) with
      | None => None
      | Some X_ax_cam =>
          match unit_vector (cross Z_ax_cam X_ax_cam) with
          | None => None
          | Some Y_ax_cam => Some (columns X_ax_cam Y_ax_cam Z_ax_cam)
          end
      end
  end.

Definition is_zero_matrix (A : M33) : bool :=
  if Req_dec_T (m00 A * m00 A + m01 A * m01 A + m02 A * m02 A
                + m10 A * m10 A + m11 A * m11 A + m12 A * m12 A
                + m20 A * m20 A + m21 A * m21 A + m22 A * m22 A) 0
  then true else false.

(** [LA.matrix_rank] of a 3x3 matrix in exact arithmetic: 3 when the
    determinant is not zero, else 2 when some 2x2 minor is not zero, else 1
    when some entry is not zero, else 0. *)
Definition matrix_rank (A : M33) : nat :=
  if Req_dec_T (det A) 0 then
    if is_zero_matrix (matrix_adjugate A) then
      if is_zero_matrix A then 0%nat else 1%nat
    else 2%nat
  else 3%nat.

(** [Camera.__init__], lines 159-178.  On a matrix that holds [nan] the
    rank test of line 175 does not return: the singular value decomposition
    behind [LA.matrix_rank] fails with [LinAlgError], and construction is
    aborted there. *)
Definition Camera_init (r : V3) (T : option M33)
           (fov resolution : scalar_or_pair) (alpha : R) : result Camera :=
  match T with
  | None =>
      match nadir_attitude r with
      | Some T' =>
          if Nat.eqb (matrix_rank T') 3 then Ok (mkCamera r T' fov resolution alpha)
          else Raise ValueError
      | None => Raise LinAlgError
      end
  | Some T' => Ok (mkCamera r T' fov resolution alpha)
  end.

(** A frame that does not depend on the position, for closed examples. *)
Definition fixed_ENU (p : V3) : V3 * V3 * V3 :=
  (mkV3 1 0 0, mkV3 0 1 0, mkV3 0 0 1).

(** A position on the polar axis: the reference direction [k = (0, 0, 1)]
    and the position are parallel. *)
Definition on_polar_axis (r : V3) : Prop := vx r = 0 /\ vy r = 0.


(** *** The camera's matrices and its construction from coordinates *)

(** What [isinstance(x, Iterable)] tells apart: the value meant for the
    first axis and the value meant for the second. *)
Definition first_axis (s : scalar_or_pair) : R :=
  match s with
  | Pair a _ => a
  | Scalar v => v
  end.

Definition second_axis (s : scalar_or_pair) : R :=
  match s with
  | Pair _ b => b
  | Scalar v => v
  end.

(** [Camera.K], lines 198-203. *)
Definition Camera_K (self : Camera) : M33 :=
  let offset :=
    match resolution self with
    | Pair res_x res_y => Pair (res_x / 2) (res_y / 2)
    | Scalar res => Scalar (res / 2)
    end in
  camera_matrix (fov self) offset (alpha self).

(** [Camera.P], lines 205-206. *)
Definition Camera_P (self : Camera) : M34 :=
  projection_matrix (Camera_K self) (T self) (r self).

(** [spherical_to_cartesian(r, lat, lon)] of astropy, on plain numbers,
    which it reads as a dimensionless distance and two angles in radians.
    It builds a spherical representation, whose latitude must lie between
    -90 and 90 degrees: another latitude raises [ValueError]. *)
Definition spherical_to_cartesian (rho lat lon : R) : result (R * R * R) :=
  if Rle_dec (- (PI / 2)) lat then
    if Rle_dec lat (PI / 2) then
      Ok (rho * cos lat * cos lon, rho * cos lat * sin lon, rho * sin lat)
    else Raise ValueError
  else Raise ValueError.

(** [Camera.from_coordinates], lines 192-196; [Rbody] defaults to a constant
    of the repository and is passed here. *)
Definition from_coordinates (lat long altitude : R)
           (fov resolution : scalar_or_pair) (T : option M33)
           (Rbody alpha : R) (convert_to_radians : bool) : result Camera :=
  let '(lat, long) :=
    if convert_to_radians then (radians lat, radians long) else (lat, long) in
  xyz <- spherical_to_cartesian (Rbody + altitude) lat long ;;
  let '(x, y, z) := xyz in
  let r_M := mkV3 x y z in
  Camera_init r_M T fov resolution alpha.

(** [P @ [X; w]]: the image, in homogeneous pixel coordinates, of the point
    with homogeneous world coordinates [(X, w)]. *)
Definition image_of (P : M34) (X : V3) (w : R) : V3 :=
  mkV3 (p00 P * vx X + p01 P * vy X + p02 P * vz X + p03 P * w)
       (p10 P * vx X + p11 P * vy X + p12 P * vz X + p13 P * w)
       (p20 P * vx X + p21 P * vy X + p22 P * vz X + p23 P * w).

Definition dot (v w : V3) : R := vx v * vx w + vy v * vy w + vz v * vz w.

Definition vscale (c : R) (v : V3) : V3 := mkV3 (c * vx v) (c * vy v) (c * vz v).

(** A symmetric matrix, as a conic's matrix is. *)
Definition symmetric (A : M33) : Prop := transpose A = A.
(** *** The projection, crater by crater *)

Lemma M34_eq (A B : M34) :
  p00 A = p00 B -> p01 A = p01 B -> p02 A = p02 B -> p03 A = p03 B ->
  p10 A = p10 B -> p11 A = p11 B -> p12 A = p12 B -> p13 A = p13 B ->
  p20 A = p20 B -> p21 A = p21 B -> p22 A = p22 B -> p23 A = p23 B -> A = B.
Proof. destruct A, B; simpl; intros; subst; reflexivity. Qed.

(** [P = K [T | -T r]]: its left block is [K T], its last column
    [-(K (T r))]. *)
Lemma projection_matrix_blocks (K T : M33) (r : V3) :
  projection_matrix K T r =
  hcat_33_1 (matmul K T) (vopp (matvec K (matvec T r))).
Proof.
  unfold projection_matrix. destruct K, T, r. apply M34_eq; cbn; ring.
Qed.

(** The homography of one crater is [K T [e | n | p - r]]. *)
Lemma crater_homography_closed (ENU_system : V3 -> V3 * V3 * V3)
      (K T : M33) (r p : V3) :
  crater_homography ENU_system (projection_matrix K T r) p =
  matmul (matmul K T)
         (columns (fst (fst (ENU_system p))) (snd (fst (ENU_system p)))
                  (vsub p r)).
Proof.
  unfold crater_homography, projection_matrix.
  destruct (ENU_system p) as [[e n] u]. cbn [fst snd].
  destruct K, T, r, p, e, n, u. apply M33_eq; cbn; ring.
Qed.

(** [[T_EM @ S | p]] keeps the east and north columns of [T_EM]. *)
Lemma tangent_plane_columns (e n u p : V3) :
  hcat_32_1 (matmul_33_32 (columns e n u) (mkM32 1 0 0 1 0 0)) p =
  columns e n p.
Proof. destruct e, n, u, p. apply M33_eq; cbn; ring. Qed.

Lemma det_matmul (A B : M33) : det (matmul A B) = det A * det B.
Proof. unfold det. destruct A, B. cbn. ring. Qed.

Lemma pullback_batch (Hs C : list M33) :
  map2 matmul (map2 matmul (map transpose (map minv Hs)) C) (map minv Hs) =
  map2 (fun H C_i => projected_conic H C_i) Hs C.
Proof.
  unfold map2, projected_conic. revert C.
  induction Hs as [|H Hs IH]; intros [|c C]; try reflexivity.
  cbn [map combine fst snd]. rewrite <- IH. reflexivity.
Qed.

(** C7.  For aligned batches of conics [C] and positions [p],
    [project_craters] returns an array exactly when the attitude [T_CM] and
    every crater's homography are invertible, and the array then holds, for
    each crater, the conic [H^-T C H^-1] of that crater's own homography [H].
    [H] is [P @ [[e n p], [0 0 1]]] for the projection matrix
    [P = K [T | -T r]], which makes it [K T [e | n | p - r]]; [T] is the
    inverse of the attitude, and [K] is the intrinsic matrix of the field of
    view and of half the resolution, with no skew. *)
Theorem project_craters_pullback (ENU_system : V3 -> V3 * V3 * V3)
        (C : list M33) (p : list V3) (fov resolution : scalar_or_pair)
        (T_CM : M33) (r_M : V3) :
  length C = length p ->
  let offset :=
    match resolution with
    | Pair res_x res_y => Pair (res_x / 2) (res_y / 2)
    | Scalar res => Scalar (res / 2)
    end in
  let K := camera_matrix fov offset 0 in
  let T_MC := minv T_CM in
  let P := hcat_33_1 (matmul K T_MC) (vopp (matvec K (matvec T_MC r_M))) in
  let H := fun p_i => matmul_34_43 P
                        (vcat_33_row
                           (columns (fst (fst (ENU_system p_i)))
                                    (snd (fst (ENU_system p_i))) p_i)
                           (mkV3 0 0 1)) in
  (forall out,
     project_craters ENU_system C p fov resolution T_CM r_M = Ok out <->
     det T_CM <> 0 /\
     Forall (fun p_i => det (H p_i) <> 0) p /\
     out = map2 (fun p_i C_i => matmul (matmul (transpose (minv (H p_i))) C_i)
                                       (minv (H p_i))) p C) /\
  (forall out,
     project_craters ENU_system C p fov resolution T_CM r_M = Ok out ->
     length out = length C) /\
  (det T_CM <> 0 -> matmul T_MC T_CM = identity3) /\
  (forall p_i,
     H p_i = matmul (matmul K T_MC)
                    (columns (fst (fst (ENU_system p_i)))
                             (snd (fst (ENU_system p_i))) (vsub p_i r_M))).
Proof.
  intros Hlen offset K T_MC P H.
  assert (HP : projection_matrix K T_MC r_M = P)
    by apply projection_matrix_blocks.
  assert (HH : forall p_i, crater_homography ENU_system P p_i = H p_i).
  { intros p_i. unfold crater_homography, H.
    destruct (ENU_system p_i) as [[e n] u]. cbn [fst snd].
    rewrite tangent_plane_columns. reflexivity. }
  assert (Hiff : forall out,
     project_craters ENU_system C p fov resolution T_CM r_M = Ok out <->
     det T_CM <> 0 /\
     Forall (fun p_i => det (H p_i) <> 0) p /\
     out = map2 (fun p_i C_i => matmul (matmul (transpose (minv (H p_i))) C_i)
                                       (minv (H p_i))) p C).
  { intros out. unfold project_craters. fold offset. fold K.
    unfold crater_camera_homography. split.
    - intros Hrun.
      apply bind_ok in Hrun.
      destruct Hrun as [T' [HT Hrun]]. apply inv_ok in HT.
      destruct HT as [HT ->]. fold T_MC in Hrun. rewrite HP in Hrun.
      apply bind_ok in Hrun.
      destruct Hrun as [Hi [Hinv Hrun]]. apply mapM_inv_ok in Hinv.
      destruct Hinv as [Hns ->]. rewrite (proj2 (mapM_inv_ok _ _)) in Hrun
        by (split; [exact Hns|reflexivity]).
      cbn [bind] in Hrun. injection Hrun as <-.
      split; [exact HT|]. split.
      + rewrite Forall_map in Hns. rewrite Forall_forall in *.
        intros q Hq. rewrite <- HH. apply Hns. exact Hq.
      + rewrite pullback_batch. unfold map2, projected_conic.
        rewrite (map_ext _ _ HH). clear. revert C.
        induction p as [|q p IH]; intros [|c C]; try reflexivity.
        cbn [map combine fst snd]. rewrite IH. reflexivity.
    - intros (HT & Hns & ->).
      rewrite (proj2 (inv_ok T_CM (minv T_CM))) by (split; [exact HT|reflexivity]).
      cbn [bind]. fold T_MC. rewrite HP.
      assert (Hns' : Forall (fun A => det A <> 0)
                            (map (crater_homography ENU_system P) p)).
      { rewrite Forall_map. rewrite Forall_forall in *.
        intros q Hq. rewrite HH. apply Hns. exact Hq. }
      rewrite !(proj2 (mapM_inv_ok _ _)) by (split; [exact Hns'|reflexivity]).
      cbn [bind]. f_equal. rewrite pullback_batch. unfold map2, projected_conic.
      rewrite (map_ext _ _ HH). clear. revert C.
      induction p as [|q p IH]; intros [|c C]; try reflexivity.
      cbn [map combine fst snd]. rewrite IH. reflexivity. }
  split; [exact Hiff|]. split.
  { intros out Hrun. apply Hiff in Hrun. destruct Hrun as (_ & _ & ->).
    unfold map2. rewrite length_map, length_combine. lia. }
  split; [apply matmul_minv_l|].
  intros p_i. rewrite <- HH, <- HP. apply crater_homography_closed.
Qed.

Lemma minv_identity3 : minv identity3 = identity3.
Proof. apply M33_eq; unfold minv, det; cbn; field. Qed.

Lemma tan_half_of_90 : tan (radians 90 / 2) = 1.
Proof.
  replace (radians 90 / 2) with (PI / 4) by (unfold radians; field).
  apply tan_PI4.
Qed.

Lemma project_craters_pullback_example :
  exists out,
    project_craters fixed_ENU [ProjectiveInvariants.conic_a] [mkV3 0 0 0]
                    (Scalar 90) (Scalar 2) identity3 (mkV3 0 0 1) = Ok out /\
    length out = 1%nat.
Proof.
  destruct (@project_craters_pullback fixed_ENU
              [ProjectiveInvariants.conic_a] [mkV3 0 0 0]
              (Scalar 90) (Scalar 2) identity3 (mkV3 0 0 1) eq_refl)
    as (Hiff & Hlen & _ & Hclosed).
  eexists. split.
  - apply Hiff. split; [unfold det; cbn; lra|]. split; [|reflexivity].
    constructor; [|constructor].
    rewrite Hclosed, !det_matmul, minv_identity3.
    unfold camera_matrix, det, fixed_ENU. cbn.
    replace (2 / 2) with 1 by field. rewrite tan_half_of_90. lra.
  - reflexivity.
Defined.

(** *** The derived attitude *)

Lemma norm_sqr (v : V3) :
  norm v * norm v = vx v * vx v + vy v * vy v + vz v * vz v.
Proof. unfold norm. apply sqrt_sqrt. nra. Qed.

Lemma norm_zero (v : V3) :
  norm v = 0 <-> vx v = 0 /\ vy v = 0 /\ vz v = 0.
Proof.
  split.
  - intros H. assert (Hs := norm_sqr v). rewrite H in Hs.
    repeat split; nra.
  - intros (Hx & Hy & Hz). unfold norm. rewrite Hx, Hy, Hz.
    replace (0 * 0 + 0 * 0 + 0 * 0) with 0 by ring. apply sqrt_0.
Qed.

Lemma unit_vector_some (v : V3) :
  norm v <> 0 -> unit_vector v = Some (vdiv v (norm v)).
Proof.
  intros H. unfold unit_vector. destruct (Req_dec_T (norm v) 0); [contradiction|reflexivity].
Qed.

Lemma unit_vector_none (v : V3) : norm v = 0 -> unit_vector v = None.
Proof.
  intros H. unfold unit_vector. destruct (Req_dec_T (norm v) 0); [reflexivity|contradiction].
Qed.

(** On the polar axis the east direction [k x r] is the zero vector. *)
Lemma nadir_attitude_on_axis (r : V3) :
  on_polar_axis r -> nadir_attitude r = None.
Proof.
  intros [Hx Hy]. unfold nadir_attitude.
  destruct (unit_vector r) as [u|]; [|reflexivity].
  rewrite unit_vector_none; [reflexivity|].
  apply norm_zero. unfold cross. cbn. rewrite Hx, Hy. repeat split; ring.
Qed.

Lemma det_columns_cross (X Z : V3) :
  det (columns X (cross Z X) Z) =
  vx (cross Z X) * vx (cross Z X) + vy (cross Z X) * vy (cross Z X)
  + vz (cross Z X) * vz (cross Z X).
Proof. destruct X, Z. unfold det, columns, cross. cbn. ring. Qed.

Lemma det_columns_vdiv (X Y Z : V3) (s : R) :
  s <> 0 -> det (columns X (vdiv Y s) Z) = det (columns X Y Z) / s.
Proof.
  intros Hs. destruct X, Y, Z. unfold det, columns, vdiv. cbn. field. exact Hs.
Qed.

(** Off the polar axis the three normalisations are defined and the derived
    basis has a determinant that is not zero. *)
Lemma nadir_attitude_off_axis (r : V3) :
  ~ on_polar_axis r ->
  exists T', nadir_attitude r = Some T' /\ det T' <> 0.
Proof.
  intros Hoff. unfold nadir_attitude.
  assert (Hxy : vx r * vx r + vy r * vy r <> 0).
  { intros H. apply Hoff. unfold on_polar_axis. split; nra. }
  assert (Hn : norm r <> 0).
  { intros H. apply norm_zero in H. destruct H as (Hx & Hy & _).
    apply Hoff. split; assumption. }
  rewrite (unit_vector_some _ Hn).
  set (k := mkV3 0 0 1).
  assert (Hm : norm (cross k r) <> 0).
  { intros H. apply norm_zero in H. destruct H as (H1 & H2 & _).
    unfold cross, k in H1, H2. cbn in H1, H2. apply Hoff. split; lra. }
  rewrite (unit_vector_some _ Hm).
  set (Z := vopp (vdiv r (norm r))).
  set (X := vdiv (cross k r) (norm (cross k r))).
  assert (Hz : vz (cross Z X) * (norm r * norm (cross k r)) =
               - (vx r * vx r + vy r * vy r)).
  { unfold Z, X, cross, vopp, vdiv, k. cbn. field. split; assumption. }
  assert (Hz0 : vz (cross Z X) <> 0).
  { intros H. rewrite H in Hz. apply Hxy. lra. }
  assert (Hy : norm (cross Z X) <> 0).
  { intros H. apply norm_zero in H. destruct H as (_ & _ & H). contradiction. }
  rewrite (unit_vector_some _ Hy).
  eexists. split; [reflexivity|].
  rewrite det_columns_vdiv by exact Hy. rewrite det_columns_cross.
  rewrite <- norm_sqr. intros H.
  apply Hy. unfold Rdiv in H.
  replace (norm (cross Z X) * norm (cross Z X) * / norm (cross Z X))
    with (norm (cross Z X)) in H by (field; exact Hy).
  exact H.
Qed.

Lemma matrix_rank_3 (A : M33) : matrix_rank A = 3%nat <-> det A <> 0.
Proof.
  unfold matrix_rank. destruct (Req_dec_T (det A) 0) as [H|H].
  - split; [|contradiction].
    destruct (is_zero_matrix (matrix_adjugate A)); [|discriminate].
    destruct (is_zero_matrix A); discriminate.
  - split; auto.
Qed.

(** C8.  Built without an attitude, a camera at a position on the polar axis
    (east undefined) is refused: construction raises and gives no object.
    More generally construction raises whenever the derived basis is not of
    rank 3 or is not defined, and succeeds, storing the derived basis,
    whenever that basis has rank 3, which is the case exactly off the polar
    axis.  A supplied attitude is stored without any test. *)
Theorem camera_attitude_rank_check (r : V3) (fov resolution : scalar_or_pair)
        (alpha : R) :
  (on_polar_axis r ->
   nadir_attitude r = None /\
   exists e, Camera_init r None fov resolution alpha = Raise e) /\
  (forall T',
     nadir_attitude r = Some T' -> matrix_rank T' <> 3%nat ->
     Camera_init r None fov resolution alpha = Raise ValueError) /\
  (nadir_attitude r = None ->
   exists e, Camera_init r None fov resolution alpha = Raise e) /\
  (forall T',
     nadir_attitude r = Some T' -> matrix_rank T' = 3%nat ->
     Camera_init r None fov resolution alpha =
     Ok (mkCamera r T' fov resolution alpha)) /\
  (~ on_polar_axis r ->
   exists T',
     nadir_attitude r = Some T' /\ matrix_rank T' = 3%nat /\
     Camera_init r None fov resolution alpha =
     Ok (mkCamera r T' fov resolution alpha)) /\
  (forall T',
     Camera_init r (Some T') fov resolution alpha =
     Ok (mkCamera r T' fov resolution alpha)).
Proof.
  split.
  { intros H. split; [apply nadir_attitude_on_axis; exact H|].
    exists LinAlgError. unfold Camera_init.
    rewrite (nadir_attitude_on_axis H). reflexivity. }
  split.
  { intros T' HT Hrank. unfold Camera_init. rewrite HT.
    apply Nat.eqb_neq in Hrank. rewrite Hrank. reflexivity. }
  split.
  { intros HT. exists LinAlgError. unfold Camera_init. rewrite HT.
    reflexivity. }
  split.
  { intros T' HT Hrank. unfold Camera_init. rewrite HT, Hrank. reflexivity. }
  split.
  { intros Hoff. destruct (nadir_attitude_off_axis Hoff) as (T' & HT & Hdet).
    exists T'. apply matrix_rank_3 in Hdet.
    split; [exact HT|]. split; [exact Hdet|].
    unfold Camera_init. rewrite HT, Hdet. reflexivity. }
  intros T'. reflexivity.
Qed.

(** Two positions: the pole itself, and a point on the equator. *)
Lemma camera_attitude_rank_check_example :
  (exists e,
     Camera_init (mkV3 0 0 1) None (Scalar 90) (Scalar 2) 0 = Raise e) /\
  exists T',
    Camera_init (mkV3 1 0 0) None (Scalar 90) (Scalar 2) 0 =
    Ok (mkCamera (mkV3 1 0 0) T' (Scalar 90) (Scalar 2) 0).
Proof.
  split.
  - apply (proj1 (camera_attitude_rank_check (mkV3 0 0 1) (Scalar 90) (Scalar 2) 0)).
    split; reflexivity.
  - destruct (camera_attitude_rank_check (mkV3 1 0 0) (Scalar 90) (Scalar 2) 0)
      as (_ & _ & _ & _ & Hoff & _).
    destruct Hoff as (T' & _ & _ & HT).
    + intros [Hx _]. cbn in Hx. lra.
    + exists T'. exact HT.
Defined.


(** *** What the projection matrix does to a point *)

Lemma V3_eq (a b c a' b' c' : R) :
  a = a' -> b = b' -> c = c' -> mkV3 a b c = mkV3 a' b' c'.
Proof. intros -> -> ->. reflexivity. Qed.

Lemma image_of_projection_matrix (K T : M33) (pos X : V3) :
  image_of (projection_matrix K T pos) X 1 =
  matvec K (matvec T (vsub X pos)).
Proof.
  destruct K, T, pos, X. unfold image_of, projection_matrix, matvec. cbn.
  apply V3_eq; cbn; ring.
Qed.

Lemma image_of_camera_position (K T : M33) (pos : V3) :
  image_of (projection_matrix K T pos) pos 1 = mkV3 0 0 0.
Proof.
  destruct K, T, pos. unfold image_of, projection_matrix, matvec. cbn.
  apply V3_eq; cbn; ring.
Qed.

(** X12.  [projection_matrix(K, T, r)] sends the world point [X] to
    [K T (X - r)]: the camera position [r] itself has no image (all three
    homogeneous coordinates are zero), and a direction (a point at
    infinity) is imaged as [K T X], whatever the position.  The same holds
    of [Camera.P], built from the camera's own [K], [T] and [r]. *)
Theorem projection_matrix_of_point (K T : M33) (pos X : V3) (cam : Camera) :
  image_of (projection_matrix K T pos) X 1 =
    matvec K (matvec T (vsub X pos)) /\
  image_of (projection_matrix K T pos) pos 1 = mkV3 0 0 0 /\
  image_of (projection_matrix K T pos) X 0 = matvec K (matvec T X) /\
  image_of (Camera_P cam) X 1 =
    matvec (Camera_K cam) (matvec (Camera.T cam) (vsub X (r cam))) /\
  image_of (Camera_P cam) (r cam) 1 = mkV3 0 0 0.
Proof.
  split; [apply image_of_projection_matrix|].
  split; [apply image_of_camera_position|]. split.
  { destruct K, T, pos, X. unfold image_of, projection_matrix, matvec. cbn.
    apply V3_eq; cbn; ring. }
  split; [apply image_of_projection_matrix|apply image_of_camera_position].
Qed.

(** *** The derived attitude is a rotation *)

Lemma dot_cross_lagrange (a b : V3) :
  dot (cross a b) (cross a b) = dot a a * dot b b - dot a b * dot a b.
Proof. destruct a, b. unfold dot, cross. cbn. ring. Qed.

Lemma dot_cross_l (a b : V3) : dot a (cross a b) = 0.
Proof. destruct a, b. unfold dot, cross. cbn. ring. Qed.

Lemma dot_cross_r (a b : V3) : dot b (cross a b) = 0.
Proof. destruct a, b. unfold dot, cross. cbn. ring. Qed.

Lemma dot_comm (a b : V3) : dot a b = dot b a.
Proof. destruct a, b. unfold dot. cbn. ring. Qed.

Lemma norm_dot (v : V3) : norm v * norm v = dot v v.
Proof. apply norm_sqr. Qed.

(** The Gram matrix of three columns. *)
Lemma gram_columns (a b c : V3) :
  matmul (transpose (columns a b c)) (columns a b c) =
  mkM33 (dot a a) (dot a b) (dot a c)
        (dot b a) (dot b b) (dot b c)
        (dot c a) (dot c b) (dot c c).
Proof. destruct a, b, c. unfold dot. apply M33_eq; cbn; ring. Qed.

Lemma transpose_columns_matvec (a b c v : V3) :
  matvec (transpose (columns a b c)) v = mkV3 (dot a v) (dot b v) (dot c v).
Proof. destruct a, b, c, v. unfold dot, matvec. apply V3_eq; cbn; ring. Qed.

Lemma matmul_assoc (A B C : M33) :
  matmul (matmul A B) C = matmul A (matmul B C).
Proof. destruct A, B, C. apply M33_eq; cbn; ring. Qed.

Lemma matmul_identity_l (A : M33) : matmul identity3 A = A.
Proof. destruct A. apply M33_eq; cbn; ring. Qed.

Lemma matmul_identity_r (A : M33) : matmul A identity3 = A.
Proof. destruct A. apply M33_eq; cbn; ring. Qed.

(** The inverse of a matrix with orthonormal columns is its transpose. *)
Lemma minv_orthogonal (A : M33) :
  matmul (transpose A) A = identity3 -> det A <> 0 -> minv A = transpose A.
Proof.
  intros Horth Hdet.
  rewrite <- (matmul_identity_l (minv A)), <- Horth, matmul_assoc.
  rewrite (matmul_minv_r Hdet). apply matmul_identity_r.
Qed.

(** Off the polar axis the derived attitude has orthonormal columns, the
    orientation of a right-handed frame, and its third axis along [-r]. *)
Lemma nadir_attitude_rotation (pos : V3) :
  ~ on_polar_axis pos ->
  exists T',
    nadir_attitude pos = Some T' /\
    matmul (transpose T') T' = identity3 /\
    det T' = 1 /\
    matvec (transpose T') pos = mkV3 0 0 (- norm pos).
Proof.
  intros Hoff. unfold nadir_attitude.
  assert (Hn : norm pos <> 0).
  { intros H. apply norm_zero in H. destruct H as (Hx & Hy & _).
    apply Hoff. split; assumption. }
  rewrite (unit_vector_some _ Hn).
  set (k := mkV3 0 0 1).
  assert (Hm : norm (cross k pos) <> 0).
  { intros H. apply norm_zero in H. destruct H as (H1 & H2 & _).
    unfold cross, k in H1, H2. cbn in H1, H2. apply Hoff. split; lra. }
  rewrite (unit_vector_some _ Hm).
  set (n := norm pos) in *. set (m := norm (cross k pos)) in *.
  assert (Hnn : n * n = dot pos pos) by apply norm_dot.
  assert (Hmm : m * m = dot (cross k pos) (cross k pos)) by apply norm_dot.
  set (Z := vopp (vdiv pos n)).
  set (X := vdiv (cross k pos) m).
  assert (HZZ : dot Z Z = 1).
  { transitivity (dot pos pos / (n * n)).
    - unfold Z, dot, vopp, vdiv. cbn. field. exact Hn.
    - rewrite <- Hnn. field. exact Hn. }
  assert (HXX : dot X X = 1).
  { transitivity (dot (cross k pos) (cross k pos) / (m * m)).
    - unfold X, dot, vdiv. cbn. field. exact Hm.
    - rewrite <- Hmm. field. exact Hm. }
  assert (HZX : dot Z X = 0).
  { transitivity (- dot pos (cross k pos) / (n * m)).
    - unfold Z, X, dot, vopp, vdiv. cbn. field. split; assumption.
    - rewrite dot_cross_r. field. split; assumption. }
  assert (HYY : dot (cross Z X) (cross Z X) = 1).
  { rewrite dot_cross_lagrange, HZZ, HXX, HZX. ring. }
  assert (Hy : norm (cross Z X) = 1).
  { unfold norm. fold (dot (cross Z X) (cross Z X)). rewrite HYY.
    apply sqrt_1. }
  assert (Hy0 : norm (cross Z X) <> 0) by (rewrite Hy; lra).
  rewrite (unit_vector_some _ Hy0). rewrite Hy.
  assert (HY : vdiv (cross Z X) 1 = cross Z X).
  { generalize (cross Z X). intros [a b c]. unfold vdiv. cbn.
    apply V3_eq; field. }
  rewrite HY. eexists. split; [reflexivity|]. split; [|split].
  - rewrite gram_columns.
    rewrite HXX, HYY, HZZ, HZX, (dot_comm X Z), HZX.
    rewrite (dot_comm (cross Z X) X), (dot_comm (cross Z X) Z).
    rewrite dot_cross_r, dot_cross_l. reflexivity.
  - rewrite det_columns_cross. fold (dot (cross Z X) (cross Z X)). exact HYY.
  - rewrite transpose_columns_matvec. apply V3_eq.
    + transitivity (dot (cross k pos) pos / m).
      * unfold X, dot, vdiv. cbn. field. exact Hm.
      * rewrite dot_comm, dot_cross_r. field. exact Hm.
    + unfold Z, X, dot, cross, vopp, vdiv. cbn. field. split; assumption.
    + transitivity (- (dot pos pos) / n).
      * unfold Z, dot, vopp, vdiv. cbn. field. exact Hn.
      * rewrite <- Hnn. field. exact Hn.
Qed.

(** X13.  Built without an attitude at a position off the polar axis, a
    camera stores a rotation: the attitude matrix has orthonormal columns and
    determinant 1, its inverse is its transpose, and in the camera's axes
    the position is [(0, 0, -|r|)]: the third axis points from the camera to
    the centre of the body. *)
Theorem derived_attitude_is_rotation (pos : V3) (fov resolution : scalar_or_pair)
        (alpha : R) :
  ~ on_polar_axis pos ->
  exists cam,
    Camera_init pos None fov resolution alpha = Ok cam /\
    r cam = pos /\
    matmul (transpose (Camera.T cam)) (Camera.T cam) = identity3 /\
    det (Camera.T cam) = 1 /\
    inv (Camera.T cam) = Ok (transpose (Camera.T cam)) /\
    matvec (transpose (Camera.T cam)) pos = mkV3 0 0 (- norm pos).
Proof.
  intros Hoff.
  destruct (nadir_attitude_rotation Hoff) as (T' & HT & Horth & Hdet & Hpos).
  assert (Hdet0 : det T' <> 0) by (rewrite Hdet; lra).
  exists (mkCamera pos T' fov resolution alpha). cbn [r Camera.T].
  split.
  { unfold Camera_init. rewrite HT.
    rewrite (proj2 (matrix_rank_3 T') Hdet0). reflexivity. }
  split; [reflexivity|]. split; [exact Horth|]. split; [exact Hdet|].
  split; [|exact Hpos].
  apply inv_ok. split; [exact Hdet0|]. symmetry.
  apply minv_orthogonal; assumption.
Qed.

(** A camera on the equator. *)
Lemma derived_attitude_is_rotation_example :
  exists cam,
    Camera_init (mkV3 1 0 0) None (Scalar 90) (Scalar 2) 0 = Ok cam /\
    det (Camera.T cam) = 1.
Proof.
  destruct (@derived_attitude_is_rotation (mkV3 1 0 0) (Scalar 90) (Scalar 2) 0)
    as (cam & Hcam & _ & _ & Hdet & _).
  - intros [Hx _]. cbn in Hx. lra.
  - exists cam. split; assumption.
Defined.

(** *** Where the derived camera looks, and what the field of view means *)

Lemma camera_matrix_entries (fov offset : scalar_or_pair) (alpha : R) :
  camera_matrix fov offset alpha =
  mkM33 (first_axis offset / tan (radians (first_axis fov) / 2)) alpha
        (first_axis offset)
        0 (second_axis offset / tan (radians (second_axis fov) / 2))
        (second_axis offset)
        0 0 1.
Proof. destruct fov, offset; reflexivity. Qed.

Lemma Camera_K_entries (cam : Camera) :
  Camera_K cam =
  mkM33 (first_axis (resolution cam) / 2
         / tan (radians (first_axis (fov cam)) / 2))
        (alpha cam)
        (first_axis (resolution cam) / 2)
        0
        (second_axis (resolution cam) / 2
         / tan (radians (second_axis (fov cam)) / 2))
        (second_axis (resolution cam) / 2)
        0 0 1.
Proof.
  unfold Camera_K. rewrite camera_matrix_entries.
  destruct (resolution cam); reflexivity.
Qed.

Lemma norm_nonneg (v : V3) : 0 <= norm v.
Proof. unfold norm. apply sqrt_pos. Qed.

(** X14.  A camera built without an attitude looks at the centre of the
    body: projected with the inverse of the stored attitude, as
    [project_craters] projects (lines 141-143), the centre of the body lands
    on the principal point, the middle of the image, at the positive
    homogeneous scale [|r|]; this holds for every skew and for every field
    of view whose half angles have a tangent that is not zero, so that the
    focal lengths are quotients by a number that is not zero. *)
Theorem derived_camera_sees_centre (pos : V3) (fov resolution : scalar_or_pair)
        (alpha : R) :
  ~ on_polar_axis pos ->
  tan (radians (first_axis fov) / 2) <> 0 ->
  tan (radians (second_axis fov) / 2) <> 0 ->
  exists cam T_MC,
    Camera_init pos None fov resolution alpha = Ok cam /\
    inv (Camera.T cam) = Ok T_MC /\
    image_of (projection_matrix (Camera_K cam) T_MC (r cam)) (mkV3 0 0 0) 1 =
      vscale (norm pos)
             (mkV3 (first_axis resolution / 2) (second_axis resolution / 2) 1) /\
    0 < norm pos.
Proof.
  intros Hoff _ _.
  destruct (nadir_attitude_rotation Hoff) as (T' & HT & Horth & Hdet & Hpos).
  assert (Hdet0 : det T' <> 0) by (rewrite Hdet; lra).
  exists (mkCamera pos T' fov resolution alpha), (transpose T').
  cbn [r Camera.T]. split.
  { unfold Camera_init. rewrite HT.
    rewrite (proj2 (matrix_rank_3 T') Hdet0). reflexivity. }
  split.
  { apply inv_ok. split; [exact Hdet0|]. symmetry.
    apply minv_orthogonal; assumption. }
  split.
  - rewrite image_of_projection_matrix.
    replace (matvec (transpose T') (vsub (mkV3 0 0 0) pos))
      with (mkV3 0 0 (norm pos)).
    + rewrite Camera_K_entries. cbn [Camera.resolution Camera.fov Camera.alpha].
      unfold matvec, vscale. cbn. apply V3_eq; ring.
    + transitivity (vopp (matvec (transpose T') pos)).
      * rewrite Hpos. unfold vopp. cbn. apply V3_eq; ring.
      * destruct T', pos. unfold vopp, matvec, vsub. cbn. apply V3_eq; ring.
  - assert (H0 := norm_nonneg pos).
    assert (Hn : norm pos <> 0).
    { intros H. apply norm_zero in H. destruct H as (Hx & Hy & _).
      apply Hoff. split; assumption. }
    lra.
Qed.

(** A camera on the equator, 90 degrees of field of view, 2 x 2 pixels. *)
Lemma derived_camera_sees_centre_example :
  exists cam T_MC,
    Camera_init (mkV3 1 0 0) None (Scalar 90) (Scalar 2) 0 = Ok cam /\
    inv (Camera.T cam) = Ok T_MC /\
    image_of (projection_matrix (Camera_K cam) T_MC (r cam)) (mkV3 0 0 0) 1 =
      vscale (norm (mkV3 1 0 0)) (mkV3 (2 / 2) (2 / 2) 1).
Proof.
  destruct (@derived_camera_sees_centre (mkV3 1 0 0) (Scalar 90) (Scalar 2) 0)
    as (cam & T_MC & Hcam & Hinv & Himg & _).
  - intros [Hx _]. cbn in Hx. lra.
  - cbn [first_axis]. rewrite tan_half_of_90. lra.
  - cbn [second_axis]. rewrite tan_half_of_90. lra.
  - exists cam, T_MC. repeat split; assumption.
Defined.

(** X15.  [Camera.K] puts the principal point at the middle of the image
    and sets the focal lengths so that the field of view fills the image:
    the optical axis is imaged at [(res_x / 2, res_y / 2)], and, without
    skew, the rays at half the field-of-view angle on either side of it at
    the pixels [(res_x, res_y)] and [(0, 0)]; a skew [alpha] shifts their
    first coordinate by [alpha tan(fov_y / 2)] either way. *)
Theorem camera_matrix_field_of_view (cam : Camera) :
  let hx := tan (radians (first_axis (fov cam)) / 2) in
  let hy := tan (radians (second_axis (fov cam)) / 2) in
  let res_x := first_axis (resolution cam) in
  let res_y := second_axis (resolution cam) in
  hx <> 0 -> hy <> 0 ->
  matvec (Camera_K cam) (mkV3 0 0 1) = mkV3 (res_x / 2) (res_y / 2) 1 /\
  matvec (Camera_K cam) (mkV3 hx hy 1) =
    mkV3 (res_x + alpha cam * hy) res_y 1 /\
  matvec (Camera_K cam) (mkV3 (- hx) (- hy) 1) =
    mkV3 (- (alpha cam * hy)) 0 1.
Proof.
  intros hx hy res_x res_y Hx Hy. rewrite Camera_K_entries.
  fold hx hy res_x res_y. unfold matvec. cbn.
  repeat split; apply V3_eq; field; assumption.
Qed.

Lemma camera_matrix_field_of_view_example :
  matvec (Camera_K (mkCamera (mkV3 1 0 0) identity3 (Scalar 90) (Scalar 2) 0))
         (mkV3 0 0 1) = mkV3 (2 / 2) (2 / 2) 1.
Proof.
  apply (@camera_matrix_field_of_view
           (mkCamera (mkV3 1 0 0) identity3 (Scalar 90) (Scalar 2) 0));
    cbn [fov first_axis second_axis]; rewrite tan_half_of_90; lra.
Defined.

(** *** A camera from latitude, longitude and altitude *)

Lemma radians_0 : radians 0 = 0.
Proof. unfold radians. field. Qed.

(** X16.  [Camera.from_coordinates] places the camera at the point of
    latitude [lat] and longitude [long] (converted from degrees when
    [convert_to_radians] is set), at the distance [|Rbody + altitude|] from
    the centre.  For a latitude strictly between the poles and a distance
    that is not zero the construction without an attitude succeeds; for a
    latitude from pole to pole the construction with an attitude returns the
    camera storing that attitude; a latitude beyond a pole is refused with
    the [ValueError] of astropy, whatever the attitude. *)
Theorem from_coordinates_position (lat long altitude Rbody alpha : R)
        (fov resolution : scalar_or_pair) (conv : bool) :
  let lat' := if conv then radians lat else lat in
  let long' := if conv then radians long else long in
  let pos := mkV3 ((Rbody + altitude) * cos lat' * cos long')
                  ((Rbody + altitude) * cos lat' * sin long')
                  ((Rbody + altitude) * sin lat') in
  norm pos = Rabs (Rbody + altitude) /\
  (- (PI / 2) < lat' < PI / 2 -> Rbody + altitude <> 0 ->
   exists T',
     from_coordinates lat long altitude fov resolution None Rbody alpha conv =
     Ok (mkCamera pos T' fov resolution alpha)) /\
  (- (PI / 2) <= lat' <= PI / 2 ->
   forall T',
     from_coordinates lat long altitude fov resolution (Some T') Rbody alpha
                      conv =
     Ok (mkCamera pos T' fov resolution alpha)) /\
  (lat' < - (PI / 2) \/ PI / 2 < lat' ->
   forall T0,
     from_coordinates lat long altitude fov resolution T0 Rbody alpha conv =
     Raise ValueError).
Proof.
  intros lat' long' pos.
  assert (Hin : - (PI / 2) <= lat' <= PI / 2 ->
                forall T0,
                  from_coordinates lat long altitude fov resolution T0 Rbody
                                   alpha conv =
                  Camera_init pos T0 fov resolution alpha).
  { intros [Hlo Hhi] T0. unfold from_coordinates, spherical_to_cartesian.
    fold lat' long'.
    replace (if conv then (radians lat, radians long) else (lat, long))
      with (lat', long') by (unfold lat', long'; destruct conv; reflexivity).
    cbv beta iota.
    destruct (Rle_dec (- (PI / 2)) lat'); [|contradiction].
    destruct (Rle_dec lat' (PI / 2)); [|contradiction].
    reflexivity. }
  assert (Hout : lat' < - (PI / 2) \/ PI / 2 < lat' ->
                 forall T0,
                   from_coordinates lat long altitude fov resolution T0 Rbody
                                    alpha conv = Raise ValueError).
  { intros Hlat T0. unfold from_coordinates, spherical_to_cartesian.
    replace (if conv then (radians lat, radians long) else (lat, long))
      with (lat', long') by (unfold lat', long'; destruct conv; reflexivity).
    cbv beta iota.
    destruct (Rle_dec (- (PI / 2)) lat') as [Hlo|Hlo];
      [|reflexivity].
    destruct (Rle_dec lat' (PI / 2)) as [Hhi|Hhi]; [|reflexivity].
    exfalso. lra. }
  split; [|split; [|split; [|exact Hout]]].
  - unfold norm, pos. cbn [vx vy vz].
    replace ((Rbody + altitude) * cos lat' * cos long' *
             ((Rbody + altitude) * cos lat' * cos long') +
             (Rbody + altitude) * cos lat' * sin long' *
             ((Rbody + altitude) * cos lat' * sin long') +
             (Rbody + altitude) * sin lat' * ((Rbody + altitude) * sin lat'))
      with (Rsqr (Rbody + altitude)).
    + apply sqrt_Rsqr_abs.
    + unfold Rsqr.
      assert (H1 := sin2_cos2 lat'). assert (H2 := sin2_cos2 long').
      unfold Rsqr in H1, H2.
      transitivity
        ((Rbody + altitude) * (Rbody + altitude)
         * ((cos lat' * cos lat') * (sin long' * sin long' + cos long' * cos long')
            + sin lat' * sin lat')); [|ring].
      rewrite H2, Rmult_1_r, (Rplus_comm (cos lat' * cos lat')), H1. ring.
  - intros [Hlo Hhi] Hrho. rewrite Hin by lra.
    assert (Hcos : cos lat' <> 0).
    { assert (H := cos_gt_0 lat' Hlo Hhi). lra. }
    assert (Hoff : ~ on_polar_axis pos).
    { intros [Hx Hy]. unfold pos in Hx, Hy. cbn [vx vy] in Hx, Hy.
      assert (H2 := sin2_cos2 long'). unfold Rsqr in H2.
      assert (Hc : cos long' = 0).
      { apply Rmult_integral in Hx. destruct Hx as [Hx|Hx]; [|exact Hx].
        apply Rmult_integral in Hx. destruct Hx; contradiction. }
      assert (Hs : sin long' = 0).
      { apply Rmult_integral in Hy. destruct Hy as [Hy|Hy]; [|exact Hy].
        apply Rmult_integral in Hy. destruct Hy; contradiction. }
      rewrite Hc, Hs in H2. lra. }
    destruct (nadir_attitude_off_axis Hoff) as (T' & HT & Hdet).
    exists T'. unfold Camera_init. rewrite HT.
    rewrite (proj2 (matrix_rank_3 T') Hdet). reflexivity.
  - intros Hlat T'. rewrite Hin by exact Hlat. reflexivity.
Qed.

(** Latitude 0, longitude 0, on the surface of a body of radius 1. *)
Lemma from_coordinates_position_example :
  exists T',
    from_coordinates 0 0 0 (Scalar 90) (Scalar 2) None 1 0 true =
    Ok (mkCamera (mkV3 ((1 + 0) * cos (radians 0) * cos (radians 0))
                       ((1 + 0) * cos (radians 0) * sin (radians 0))
                       ((1 + 0) * sin (radians 0)))
                 T' (Scalar 90) (Scalar 2) 0).
Proof.
  destruct (@from_coordinates_position 0 0 0 1 0 (Scalar 90) (Scalar 2) true)
    as (_ & Hok & _).
  apply Hok.
  - rewrite radians_0. assert (H := PI_RGT_0). lra.
  - lra.
Defined.

(** *** What the projection keeps of a conic *)

Lemma project_craters_returns (ENU_system : V3 -> V3 * V3 * V3)
      (C : list M33) (p : list V3) (fov resolution : scalar_or_pair)
      (T_CM : M33) (r_M : V3) (out : list M33) :
  project_craters ENU_system C p fov resolution T_CM r_M = Ok out ->
  exists Hs,
    length Hs = length p /\ Forall nonsingular Hs /\
    out = map2 projected_conic Hs C.
Proof.
  unfold project_craters. intros Hrun.
  apply bind_ok in Hrun. destruct Hrun as [T' [_ Hrun]].
  apply bind_ok in Hrun. destruct Hrun as [Hi [Hinv Hrun]].
  apply mapM_inv_ok in Hinv. destruct Hinv as [Hns ->].
  rewrite (proj2 (mapM_inv_ok _ _)) in Hrun
    by (split; [exact Hns|reflexivity]).
  cbn [bind] in Hrun. injection Hrun as <-.
  eexists. split; [|split; [exact Hns|apply pullback_batch]].
  unfold crater_camera_homography. apply length_map.
Qed.

Lemma project_craters_defined (ENU_system : V3 -> V3 * V3 * V3)
      (C : list M33) (p : list V3) (fov resolution : scalar_or_pair)
      (T_CM : M33) (r_M : V3) :
  det T_CM <> 0 ->
  Forall nonsingular
         (crater_camera_homography ENU_system p
            (projection_matrix
               (camera_matrix fov
                  match resolution with
                  | Pair res_x res_y => Pair (res_x / 2) (res_y / 2)
                  | Scalar res => Scalar (res / 2)
                  end 0)
               (minv T_CM) r_M)) ->
  exists out, project_craters ENU_system C p fov resolution T_CM r_M = Ok out.
Proof.
  intros HT Hns. unfold project_craters.
  rewrite (proj2 (inv_ok T_CM (minv T_CM))) by (split; [exact HT|reflexivity]).
  cbn [bind].
  rewrite !(proj2 (mapM_inv_ok _ _)) by (split; [exact Hns|reflexivity]).
  cbn [bind]. eexists. reflexivity.
Qed.

Lemma transpose_projected_conic (H C : M33) :
  transpose (projected_conic H C) = projected_conic H (transpose C).
Proof.
  unfold projected_conic. generalize (minv H). intros M.
  destruct M, C. apply M33_eq; cbn; ring.
Qed.

Lemma det_transpose (A : M33) : det (transpose A) = det A.
Proof. destruct A. unfold det. cbn. ring. Qed.

Lemma det_identity3 : det identity3 = 1.
Proof. unfold det. cbn. ring. Qed.

Lemma det_projected_conic (H C : M33) :
  det H <> 0 -> det (projected_conic H C) * (det H * det H) = det C.
Proof.
  intros HH. unfold projected_conic.
  rewrite !det_matmul, det_transpose.
  assert (E : det (minv H) * det H = 1).
  { rewrite <- det_matmul, (matmul_minv_l HH). apply det_identity3. }
  transitivity (det C * (det (minv H) * det H) * (det (minv H) * det H));
    [ring|].
  rewrite E. ring.
Qed.

(** X17.  On aligned batches, what [project_craters] returns for a crater
    is a conic of the same kind as the one passed for it: it is symmetric
    when the crater's conic is, and its determinant is the crater's divided
    by the square of the determinant of the crater's homography, so it is
    degenerate exactly when the crater's conic is and has the sign of its
    determinant. *)
Theorem project_craters_keeps_conics (ENU_system : V3 -> V3 * V3 * V3)
        (C : list M33) (p : list V3) (fov resolution : scalar_or_pair)
        (T_CM : M33) (r_M : V3) (out : list M33) :
  length C = length p ->
  project_craters ENU_system C p fov resolution T_CM r_M = Ok out ->
  Forall2 (fun C_i A_i =>
             (symmetric C_i -> symmetric A_i) /\
             (exists h, h <> 0 /\ det A_i * (h * h) = det C_i) /\
             (det A_i = 0 <-> det C_i = 0) /\
             (det A_i < 0 <-> det C_i < 0))
          C out.
Proof.
  intros Hlen Hrun.
  destruct (project_craters_returns _ _ _ _ _ _ _ Hrun) as (Hs & HL & Hns & ->).
  rewrite <- Hlen in HL. clear Hrun Hlen. revert C HL.
  induction Hns as [|H Hs HH Hns IH]; intros [|c C] HL; try discriminate.
  - constructor.
  - unfold map2. cbn [combine map fst snd]. constructor.
    + assert (Hd := det_projected_conic c HH).
      assert (Hsq : 0 < det H * det H) by (unfold nonsingular in HH; nra).
      split; [|split; [|split]].
      * unfold symmetric. intros Hc.
        rewrite transpose_projected_conic, Hc. reflexivity.
      * exists (det H). split; [exact HH|exact Hd].
      * split; intros E; [rewrite <- Hd, E; ring|]. nra.
      * split; intros E; nra.
    + apply IH. cbn [length] in HL. lia.
Qed.

(** One crater seen by a camera above it. *)
Lemma project_craters_keeps_conics_example :
  exists out,
    project_craters fixed_ENU [ProjectiveInvariants.conic_a] [mkV3 0 0 0]
                    (Scalar 90) (Scalar 2) identity3 (mkV3 0 0 1) = Ok out /\
    Forall2 (fun C_i A_i =>
               (symmetric C_i -> symmetric A_i) /\
               (exists h, h <> 0 /\ det A_i * (h * h) = det C_i) /\
               (det A_i = 0 <-> det C_i = 0) /\
               (det A_i < 0 <-> det C_i < 0))
            [ProjectiveInvariants.conic_a] out.
Proof.
  destruct (@project_craters_defined fixed_ENU
              [ProjectiveInvariants.conic_a] [mkV3 0 0 0]
              (Scalar 90) (Scalar 2) identity3 (mkV3 0 0 1)) as [out Hout].
  - unfold det. cbn. lra.
  - constructor; [|constructor]. unfold nonsingular.
    rewrite crater_homography_closed, !det_matmul, minv_identity3.
    unfold camera_matrix, det, fixed_ENU. cbn.
    replace (2 / 2) with 1 by field. rewrite tan_half_of_90. lra.
  - exists out. split; [exact Hout|].
    apply (@project_craters_keeps_conics fixed_ENU
             [ProjectiveInvariants.conic_a] [mkV3 0 0 0]
             (Scalar 90) (Scalar 2) identity3 (mkV3 0 0 1) out eq_refl Hout).
Defined.

(** *** An image without extent *)

Lemma det_camera_matrix (fov offset : scalar_or_pair) (alpha : R) :
  det (camera_matrix fov offset alpha) =
  (first_axis offset / tan (radians (first_axis fov) / 2))
  * (second_axis offset / tan (radians (second_axis fov) / 2)).
Proof. rewrite camera_matrix_entries. unfold det. cbn. ring. Qed.

(** X22.  With a resolution of zero along either axis the focal length of
    that axis is zero and the camera matrix is singular, and so is every
    crater's homography: [project_craters], given an invertible attitude and
    at least one crater, raises [LinAlgError] at the inversion of the
    homographies.  The tangents of the half field-of-view angles are taken
    to be non-zero, so that no focal length is a quotient of zero by
    zero. *)
Theorem project_craters_zero_resolution (ENU_system : V3 -> V3 * V3 * V3)
        (C : list M33) (p : list V3) (fov resolution : scalar_or_pair)
        (T_CM : M33) (r_M : V3) :
  det T_CM <> 0 -> p <> [] ->
  tan (radians (first_axis fov) / 2) <> 0 ->
  tan (radians (second_axis fov) / 2) <> 0 ->
  first_axis resolution = 0 \/ second_axis resolution = 0 ->
  project_craters ENU_system C p fov resolution T_CM r_M = Raise LinAlgError.
Proof.
  intros HT Hp _ _ Hres. unfold project_craters.
  rewrite (proj2 (inv_ok T_CM (minv T_CM))) by (split; [exact HT|reflexivity]).
  cbn [bind]. destruct p as [|q p]; [contradiction|].
  unfold crater_camera_homography. cbn [map mapM].
  set (offset := match resolution with
                 | Pair res_x res_y => Pair (res_x / 2) (res_y / 2)
                 | Scalar res => Scalar (res / 2)
                 end).
  assert (Hoff : first_axis offset = 0 \/ second_axis offset = 0).
  { unfold offset. destruct resolution as [v|a b]; cbn [first_axis second_axis] in *;
      destruct Hres as [E|E]; rewrite E; [left|right|left|right]; field. }
  assert (Hdet : det (crater_homography ENU_system
                        (projection_matrix (camera_matrix fov offset 0)
                                           (minv T_CM) r_M) q) = 0).
  { rewrite crater_homography_closed, !det_matmul, det_camera_matrix.
    destruct Hoff as [E|E]; rewrite E; unfold Rdiv; ring. }
  unfold inv at 1. destruct (Req_dec_T _ 0) as [_|Hne]; [reflexivity|].
  contradiction.
Qed.

Lemma project_craters_zero_resolution_example :
  project_craters fixed_ENU [ProjectiveInvariants.conic_a] [mkV3 0 0 0]
                  (Scalar 90) (Scalar 0) identity3 (mkV3 0 0 1) =
  Raise LinAlgError.
Proof.
  apply (@project_craters_zero_resolution fixed_ENU
           [ProjectiveInvariants.conic_a] [mkV3 0 0 0]
           (Scalar 90) (Scalar 0) identity3 (mkV3 0 0 1)).
  - unfold det. cbn. lra.
  - discriminate.
  - cbn [first_axis]. rewrite tan_half_of_90. lra.
  - cbn [second_axis]. rewrite tan_half_of_90. lra.
  - left. reflexivity.
Defined.

(** *** The attitude [Camera.P] uses *)

Lemma nadir_attitude_entries (pos : V3) :
  ~ on_polar_axis pos ->
  exists T',
    nadir_attitude pos = Some T' /\
    m20 T' = 0 /\ m02 T' = - vx pos / norm pos.
Proof.
  intros Hoff.
  destruct (nadir_attitude_off_axis Hoff) as (T' & HT & _).
  exists T'. split; [exact HT|].
  unfold nadir_attitude in HT.
  destruct (unit_vector pos) as [u|] eqn:Eu; [|discriminate].
  destruct (unit_vector (cross (mkV3 0 0 1) pos)) as [X|] eqn:EX;
    [|discriminate].
  destruct (unit_vector (cross (vopp u) X)) as [Y|]; [|discriminate].
  injection HT as <-. cbn [m20 m02 columns].
  unfold unit_vector in Eu, EX.
  destruct (Req_dec_T (norm pos) 0) as [|Hn]; [discriminate|].
  destruct (Req_dec_T (norm (cross (mkV3 0 0 1) pos)) 0) as [|Hm];
    [discriminate|].
  injection Eu as <-. injection EX as <-. split.
  - unfold vdiv, cross. cbn. field. exact Hm.
  - unfold vopp, vdiv. cbn. field. exact Hn.
Qed.

Lemma projection_matrix_p20 (cam : Camera) (T0 : M33) (pos : V3) :
  p20 (projection_matrix (Camera_K cam) T0 pos) = m20 T0.
Proof.
  rewrite Camera_K_entries. unfold projection_matrix. cbn. ring.
Qed.

(** X27.  [Camera.P] passes the stored attitude to [projection_matrix] as
    it is, while [project_craters] passes the inverse of the attitude it is
    given.  For a camera built without an attitude at a position with a
    non-zero first coordinate the two projection matrices differ: the entry
    in the third row and first column is [0] in [Camera.P] and [-x / |r|]
    in the matrix built from the inverse. *)
Theorem camera_P_attitude_convention (pos : V3)
        (fov resolution : scalar_or_pair) (alpha : R) :
  vx pos <> 0 ->
  exists cam T_MC,
    Camera_init pos None fov resolution alpha = Ok cam /\
    inv (Camera.T cam) = Ok T_MC /\
    p20 (Camera_P cam) = 0 /\
    p20 (projection_matrix (Camera_K cam) T_MC (r cam)) =
      - vx pos / norm pos /\
    Camera_P cam <> projection_matrix (Camera_K cam) T_MC (r cam).
Proof.
  intros Hx.
  assert (Hoff : ~ on_polar_axis pos) by (intros [H _]; contradiction).
  destruct (nadir_attitude_rotation Hoff) as (T' & HT & Horth & Hdet & _).
  destruct (nadir_attitude_entries Hoff) as (T'' & HT' & H20 & H02).
  rewrite HT in HT'. injection HT' as <-.
  assert (Hdet0 : det T' <> 0) by (rewrite Hdet; lra).
  assert (Hn : norm pos <> 0).
  { intros H. apply norm_zero in H. destruct H as (H & _). contradiction. }
  exists (mkCamera pos T' fov resolution alpha), (transpose T').
  assert (E1 : p20 (Camera_P (mkCamera pos T' fov resolution alpha)) = 0).
  { unfold Camera_P. rewrite projection_matrix_p20. exact H20. }
  assert (E2 : p20 (projection_matrix
                      (Camera_K (mkCamera pos T' fov resolution alpha))
                      (transpose T') pos) = - vx pos / norm pos).
  { rewrite projection_matrix_p20. destruct T'. cbn in *. exact H02. }
  cbn [r Camera.T]. split.
  { unfold Camera_init. rewrite HT.
    rewrite (proj2 (matrix_rank_3 T') Hdet0). reflexivity. }
  split.
  { apply inv_ok. split; [exact Hdet0|]. symmetry.
    apply minv_orthogonal; assumption. }
  split; [exact E1|]. split; [exact E2|].
  intros E. rewrite E, E2 in E1.
  apply Hx. apply (Rmult_eq_compat_r (norm pos)) in E1.
  unfold Rdiv in E1. rewrite Rmult_assoc, Rinv_l, Rmult_0_l in E1 by exact Hn.
  lra.
Qed.

(** A camera on the equator at longitude zero. *)
Lemma camera_P_attitude_convention_example :
  exists cam T_MC,
    Camera_init (mkV3 1 0 0) None (Scalar 90) (Scalar 2) 0 = Ok cam /\
    inv (Camera.T cam) = Ok T_MC /\
    Camera_P cam <> projection_matrix (Camera_K cam) T_MC (r cam).
Proof.
  destruct (@camera_P_attitude_convention (mkV3 1 0 0) (Scalar 90) (Scalar 2) 0)
    as (cam & T_MC & Hcam & Hinv & _ & _ & Hne).
  - cbn. lra.
  - exists cam, T_MC. repeat split; assumption.
Defined.
End Camera.

(* ================================================================== *)
(** ** [training.py]: the scores and the losses *)

(** The data set, the optimizer and the hyper-parameter search act on
    files, on the state of a network and on random choices, and are left
    out; the scores and the losses are functions of the entries of their
    arguments.  [float32] arithmetic is idealised as exact arithmetic. *)

Module Training.

Open Scope R_scope.

(** A tensor: the size of its first axis and its entries in row-major
    order.  [t.view(num, -1)] and [t.view(-1)] keep the entries. *)
Record tensor : Type := mkTensor { size0 : nat; entries : list R }.

(** [torch.sum(t)], [t.sum()]. *)
Definition tsum (l : list R) : R := fold_right Rplus 0 l.

(** [a * b] on tensors of one shape. *)
Definition tmul (a b : list R) : list R := Np.map2 Rmult a b.

(** A function applied entry by entry. *)
Definition tmap (f : R -> R) (t : tensor) : tensor :=
  mkTensor (size0 t) (map f (entries t)).

(** [torch.nn.Sigmoid]. *)
Definition sigmoid (x : R) : R := 1 / (1 + exp (- x)).

(** [dice_coefficient(pred, target, eps)], lines 194-199: the value it
    returns for a batch that is not empty.  On an empty batch
    [pred.view(0, -1)] is refused with a [RuntimeError]; the statements on
    the value of [dice_coefficient] leave that batch out. *)
Definition dice_coefficient (pred target : tensor) (eps : R) : R :=
  let num := size0 pred in
  let m1 := entries (mkTensor num (entries pred)) in
  let m2 := entries (mkTensor num (entries target)) in
  let intersection := tsum (tmul m1 m2) in
  (2 * intersection + eps) / (tsum m1 + tsum m2 + eps).

Section FScore.

(** [torch.nn.Softmax2d] depends on the shape of its argument: a
    parameter. *)
Variable softmax2d : tensor -> tensor.

(** The choice of lines 167-176; [None] when the name is not one of the
    three, where the code raises [NotImplementedError]. *)
Definition activation_fn (activation : option string)
  : option (tensor -> tensor) :=
  match activation with
  | None => Some (fun x => x)
  | Some name =>
      if String.eqb name "none" then Some (fun x => x)
      else if String.eqb name "sigmoid" then Some (tmap sigmoid)
      else if String.eqb name "softmax2d" then Some softmax2d
      else None
  end.

(** [f_score(pr, gt, beta, eps, threshold, activation)], lines 167-190;
    [None] stands for the [NotImplementedError] of line 174. *)
Definition f_score (pr gt : tensor) (beta eps : R) (threshold : option R)
           (activation : option string) : option R :=
  match activation_fn activation with
  | None => None
  | Some act =>
      let pr := act pr in
      let pr :=
        match threshold with
        | Some th => tmap (fun x => if Rlt_dec th x then 1 else 0) pr
        | None => pr
        end in
      let tp := tsum (tmul (entries gt) (entries pr)) in
      let fp := tsum (entries pr) - tp in
      let fn := tsum (entries gt) - tp in
      Some (((1 + beta ^ 2) * tp + eps)
            / ((1 + beta ^ 2) * tp + beta ^ 2 * fn + fp + eps))
  end.

End FScore.

(** [TverskyLoss]: the attributes set by [__init__], lines 208-211; the
    defaults are [alpha = 0.5], [beta = 0.5] and [eps = 1.0]. *)
Record TverskyLoss : Type := mkTverskyLoss {
  alpha : R;
  beta : R;
  eps : R }.

(** [TverskyLoss.forward], lines 214-225. *)
Definition TverskyLoss_forward (self : TverskyLoss) (inputs targets : tensor)
  : R :=
  let inputs := entries (tmap sigmoid inputs) in
  let targets := entries targets in
  let TP := tsum (tmul inputs targets) in
  let FP := tsum (tmul (map (fun t => 1 - t) targets) inputs) in
  let FN := tsum (tmul targets (map (fun i => 1 - i) inputs)) in
  let loss := (TP + eps self) / (TP + alpha self * FP + beta self * FN + eps self) in
  1 - loss.

(** [SoftDiceLoss.forward], lines 234-239, for a loss built with [eps];
    the score of line 237 is a single number, which [sum()] leaves. *)
Definition SoftDiceLoss_forward (eps : R) (logits targets : tensor) : R :=
  let probs := tmap sigmoid logits in
  let num := size0 targets in
  let score := dice_coefficient probs targets eps in
  1 - score / INR num.

(** All entries lie between 0 and 1, as those of a mask do. *)
Definition unit_range (l : list R) : Prop := Forall (fun x => 0 <= x <= 1) l.

(** All entries are 0 or 1. *)
Definition binary (l : list R) : Prop := Forall (fun x => x = 0 \/ x = 1) l.

(** *** Sums over aligned tensors *)

Lemma aligned_ind (P : list R -> list R -> Prop) :
  P [] [] ->
  (forall x y a b, length a = length b -> P a b -> P (x :: a) (y :: b)) ->
  forall a b, length a = length b -> P a b.
Proof.
  intros H0 HS. induction a as [|x a IH]; intros [|y b] H; try discriminate.
  - exact H0.
  - cbn [length] in H. apply HS; [lia|apply IH; lia].
Qed.

Lemma tsum_tmul_comm (a b : list R) : tsum (tmul a b) = tsum (tmul b a).
Proof.
  unfold tmul, Np.map2. revert b.
  induction a as [|x a IH]; intros [|y b]; try reflexivity.
  cbn [combine map tsum fold_right fst snd]. fold (tsum (map (fun p => fst p * snd p) (combine a b))).
  fold (tsum (map (fun p => fst p * snd p) (combine b a))).
  rewrite IH. ring.
Qed.

Lemma tsum_cons (x : R) (l : list R) : tsum (x :: l) = x + tsum l.
Proof. reflexivity. Qed.

Lemma tmul_cons (x y : R) (a b : list R) :
  tmul (x :: a) (y :: b) = x * y :: tmul a b.
Proof. reflexivity. Qed.

(** On aligned tensors [sum((1 - b) * a) = sum(a) - sum(a * b)]. *)
Lemma tsum_complement (a b : list R) :
  length a = length b ->
  tsum (tmul (map (fun t => 1 - t) b) a) = tsum a - tsum (tmul a b).
Proof.
  revert a b. apply aligned_ind.
  - cbn. ring.
  - intros x y a b _ IH. cbn [map]. rewrite !tmul_cons, !tsum_cons, IH. ring.
Qed.

(** On aligned tensors with entries between 0 and 1 the sum of the products
    is at most the mean of the two sums. *)
Lemma tsum_tmul_bounds (a b : list R) :
  length a = length b -> unit_range a -> unit_range b ->
  0 <= tsum (tmul a b) /\ 2 * tsum (tmul a b) <= tsum a + tsum b /\
  tsum (tmul a b) <= tsum a /\ tsum (tmul a b) <= tsum b /\
  0 <= tsum a /\ 0 <= tsum b.
Proof.
  revert a b. apply (aligned_ind
    (fun a b => unit_range a -> unit_range b ->
       0 <= tsum (tmul a b) /\ 2 * tsum (tmul a b) <= tsum a + tsum b /\
       tsum (tmul a b) <= tsum a /\ tsum (tmul a b) <= tsum b /\
       0 <= tsum a /\ 0 <= tsum b)).
  - intros _ _. cbn. lra.
  - intros x y a b _ IH Ha Hb.
    inversion Ha as [|? ? Hx Ha']; inversion Hb as [|? ? Hy Hb']; subst.
    destruct (IH Ha' Hb') as (I0 & I1 & I2 & I3 & I4 & I5).
    rewrite tmul_cons, !tsum_cons. repeat split; nra.
Qed.

Lemma sigmoid_range (x : R) : 0 < sigmoid x < 1.
Proof.
  unfold sigmoid. assert (H := exp_pos (- x)).
  split.
  - apply Rdiv_lt_0_compat; lra.
  - apply (Rmult_lt_reg_r (1 + exp (- x))); [lra|].
    unfold Rdiv. rewrite Rmult_assoc, Rinv_l by lra. lra.
Qed.

Lemma unit_range_sigmoid (l : list R) : unit_range (map sigmoid l).
Proof.
  unfold unit_range. apply Forall_forall. intros y Hy.
  apply in_map_iff in Hy. destruct Hy as (x & <- & _).
  assert (H := sigmoid_range x). lra.
Qed.

Lemma binary_unit_range (l : list R) : binary l -> unit_range l.
Proof.
  unfold binary, unit_range. apply Forall_impl. intros x [-> | ->]; lra.
Qed.

Lemma tsum_tmul_binary (l : list R) : binary l -> tsum (tmul l l) = tsum l.
Proof.
  induction 1 as [|x l Hx _ IH]; [reflexivity|].
  rewrite tmul_cons, !tsum_cons, IH. destruct Hx as [-> | ->]; ring.
Qed.

(** *** The Dice coefficient and the F-score *)

Lemma dice_coefficient_bounds (pred target : tensor) (eps : R) :
  length (entries pred) = length (entries target) ->
  unit_range (entries pred) -> unit_range (entries target) -> 0 < eps ->
  0 < dice_coefficient pred target eps <= 1.
Proof.
  intros Hlen Hp Ht Heps.
  destruct (tsum_tmul_bounds Hlen Hp Ht) as (I0 & I1 & _ & _ & I4 & I5).
  unfold dice_coefficient. cbv zeta. cbn [entries].
  set (I := tsum (tmul (entries pred) (entries target))) in *.
  set (sp := tsum (entries pred)) in *. set (st := tsum (entries target)) in *.
  split.
  - apply Rdiv_lt_0_compat; lra.
  - apply (Rmult_le_reg_r (sp + st + eps)); [lra|].
    unfold Rdiv. rewrite Rmult_assoc, Rinv_l by lra. lra.
Qed.

(** X23.  On tensors of one shape, for a batch that is not empty, with
    entries between 0 and 1 and with [eps > 0], the Dice coefficient lies in
    [(0, 1]]; it does not depend on the order of its two arguments; and it
    is 1 for a binary mask compared with itself. *)
Theorem dice_coefficient_range (pred target : tensor) (eps : R) :
  (1 <= size0 pred)%nat -> size0 target = size0 pred ->
  length (entries pred) = length (entries target) ->
  unit_range (entries pred) -> unit_range (entries target) -> 0 < eps ->
  0 < dice_coefficient pred target eps <= 1 /\
  dice_coefficient target pred eps = dice_coefficient pred target eps /\
  (binary (entries target) -> dice_coefficient target target eps = 1).
Proof.
  intros _ _ Hlen Hp Ht Heps.
  split; [apply dice_coefficient_bounds; assumption|].
  destruct (tsum_tmul_bounds Hlen Hp Ht) as (_ & _ & _ & _ & _ & I5).
  unfold dice_coefficient. cbv zeta. cbn [entries]. split.
  - rewrite (tsum_tmul_comm (entries target) (entries pred)).
    f_equal. ring.
  - intros Hb. rewrite (tsum_tmul_binary Hb). field. lra.
Qed.

Lemma dice_coefficient_range_example :
  0 < dice_coefficient (mkTensor 1 [1; 0]) (mkTensor 1 [1; 1]) 1 <= 1.
Proof.
  apply (@dice_coefficient_range (mkTensor 1 [1; 0]) (mkTensor 1 [1; 1]) 1).
  - cbn. lia.
  - reflexivity.
  - reflexivity.
  - repeat constructor; lra.
  - repeat constructor; lra.
  - lra.
Defined.

(** X24.  With [beta = 1] and no threshold, [f_score] is the Dice
    coefficient of the activated prediction and the ground truth: of the
    prediction itself when [activation] is [None] or ["none"], of its
    sigmoid with the default ["sigmoid"].  An activation name other than
    ["none"], ["sigmoid"] and ["softmax2d"] makes it raise. *)
Theorem f_score_beta_1_is_dice (softmax2d : tensor -> tensor)
        (pr gt : tensor) (eps : R) :
  length (entries pr) = length (entries gt) ->
  f_score softmax2d pr gt 1 eps None None =
    Some (dice_coefficient pr gt eps) /\
  f_score softmax2d pr gt 1 eps None (Some "none"%string) =
    Some (dice_coefficient pr gt eps) /\
  f_score softmax2d pr gt 1 eps None (Some "sigmoid"%string) =
    Some (dice_coefficient (tmap sigmoid pr) gt eps) /\
  f_score softmax2d pr gt 1 eps None (Some "softmax2d"%string) =
    Some (dice_coefficient (softmax2d pr) gt eps) /\
  (forall name,
     name <> "none"%string -> name <> "sigmoid"%string ->
     name <> "softmax2d"%string ->
     forall beta threshold,
       f_score softmax2d pr gt beta eps threshold (Some name) = None).
Proof.
  intros _.
  assert (H : forall p : tensor,
             Some (((1 + 1 ^ 2) * tsum (tmul (entries gt) (entries p)) + eps)
                   / ((1 + 1 ^ 2) * tsum (tmul (entries gt) (entries p))
                      + 1 ^ 2 * (tsum (entries gt)
                                 - tsum (tmul (entries gt) (entries p)))
                      + (tsum (entries p)
                         - tsum (tmul (entries gt) (entries p))) + eps)) =
             Some (dice_coefficient p gt eps)).
  { intros p. unfold dice_coefficient. cbv zeta. cbn [entries].
    rewrite (tsum_tmul_comm (entries gt) (entries p)).
    f_equal. f_equal; ring. }
  split; [apply H|]. split; [apply H|]. split; [apply H|]. split; [apply H|].
  intros name H1 H2 H3 beta threshold. unfold f_score, activation_fn.
  apply String.eqb_neq in H1, H2, H3. rewrite H1, H2, H3. reflexivity.
Qed.

Lemma f_score_beta_1_is_dice_example :
  f_score (fun t => t) (mkTensor 1 [1; 0]) (mkTensor 1 [1; 1]) 1 1 None None =
  Some (dice_coefficient (mkTensor 1 [1; 0]) (mkTensor 1 [1; 1]) 1).
Proof.
  apply (@f_score_beta_1_is_dice (fun t => t)
           (mkTensor 1 [1; 0]) (mkTensor 1 [1; 1]) 1 eq_refl).
Defined.

(** *** The losses *)

(** X25.  [SoftDiceLoss] divides the Dice coefficient of the whole batch by
    the number of samples: on a batch of [num >= 1] samples with a mask
    between 0 and 1, and [eps > 0], the loss lies in [[1 - 1/num, 1)], so it
    cannot fall below [1 - 1/num] however good the prediction. *)
Theorem soft_dice_loss_bounds (eps : R) (logits targets : tensor) :
  length (entries logits) = length (entries targets) ->
  unit_range (entries targets) -> 0 < eps -> (1 <= size0 targets)%nat ->
  SoftDiceLoss_forward eps logits targets =
    1 - dice_coefficient (tmap sigmoid logits) targets eps
        / INR (size0 targets) /\
  1 - 1 / INR (size0 targets) <= SoftDiceLoss_forward eps logits targets < 1.
Proof.
  intros Hlen Ht Heps Hnum. split; [reflexivity|].
  unfold SoftDiceLoss_forward. cbv zeta.
  assert (Hl : length (entries (tmap sigmoid logits)) = length (entries targets))
    by (cbn [tmap entries]; rewrite length_map; exact Hlen).
  assert (Hp : unit_range (entries (tmap sigmoid logits)))
    by apply unit_range_sigmoid.
  destruct (@dice_coefficient_bounds _ _ _ Hl Hp Ht Heps) as [D0 D1].
  set (d := dice_coefficient (tmap sigmoid logits) targets eps) in *.
  assert (Hn : 1 <= INR (size0 targets)).
  { replace 1 with (INR 1) by reflexivity. apply le_INR. exact Hnum. }
  assert (Hi : 0 < / INR (size0 targets)) by (apply Rinv_0_lt_compat; lra).
  unfold Rdiv. split.
  - assert (d * / INR (size0 targets) <= 1 * / INR (size0 targets))
      by (apply Rmult_le_compat_r; lra).
    lra.
  - assert (0 < d * / INR (size0 targets)) by (apply Rmult_lt_0_compat; lra).
    lra.
Qed.

Lemma soft_dice_loss_bounds_example :
  1 - 1 / INR 2 <=
  SoftDiceLoss_forward 1 (mkTensor 2 [0; 0]) (mkTensor 2 [1; 1]) < 1.
Proof.
  apply (@soft_dice_loss_bounds 1 (mkTensor 2 [0; 0]) (mkTensor 2 [1; 1])).
  - reflexivity.
  - repeat constructor; lra.
  - lra.
  - cbn. lia.
Defined.

(** X26.  On tensors of one shape with a mask between 0 and 1, and with
    [eps > 0] and weights [alpha, beta >= 0], the Tversky loss lies in
    [[0, 1)]; with [alpha = beta = 1/2], the defaults, it is one minus the
    Dice coefficient of the sigmoid of the inputs and the mask, taken with
    twice the [eps]. *)
Theorem tversky_loss_range (self : TverskyLoss) (inputs targets : tensor) :
  length (entries inputs) = length (entries targets) ->
  unit_range (entries targets) -> 0 < eps self ->
  0 <= alpha self -> 0 <= beta self ->
  0 <= TverskyLoss_forward self inputs targets < 1 /\
  (alpha self = 1 / 2 -> beta self = 1 / 2 ->
   TverskyLoss_forward self inputs targets =
   1 - dice_coefficient (tmap sigmoid inputs) targets (2 * eps self)).
Proof.
  intros Hlen Ht Heps Ha Hb.
  unfold TverskyLoss_forward, dice_coefficient. cbv zeta.
  cbn [tmap entries].
  set (p := map sigmoid (entries inputs)).
  set (t := entries targets) in *.
  assert (Hl : length p = length t)
    by (unfold p; rewrite length_map; exact Hlen).
  assert (Hp : unit_range p) by apply unit_range_sigmoid.
  destruct (tsum_tmul_bounds Hl Hp Ht) as (I0 & I1 & I2 & I3 & I4 & I5).
  rewrite (@tsum_complement p t Hl).
  rewrite (tsum_tmul_comm t (map (fun i => 1 - i) p)).
  rewrite (@tsum_complement t p (eq_sym Hl)).
  rewrite (tsum_tmul_comm t p).
  set (TP := tsum (tmul p t)) in *.
  set (sp := tsum p) in *. set (st := tsum t) in *.
  assert (HFP : 0 <= alpha self * (sp - TP)) by (apply Rmult_le_pos; lra).
  assert (HFN : 0 <= beta self * (st - TP)) by (apply Rmult_le_pos; lra).
  set (den := TP + alpha self * (sp - TP) + beta self * (st - TP) + eps self).
  assert (Hden : 0 < den) by (unfold den; lra).
  assert (Hq : 0 < (TP + eps self) / den <= 1).
  { split.
    - apply Rdiv_lt_0_compat; lra.
    - apply (Rmult_le_reg_r den); [exact Hden|].
      unfold Rdiv. rewrite Rmult_assoc, Rinv_l by lra. unfold den. lra. }
  split; [lra|].
  intros Ea Eb. unfold den. rewrite Ea, Eb. field. lra.
Qed.

Lemma tversky_loss_range_example :
  0 <= TverskyLoss_forward (mkTverskyLoss (1 / 2) (1 / 2) 1)
                           (mkTensor 1 [0; 0]) (mkTensor 1 [1; 1]) < 1.
Proof.
  apply (@tversky_loss_range (mkTverskyLoss (1 / 2) (1 / 2) 1)
           (mkTensor 1 [0; 0]) (mkTensor 1 [1; 1])).
  - reflexivity.
  - repeat constructor; lra.
  - cbn. lra.
  - cbn. lra.
  - cbn. lra.
Defined.
End Training.
